(** * Shell word quoting of bfs ([src/bfstd.c]): a shallow embedding

    The C functions [xstpencpy], [xmbrtowc], [printable_len], [dollar_quote],
    [bare_len], [quotable_len], [double_quote], [single_quote] and [wordnesc]
    are transcribed below.  Conventions:

    - a byte is a [Byte.byte]; a [size_t] or a pointer offset is a [Z], and
      every [size_t] operation that can leave the range is written with
      [wrap] (reduction modulo 2^64);
    - a [const char *] argument is the list of the bytes that are readable
      from the pointer on (the rest of its memory object), so [str + k] is
      [zdrop k str] and reading past the end of the list is a fault;
    - the destination buffer is one memory object, a [list byte]; [dest] and
      [end] are offsets into it, and a store outside the object is a fault;
    - a loop whose termination depends on its data takes fuel, and running
      out of fuel is the fault [NoFuel]. *)

From Stdlib Require Import ZArith Lia.
From Stdlib Require Import Strings.Byte.
From Stdlib Require Strings.String.
Import String.StringSyntax.
Delimit Scope string_scope with string.
From stdpp Require Import base tactics option list.

Local Open Scope Z_scope.

(** ** Bytes, sizes and memory objects *)

Definition byte_val (b : byte) : Z := Z.of_N (Byte.to_N b).

Definition NUL : byte := x00.

Definition SIZE_MAX : Z := 2 ^ 64 - 1.
Definition PTRDIFF_MAX : Z := 2 ^ 63 - 1.

(** Arithmetic on [size_t] is modulo 2^64. *)
Definition wrap (z : Z) : Z := z mod 2 ^ 64.

Definition zlen {A} (l : list A) : Z := Z.of_nat (length l).
Definition ztake {A} (n : Z) (l : list A) : list A := take (Z.to_nat n) l.
Definition zdrop {A} (n : Z) (l : list A) : list A := drop (Z.to_nat n) l.

(** [p[a]] for a pointer [p] to the start of the object [m]. *)
Definition load (m : list byte) (a : Z) : option byte :=
  if a <? 0 then None else m !! Z.to_nat a.

(** A C string literal: its bytes followed by the terminator. *)
Definition lit (s : String.string) : list byte :=
  String.list_byte_of_string s ++ [NUL].
Arguments lit s%_string.

(** ** Faults and the two monads

    [res] is the result of code that only reads; [M] threads the destination
    buffer through code that also writes. *)

Inductive fault : Set :=
  | ReadOOB    (* a read outside the source object *)
  | NoFuel.    (* the loop did not finish *)

Inductive res (A : Type) : Type :=
  | Ok (a : A)
  | Err (f : fault).
Arguments Ok {A} a.
Arguments Err {A} f.

Definition rbind {A B} (r : res A) (k : A -> res B) : res B :=
  match r with
  | Ok a => k a
  | Err f => Err f
  end.

Inductive wres (A : Type) : Type :=
  | WOk (a : A) (buf : list byte)   (* the value and the new buffer *)
  | WriteOOB                        (* a store outside the destination object *)
  | WErr (f : fault).
Arguments WOk {A} a buf.
Arguments WriteOOB {A}.
Arguments WErr {A} f.

Definition M (A : Type) : Type := list byte -> wres A.

Definition ret {A} (a : A) : M A := fun buf => WOk a buf.

Definition bind {A B} (m : M A) (k : A -> M B) : M B :=
  fun buf =>
    match m buf with
    | WOk a buf' => k a buf'
    | WriteOOB => WriteOOB
    | WErr f => WErr f
    end.

Definition lift {A} (r : res A) : M A :=
  fun buf =>
    match r with
    | Ok a => WOk a buf
    | Err f => WErr f
    end.

Definition fail {A} (f : fault) : M A := fun _ => WErr f.

Declare Scope cmd_scope.
Delimit Scope cmd_scope with cmd.
Notation "'let*' x := r 'in' k" := (rbind r (fun x => k))
  (at level 10, x pattern, r at level 100, k at level 200).
Notation "x <- m ;; k" := (bind m (fun x => k))
  (at level 100, m at next level, right associativity) : cmd_scope.
Notation "m ;;; k" := (bind m (fun _ => k))
  (at level 100, right associativity) : cmd_scope.

(** [str[a]] as a read that can fault. *)
Definition rload (m : list byte) (a : Z) : res byte :=
  match load m a with
  | Some b => Ok b
  | None => Err ReadOOB
  end.

(** [buf[a] = v]. *)
Definition store (a : Z) (v : byte) : M unit :=
  fun buf =>
    if (0 <=? a) && (a <? zlen buf)
    then WOk tt (<[Z.to_nat a := v]> buf)
    else WriteOOB.

(** ** The C library functions the code calls *)

(** [strnlen(s, n)]: the index of the first NUL among the first [n] bytes,
    or [n]; it reads no byte at index [n] or later. *)
Fixpoint strnlen (s : list byte) (n : Z) : res Z :=
  if n <=? 0 then Ok 0
  else match s with
       | [] => Err ReadOOB
       | c :: t =>
           if Byte.eqb c NUL then Ok 0
           else let* r := strnlen t (n - 1) in Ok (1 + r)
       end.

(** Membership of a byte in the C string [set] (the terminator excluded). *)
Fixpoint strchr_in (set : list byte) (c : byte) : bool :=
  match set with
  | [] => false
  | x :: t => if Byte.eqb x NUL then false
              else Byte.eqb x c || strchr_in t c
  end.

(** [strcspn(s, reject)]: the length of the longest prefix of the string [s]
    without a byte of [reject]; it reads up to the terminator. *)
Fixpoint strcspn (s : list byte) (reject : list byte) : res Z :=
  match s with
  | [] => Err ReadOOB
  | c :: t =>
      if Byte.eqb c NUL || strchr_in reject c then Ok 0
      else let* r := strcspn t reject in Ok (1 + r)
  end.

(** [memcpy(buf + dest, src, n)]. *)
Definition memcpy (dest : Z) (src : list byte) (n : Z) : M unit :=
  fun buf =>
    if n <=? 0 then WOk tt buf
    else if zlen src <? n then WErr ReadOOB
    else if (0 <=? dest) && (dest + n <=? zlen buf)
    then WOk tt (ztake dest buf ++ ztake n src ++ zdrop (dest + n) buf)
    else WriteOOB.

(** ** The bounded writer *)

Local Open Scope cmd_scope.

(** [xstpencpy], bfstd.c lines 263-275. *)
Definition xstpencpy (dest end_ : Z) (src : list byte) (n : Z) : M Z :=
  let space := wrap (end_ - dest) in
  let n := if space <? n then space else n in
  n <- lift (strnlen src n) ;;
  memcpy dest src n ;;;
  if n <? space then
    store (dest + n) NUL ;;;
    ret (dest + n)
  else
    store (end_ - 1) NUL ;;;
    ret end_.

(** [xstpecpy], bfstd.c lines 259-261. *)
Definition xstpecpy (dest end_ : Z) (src : list byte) : M Z :=
  xstpencpy dest end_ src SIZE_MAX.

(** ** The locale

    [mbrtowc], [isprint], [isspace], [iswprint] and [iswspace] belong to the
    C library and depend on the process locale; the code is embedded over
    an arbitrary one.  [mbrtowc L bs st] stands for
    [mbrtowc(&wc, p, n, &mb)] where [bs] are the [n] bytes at [p] and [st]
    is the state in [mb]. *)

Inductive mbresult (st : Type) : Type :=
  | MbInvalid                              (* (size_t)-1 *)
  | MbIncomplete (s : st)                  (* (size_t)-2 *)
  | MbChar (wc : Z) (k : Z) (s : st).      (* k bytes, 0 for the null character *)
Arguments MbInvalid {st}.
Arguments MbIncomplete {st} s.
Arguments MbChar {st} wc k s.

Record locale : Type := Locale {
  mbstate : Type;
  mb_zero : mbstate;                        (* memset(&mb, 0, sizeof(mb)) *)
  mbrtowc : list byte -> mbstate -> mbresult mbstate;
  isprint : byte -> bool;
  isspace : byte -> bool;
  iswprint : Z -> bool;
  iswspace : Z -> bool
}.

(** Modelled from the spec: [enum wesc_flags] is declared in a header that is
    not among the sources; the spec describes a flag that distinguishes
    general text escaping from shell escaping.  The flag word is a bit mask
    and [WESC_SHELL] is its lowest bit. *)
Definition WESC_SHELL : Z := 1.

(** [flags & WESC_SHELL] as a truth value. *)
Definition shell (flags : Z) : bool := negb (Z.land flags WESC_SHELL =? 0).

(** [isascii(c)]. *)
Definition isascii (c : byte) : bool := byte_val c <? 128.

(** The characters the code names. *)
Definition c_squote : byte := x27.   (* ' *)
Definition c_dquote : byte := x22.   (* the double quote *)
Definition c_bslash : byte := x5c.   (* \ *)
Definition c_dollar : byte := x24.   (* $ *)

(** [dollar_esc], bfstd.c lines 643-669; [None] is the NULL pointer. *)
Definition dollar_esc (c : byte) : option (list byte) :=
  match c with
  | x07 => Some (lit "\a")
  | x08 => Some (lit "\b")
  | x1b => Some (lit "\e")
  | x0c => Some (lit "\f")
  | x0a => Some (lit "\n")
  | x0d => Some (lit "\r")
  | x09 => Some (lit "\t")
  | x0b => Some (lit "\v")
  | x27 => Some (lit "\'")
  | x5c => Some (lit "\\")
  | _ => None
  end.

(** The table [hex] of [dollar_quote], bfstd.c line 703. *)
Definition hex : list (list byte) :=
  [lit "0"; lit "1"; lit "2"; lit "3"; lit "4"; lit "5"; lit "6"; lit "7";
   lit "8"; lit "9"; lit "A"; lit "B"; lit "C"; lit "D"; lit "E"; lit "F"].

(** [hex[k]]. *)
Definition hex_at (k : Z) : res (list byte) :=
  if k <? 0 then Err ReadOOB
  else match hex !! Z.to_nat k with
       | Some s => Ok s
       | None => Err ReadOOB
       end.

(** The reject set of [bare_len], bfstd.c line 718, byte for byte:
    | & ; < > ( ) $ ` \ (double quote) ' (space) * ? [ #
    then the two bytes 0xCB 0x9C (the UTF-8 encoding of U+02DC, the
    character that stands between # and = in the source), then = % ! *)
Definition bare_reject : list byte :=
  [x7c; x26; x3b; x3c; x3e; x28; x29; x24; x60; x5c; x22; x27; x20;
   x2a; x3f; x5b; x23; xcb; x9c; x3d; x25; x21; NUL].

(** The reject set of [quotable_len], bfstd.c line 725:
    ` $ \ (double quote) ! *)
Definition quotable_reject : list byte :=
  [x60; x24; x5c; x22; x21; NUL].

(** [bare_len], bfstd.c lines 716-720. *)
Definition bare_len (str : list byte) (len : Z) : res Z :=
  let* r := strcspn str bare_reject in
  Ok (if r <? len then r else len).

(** [quotable_len], bfstd.c lines 723-727. *)
Definition quotable_len (str : list byte) (len : Z) : res Z :=
  let* r := strcspn str quotable_reject in
  Ok (if r <? len then r else len).

(** [double_quote], bfstd.c lines 730-734. *)
Definition double_quote (dest end_ : Z) (str : list byte) (len : Z) : M Z :=
  dest <- xstpecpy dest end_ [c_dquote; NUL] ;;
  dest <- xstpencpy dest end_ str len ;;
  xstpecpy dest end_ [c_dquote; NUL].

(** The inner loop of [single_quote], bfstd.c lines 753-761; it returns the
    new [dest], [str], [len] and [open]. *)
Fixpoint single_quote_run (fuel : nat) (dest end_ : Z) (str : list byte)
  (len : Z) (open : bool) : M (Z * (list byte * Z * bool)) :=
  if 0 <? len then
    c <- lift (rload str 0) ;;
    if Byte.eqb c c_squote then
      match fuel with
      | O => fail NoFuel
      | S fuel' =>
          dest <- (if open then xstpecpy dest end_ (lit "'") else ret dest) ;;
          let open := false in
          dest <- xstpecpy dest end_ (lit "\'") ;;
          single_quote_run fuel' dest end_ (zdrop 1 str) (wrap (len - 1)) open
      end
    else ret (dest, (str, len, open))
  else ret (dest, (str, len, open)).

(** The outer loop of [single_quote], bfstd.c lines 740-762, and the closing
    quote of lines 764-768. *)
Fixpoint single_quote_loop (fuel : nat) (dest end_ : Z) (str : list byte)
  (len : Z) (open : bool) : M Z :=
  if 0 <? len then
    match fuel with
    | O => fail NoFuel
    | S fuel' =>
        chunk <- lift (strcspn str (lit "'")) ;;
        let chunk := if chunk <? len then chunk else len in
        st <- (if 0 <? chunk then
                 dest <- (if negb open then xstpecpy dest end_ (lit "'")
                          else ret dest) ;;
                 let open := true in
                 dest <- xstpencpy dest end_ str chunk ;;
                 ret (dest, (zdrop chunk str, wrap (len - chunk), open))
               else ret (dest, (str, len, open))) ;;
        let '(dest, (str, len, open)) := st in
        st <- single_quote_run fuel' dest end_ str len open ;;
        let '(dest, (str, len, open)) := st in
        single_quote_loop fuel' dest end_ str len open
    end
  else if open then xstpecpy dest end_ (lit "'")
  else ret dest.

(** [single_quote], bfstd.c lines 737-769. *)
Definition single_quote (fuel : nat) (dest end_ : Z) (str : list byte)
  (len : Z) : M Z :=
  single_quote_loop fuel dest end_ str len false.

Section Code.

Variable L : locale.

(** [xmbrtowc], bfstd.c lines 545-561.  The result is the returned [int],
    the character stored through [wc] when there is one, the new [*i] and
    the new [*mb]. *)
Definition xmbrtowc (i : Z) (str : list byte) (len : Z) (mb : mbstate L)
  : res (Z * option Z * Z * mbstate L) :=
  let n := wrap (len - i) in
  if zlen str <? i + n then Err ReadOOB
  else
    match mbrtowc L (ztake n (zdrop i str)) mb with
    | MbInvalid => Ok (-1, None, wrap (i + 1), mb_zero L)
    | MbIncomplete mb' => Ok (-1, None, wrap (i + len), mb')
    | MbChar wc mblen mb' => Ok (0, Some wc, wrap (i + mblen), mb')
    end.

(** [xisprint], bfstd.c lines 584-597. *)
Definition xisprint (c : byte) (flags : Z) : bool :=
  if isprint L c then true
  else if negb (shell flags) && isspace L c then true
  else false.

(** [xiswprint], bfstd.c lines 600-610. *)
Definition xiswprint (c : Z) (flags : Z) : bool :=
  if iswprint L c then true
  else if negb (shell flags) && iswspace L c then true
  else false.

(** The first loop of [printable_len]: [inl i] is [return i], [inr i] is
    the value of [i] with which the loop is left. *)
Fixpoint printable_fast (fuel : nat) (str : list byte) (len : Z) (flags : Z)
  (i : Z) : res (Z + Z) :=
  if i <? len then
    match fuel with
    | O => Err NoFuel
    | S fuel' =>
        let* c := rload str i in
        if negb (isascii c) then Ok (inr i)
        else if negb (xisprint c flags) then Ok (inl i)
        else printable_fast fuel' str len flags (wrap (i + 1))
    end
  else Ok (inr i).

(** The second loop of [printable_len]. *)
Fixpoint printable_slow (fuel : nat) (str : list byte) (len : Z) (flags : Z)
  (i : Z) (mb : mbstate L) : res Z :=
  if i <? len then
    match fuel with
    | O => Err NoFuel
    | S fuel' =>
        let* (r, wc, i, mb) := xmbrtowc i str len mb in
        if negb (r =? 0) then Ok i
        else match wc with
             | Some wc =>
                 if negb (xiswprint wc flags) then Ok i
                 else printable_slow fuel' str len flags i mb
             | None => Ok i
             end
    end
  else Ok i.

(** [printable_len], bfstd.c lines 613-640. *)
Definition printable_len (fuel : nat) (str : list byte) (len : Z) (flags : Z)
  : res Z :=
  let* r := printable_fast fuel str len flags 0 in
  match r with
  | inl i => Ok i
  | inr i => printable_slow fuel str len flags i (mb_zero L)
  end.

(** The loop of [dollar_quote] at lines 687-692: it runs for
    [j = start, ..., i - 1] and leaves [safe] false at the first quote or
    backslash. *)
Fixpoint dollar_scan (cnt : nat) (str : list byte) (j : Z) (safe : bool)
  : res bool :=
  match cnt with
  | O => Ok safe
  | S cnt' =>
      let* c := rload str j in
      if Byte.eqb c c_squote || Byte.eqb c c_bslash then Ok false
      else dollar_scan cnt' str (wrap (j + 1)) safe
  end.

(** The loop of [dollar_quote] at lines 697-708, for
    [j = start, ..., i - 1]. *)
Fixpoint dollar_bytes (cnt : nat) (dest end_ : Z) (str : list byte) (j : Z)
  : M Z :=
  match cnt with
  | O => ret dest
  | S cnt' =>
      byte <- lift (rload str j) ;;
      dest <- match dollar_esc byte with
              | Some esc => xstpecpy dest end_ esc
              | None =>
                  dest <- xstpecpy dest end_ (lit "\x") ;;
                  h <- lift (hex_at (byte_val byte / 16)) ;;
                  dest <- xstpecpy dest end_ h ;;
                  h <- lift (hex_at (byte_val byte mod 16)) ;;
                  xstpecpy dest end_ h
              end ;;
      dollar_bytes cnt' dest end_ str (wrap (j + 1))
  end.

(** The main loop of [dollar_quote], bfstd.c lines 678-710. *)
Fixpoint dollar_loop (fuel : nat) (dest end_ : Z) (str : list byte) (len : Z)
  (flags : Z) (i : Z) (mb : mbstate L) : M Z :=
  if i <? len then
    match fuel with
    | O => fail NoFuel
    | S fuel' =>
        let start := i in
        let safe := false in
        d <- lift (xmbrtowc i str len mb) ;;
        let '(r, wc, i, mb) := d in
        let safe := match wc with
                    | Some wc => if r =? 0 then xiswprint wc flags else safe
                    | None => safe
                    end in
        let cnt := Z.to_nat (i - start) in
        safe <- lift (dollar_scan cnt str start safe) ;;
        dest <- (if safe
                 then xstpencpy dest end_ (zdrop start str) (wrap (i - start))
                 else dollar_bytes cnt dest end_ str start) ;;
        dollar_loop fuel' dest end_ str len flags i mb
    end
  else ret dest.

(** [dollar_quote], bfstd.c lines 672-713. *)
Definition dollar_quote (fuel : nat) (dest end_ : Z) (str : list byte)
  (len : Z) (flags : Z) : M Z :=
  dest <- xstpecpy dest end_ (lit "$'") ;;
  dest <- dollar_loop fuel dest end_ str len flags 0 (mb_zero L) ;;
  xstpecpy dest end_ (lit "'").

(** [wordnesc], bfstd.c lines 775-798. *)
Definition wordnesc (fuel : nat) (dest end_ : Z) (str : list byte) (n : Z)
  (flags : Z) : M Z :=
  len <- lift (strnlen str n) ;;
  let start := dest in
  pl <- lift (printable_len fuel str len flags) ;;
  dest <-
    (if pl <? len then
       dollar_quote fuel dest end_ str len flags
     else
       bare <- (if negb (shell flags) then ret true
                else bl <- lift (bare_len str len) ;; ret (bl =? len)) ;;
       if (bare : bool) then
         xstpencpy dest end_ str len
       else
         ql <- lift (quotable_len str len) ;;
         if ql =? len then
           double_quote dest end_ str len
         else
           single_quote fuel dest end_ str len) ;;
  if dest =? start then xstpecpy dest end_ [c_dquote; c_dquote; NUL]
  else ret dest.

(** [wordesc], bfstd.c lines 771-773. *)
Definition wordesc (fuel : nat) (dest end_ : Z) (str : list byte)
  (flags : Z) : M Z :=
  wordnesc fuel dest end_ str SIZE_MAX flags.

End Code.

(** ** A concrete locale: UTF-8

    A model of [mbrtowc] and of the classification functions in a UTF-8
    locale, used to run the code on concrete inputs.  The conversion state
    holds the bytes of a character that is not complete yet. *)

Module Utf8.

Inductive decoded : Set :=
  | Invalid
  | Incomplete
  | Char (wc : Z) (k : Z).

(** The [need] continuation bytes of a character; the first of them is
    restricted to [lo..hi]. *)
Fixpoint continuation (need : nat) (lo hi : Z) (acc : Z) (k : Z)
  (t : list byte) : decoded :=
  match need with
  | O => Char acc k
  | S need' =>
      match t with
      | [] => Incomplete
      | b :: t' =>
          let v := byte_val b in
          if (lo <=? v) && (v <=? hi)
          then continuation need' 128 191 (acc * 64 + (v - 128)) (k + 1) t'
          else Invalid
      end
  end.

Definition decode (s : list byte) : decoded :=
  match s with
  | [] => Incomplete
  | b :: t =>
      let v := byte_val b in
      if v =? 0 then Char 0 0
      else if v <? 128 then Char v 1
      else if v <? 194 then Invalid
      else if v <? 224 then continuation 1 128 191 (v - 192) 1 t
      else if v =? 224 then continuation 2 160 191 (v - 224) 1 t
      else if v =? 237 then continuation 2 128 159 (v - 224) 1 t
      else if v <? 240 then continuation 2 128 191 (v - 224) 1 t
      else if v =? 240 then continuation 3 144 191 (v - 240) 1 t
      else if v <? 244 then continuation 3 128 191 (v - 240) 1 t
      else if v =? 244 then continuation 3 128 143 (v - 240) 1 t
      else Invalid
  end.

Definition mbrtowc (bs : list byte) (st : list byte) : mbresult (list byte) :=
  match decode (st ++ bs) with
  | Invalid => MbInvalid
  | Incomplete => MbIncomplete (st ++ bs)
  | Char wc k => MbChar wc (if k =? 0 then 0 else k - zlen st) []
  end.

Definition isprint (c : byte) : bool :=
  (32 <=? byte_val c) && (byte_val c <=? 126).

Definition isspace (c : byte) : bool :=
  ((9 <=? byte_val c) && (byte_val c <=? 13)) || (byte_val c =? 32).

Definition iswspace (wc : Z) : bool :=
  ((9 <=? wc) && (wc <=? 13)) || (wc =? 32) || (wc =? 5760)
  || ((8192 <=? wc) && (wc <=? 8202) && negb (wc =? 8199))
  || (wc =? 8232) || (wc =? 8233) || (wc =? 8287) || (wc =? 12288).

Definition iswprint (wc : Z) : bool :=
  ((32 <=? wc) && (wc <=? 126))
  || ((160 <=? wc) && negb (wc =? 8232) && negb (wc =? 8233)).

Definition loc : locale :=
  Locale (list byte) [] mbrtowc isprint isspace iswprint iswspace.

End Utf8.

(** The text left in the buffer: the bytes from [dest] up to the first
    terminator. *)
Fixpoint until_nul (l : list byte) : list byte :=
  match l with
  | [] => []
  | c :: t => if Byte.eqb c NUL then [] else c :: until_nul t
  end.

Definition text_at (buf : list byte) (dest : Z) : list byte :=
  until_nul (zdrop dest buf).

(** Running [wordnesc] in the UTF-8 locale on the C string [s] with a fresh
    buffer of [cap] bytes: the returned cursor and the text. *)
Definition run_wordnesc (cap : nat) (s : list byte) (n : Z) (flags : Z)
  : wres (Z * list byte) :=
  match wordnesc Utf8.loc (S (length s)) 0 (Z.of_nat cap) (s ++ [NUL]) n flags
          (replicate cap xff) with
  | WOk r buf => WOk (r, text_at buf 0) buf
  | WriteOOB => WriteOOB
  | WErr f => WErr f
  end.

(** ** The state of the bounded writer *)

(** The logical state of the bounded writer: [out] is everything that has
    been handed to it since the cursor was at [s]; [d] is the cursor and
    [buf] the destination object, which was [b0] at the start. *)
Record written (b0 : list byte) (s e : Z) (out : list byte) (d : Z)
  (buf : list byte) : Prop := Written {
  wr_bounds : 0 <= s < e /\ e <= zlen b0 /\ zlen b0 <= PTRDIFF_MAX;
  wr_region : exists region,
    buf = ztake s b0 ++ region ++ zdrop e b0 /\
    zlen region = e - s /\
    if zlen out <? e - s
    then d = s + zlen out /\ ztake (zlen out) region = out /\
         (out <> [] -> region !! length out = Some NUL)
    else d = e /\ region = ztake (e - s - 1) out ++ [NUL]
}.


(** [emits b0 s e f t]: started at any state of the writer, the code [f]
    (a function of the cursor) never stores outside the region, leaves the
    writer in a state that extends the text handed over so far, and that
    extension is the text [t] whenever [t] is defined; [t] is defined
    whenever [f] returns without having filled the buffer, and [f] fails
    only where [t] is undefined. *)
Definition emits (b0 : list byte) (s e : Z) (f : Z -> M Z)
  (t : res (list byte)) : Prop :=
  forall out d buf,
    written b0 s e out d buf ->
    match f d buf with
    | WOk d' buf' =>
        exists txt, written b0 s e (out ++ txt) d' buf' /\
                    (forall txt0, t = Ok txt0 -> txt0 = txt) /\
                    (d' < e -> t = Ok txt)
    | WriteOOB => False
    | WErr _ => forall txt0, t <> Ok txt0
    end.

(** ** The text each emitter hands to the writer

    The functions below follow the emitters line by line and collect the
    bytes of every [xstpencpy] call instead of storing them: they give the
    output the code would leave in a buffer that is large enough. *)

(** What [xstpencpy(dest, end, src, n)] is asked to append. *)
Definition xstpencpy_text (src : list byte) (n : Z) : res (list byte) :=
  let* m := strnlen src n in Ok (ztake m src).

Definition xstpecpy_text (src : list byte) : res (list byte) :=
  xstpencpy_text src SIZE_MAX.

Definition double_quote_text (str : list byte) (len : Z) : res (list byte) :=
  let* a := xstpecpy_text [c_dquote; NUL] in
  let* b := xstpencpy_text str len in
  let* c := xstpecpy_text [c_dquote; NUL] in
  Ok (a ++ b ++ c).

Fixpoint single_quote_run_text (fuel : nat) (str : list byte) (len : Z)
  (open : bool) : res (list byte * (list byte * Z * bool)) :=
  if 0 <? len then
    let* c := rload str 0 in
    if Byte.eqb c c_squote then
      match fuel with
      | O => Err NoFuel
      | S fuel' =>
          let* a := (if open then xstpecpy_text (lit "'") else Ok []) in
          let open := false in
          let* b := xstpecpy_text (lit "\'") in
          let* (t, st) := single_quote_run_text fuel' (zdrop 1 str)
                            (wrap (len - 1)) open in
          Ok (a ++ b ++ t, st)
      end
    else Ok ([], (str, len, open))
  else Ok ([], (str, len, open)).

Fixpoint single_quote_loop_text (fuel : nat) (str : list byte) (len : Z)
  (open : bool) : res (list byte) :=
  if 0 <? len then
    match fuel with
    | O => Err NoFuel
    | S fuel' =>
        let* chunk := strcspn str (lit "'") in
        let chunk := if chunk <? len then chunk else len in
        let* (a, st) :=
          (if 0 <? chunk then
             let* a := (if negb open then xstpecpy_text (lit "'")
                        else Ok []) in
             let open := true in
             let* b := xstpencpy_text str chunk in
             Ok (a ++ b, (zdrop chunk str, wrap (len - chunk), open))
           else Ok ([], (str, len, open))) in
        let '(str, len, open) := st in
        let* (b, st) := single_quote_run_text fuel' str len open in
        let '(str, len, open) := st in
        let* c := single_quote_loop_text fuel' str len open in
        Ok (a ++ b ++ c)
    end
  else if open then xstpecpy_text (lit "'")
  else Ok [].

Definition single_quote_text (fuel : nat) (str : list byte) (len : Z)
  : res (list byte) :=
  single_quote_loop_text fuel str len false.

Section Text.

Variable L : locale.

Fixpoint dollar_bytes_text (cnt : nat) (str : list byte) (j : Z)
  : res (list byte) :=
  match cnt with
  | O => Ok []
  | S cnt' =>
      let* byte := rload str j in
      let* a := match dollar_esc byte with
                | Some esc => xstpecpy_text esc
                | None =>
                    let* x := xstpecpy_text (lit "\x") in
                    let* h := hex_at (byte_val byte / 16) in
                    let* hi := xstpecpy_text h in
                    let* h := hex_at (byte_val byte mod 16) in
                    let* lo := xstpecpy_text h in
                    Ok (x ++ hi ++ lo)
                end in
      let* b := dollar_bytes_text cnt' str (wrap (j + 1)) in
      Ok (a ++ b)
  end.

Fixpoint dollar_loop_text (fuel : nat) (str : list byte) (len : Z)
  (flags : Z) (i : Z) (mb : mbstate L) : res (list byte) :=
  if i <? len then
    match fuel with
    | O => Err NoFuel
    | S fuel' =>
        let start := i in
        let safe := false in
        let* (r, wc, i, mb) := xmbrtowc L i str len mb in
        let safe := match wc with
                    | Some wc => if r =? 0 then xiswprint L wc flags else safe
                    | None => safe
                    end in
        let cnt := Z.to_nat (i - start) in
        let* safe := dollar_scan cnt str start safe in
        let* a := (if safe
                   then xstpencpy_text (zdrop start str) (wrap (i - start))
                   else dollar_bytes_text cnt str start) in
        let* b := dollar_loop_text fuel' str len flags i mb in
        Ok (a ++ b)
    end
  else Ok [].

Definition dollar_quote_text (fuel : nat) (str : list byte) (len : Z)
  (flags : Z) : res (list byte) :=
  let* a := xstpecpy_text (lit "$'") in
  let* b := dollar_loop_text fuel str len flags 0 (mb_zero L) in
  let* c := xstpecpy_text (lit "'") in
  Ok (a ++ b ++ c).

(** The text of [wordnesc] before the test [dest == start]. *)
Definition wordnesc_body_text (fuel : nat) (str : list byte) (len : Z)
  (flags : Z) : res (list byte) :=
  let* pl := printable_len L fuel str len flags in
  if pl <? len then
    dollar_quote_text fuel str len flags
  else
    let* bare := (if negb (shell flags) then Ok true
                  else let* bl := bare_len str len in Ok (bl =? len)) in
    if (bare : bool) then
      xstpencpy_text str len
    else
      let* ql := quotable_len str len in
      if ql =? len then
        double_quote_text str len
      else
        single_quote_text fuel str len.

Definition wordnesc_text (fuel : nat) (str : list byte) (n : Z) (flags : Z)
  : res (list byte) :=
  let* len := strnlen str n in
  let* a := wordnesc_body_text fuel str len flags in
  match a with
  | [] => xstpecpy_text [c_dquote; c_dquote; NUL]
  | _ => Ok a
  end.

End Text.

(** The bytes of the buffer from [s] up to [r] (excluded). *)
Definition bytes_between (buf : list byte) (s r : Z) : list byte :=
  ztake (r - s) (zdrop s buf).

(** ** Specification-side definitions *)

(** The longest prefix of [bs] without a byte of the C string [rej]. *)
Fixpoint span_free (rej : list byte) (bs : list byte) : list byte :=
  match bs with
  | [] => []
  | c :: t => if strchr_in rej c then [] else c :: span_free rej t
  end.

(** The SingleQuoted rendering as a two-state machine ([open] tells whether
    a quoted run is open): a quote closes the open run and is written as
    backslash-quote outside; any other byte opens a run if none is open and
    is copied; at the end an open run is closed. *)
Fixpoint single_quote_spec (bs : list byte) (open : bool) : list byte :=
  match bs with
  | [] => if open then [c_squote] else []
  | c :: t =>
      if Byte.eqb c c_squote then
        (if open then [c_squote] else [])
          ++ [c_bslash; c_squote] ++ single_quote_spec t false
      else
        (if open then [] else [c_squote]) ++ c :: single_quote_spec t true
  end.

(** Reading a SingleQuoted text back: outside a run only a quote (opening a
    run) or backslash-quote (a literal quote) may occur; inside a run every
    byte up to the closing quote is literal; the text must end outside a
    run.  The result is the list of literal bytes. *)
Fixpoint quote_runs (open : bool) (out : list byte) : option (list byte) :=
  match out with
  | [] => if open then None else Some []
  | c :: t =>
      if open then
        if Byte.eqb c c_squote then quote_runs false t
        else option_map (cons c) (quote_runs true t)
      else
        if Byte.eqb c c_squote then quote_runs true t
        else if Byte.eqb c c_bslash then
          match t with
          | c' :: t' =>
              if Byte.eqb c' c_squote
              then option_map (cons c_squote) (quote_runs false t')
              else None
          | [] => None
          end
        else None
  end.

(** The named escapes of ANSI-C quoting: the letter after the backslash. *)
Definition named_escape (b : byte) : option byte :=
  match b with
  | x07 => Some x61   (* \a *)
  | x08 => Some x62   (* \b *)
  | x1b => Some x65   (* \e *)
  | x0c => Some x66   (* \f *)
  | x0a => Some x6e   (* \n *)
  | x0d => Some x72   (* \r *)
  | x09 => Some x74   (* \t *)
  | x0b => Some x76   (* \v *)
  | x27 => Some x27   (* \' *)
  | x5c => Some x5c   (* \\ *)
  | _ => None
  end.

(** The upper-case hexadecimal digit of a value below 16. *)
Definition hex_digit (k : Z) : byte :=
  nth (Z.to_nat k) (String.list_byte_of_string "0123456789ABCDEF") x3f.

(** One byte as an escape: the named escape when there is one, otherwise
    backslash, x and exactly two upper-case hexadecimal digits. *)
Definition escape_byte (b : byte) : list byte :=
  match named_escape b with
  | Some c => [c_bslash; c]
  | None => [c_bslash; x78; hex_digit (byte_val b / 16);
             hex_digit (byte_val b mod 16)]
  end.

Definition plain_byte (c : byte) : bool :=
  negb (Byte.eqb c c_squote || Byte.eqb c c_bslash).

(** What the locale is assumed to guarantee about [mbrtowc] from the
    initial state: a character takes at least one and at most the offered
    number of bytes, only the null character takes none (and then a NUL was
    offered), and the state after a complete character is initial again. *)
Record conforming (L : locale) : Prop := Conforming {
  conf_char : forall bs wc k st,
    mbrtowc L bs (mb_zero L) = MbChar wc k st ->
    0 <= k <= zlen bs /\ (k = 0 -> NUL ∈ bs) /\ st = mb_zero L
}.

Section Spec.

Variable L : locale.

(** One step of the character classifier as the spec describes it: the
    decoded character if any, the bytes it consumes and the bytes left.  An
    invalid sequence consumes one byte, an incomplete one the remainder. *)
Definition decode_one (bs : list byte) : option Z * list byte * list byte :=
  match mbrtowc L bs (mb_zero L) with
  | MbChar wc k _ => (Some wc, ztake k bs, zdrop k bs)
  | MbInvalid => (None, ztake 1 bs, zdrop 1 bs)
  | MbIncomplete _ => (None, bs, [])
  end.

(** The DollarQuoted rendering of [bs] between the brackets: a character
    that decodes, has no quote or backslash among its bytes and is printable
    is copied; every other byte is escaped. *)
Fixpoint dollar_spec (fuel : nat) (flags : Z) (bs : list byte) : list byte :=
  match fuel with
  | O => []
  | S fuel' =>
      match bs with
      | [] => []
      | _ =>
          let '(wc, unit, rest) := decode_one bs in
          let verbatim :=
            match wc with
            | Some wc => xiswprint L wc flags && forallb plain_byte unit
            | None => false
            end in
          (if verbatim then unit else concat (map escape_byte unit))
            ++ dollar_spec fuel' flags rest
      end
  end.

(** No incomplete multibyte sequence is reported after the start of the
    first [len] bytes of [str]. *)
Definition complete_tail (str : list byte) (len : Z) : Prop :=
  forall i st, 0 < i < len ->
    mbrtowc L (ztake (len - i) (zdrop i str)) (mb_zero L) <> MbIncomplete st.

End Spec.

(** ** A reader of shell words

    The part of the POSIX shell grammar (XCU 2.2, 2.3, 2.6.1) that decides
    which bytes a single word denotes, with the [$'...'] quoting of ANSI-C
    strings.  The reader is conservative: it gives no result for a text that
    a shell would split, expand or treat as an operator. *)

(** Unquoted, these bytes end a word, start a quotation or an expansion, or
    are in the list of characters to quote of XCU 2.2:
    | & ; < > ( ) $ ` \\ (double quote) ' (space) (tab) (newline)
    * ? [ # = % and ! *)
Definition sh_meta : list byte :=
  [x7c; x26; x3b; x3c; x3e; x28; x29; x24; x60; x5c; x22; x27; x20; x09;
   x0a; x2a; x3f; x5b; x23; x3d; x25; x21; NUL].

Definition c_tilde : byte := x7e.
Definition c_newline : byte := x0a.
Definition c_tab : byte := x09.
Definition c_bquote : byte := x60.
Definition c_bang : byte := x21.

Inductive sh_mode : Set := Unquoted | InSingle | InDouble | InDollar.

Definition hex_val (c : byte) : option Z :=
  let v := byte_val c in
  if (48 <=? v) && (v <=? 57) then Some (v - 48)
  else if (65 <=? v) && (v <=? 70) then Some (v - 55)
  else if (97 <=? v) && (v <=? 102) then Some (v - 87)
  else None.

(** The byte a one-letter escape of [$'...'] stands for. *)
Definition unescape (e : byte) : option byte :=
  match e with
  | x61 => Some x07   (* \a *)
  | x62 => Some x08   (* \b *)
  | x65 => Some x1b   (* \e *)
  | x45 => Some x1b   (* \E *)
  | x66 => Some x0c   (* \f *)
  | x6e => Some x0a   (* \n *)
  | x72 => Some x0d   (* \r *)
  | x74 => Some x09   (* \t *)
  | x76 => Some x0b   (* \v *)
  | x5c => Some x5c   (* \\ *)
  | x27 => Some x27   (* \' *)
  | x22 => Some x22   (* \(double quote) *)
  | x3f => Some x3f   (* \? *)
  | _ => None
  end.

(** A byte given by its value; a null byte cannot be part of a word. *)
Definition word_byte (v : Z) (r : option (list byte)) : option (list byte) :=
  match Byte.of_N (Z.to_N v) with
  | Some b => if Byte.eqb b NUL then None else option_map (cons b) r
  | None => None
  end.

Fixpoint sh_parse (m : sh_mode) (s : list byte) : option (list byte) :=
  match s with
  | [] =>
      match m with
      | Unquoted => Some []
      | _ => None                       (* the quotation is not closed *)
      end
  | c :: t =>
      match m with
      | Unquoted =>
          if Byte.eqb c c_squote then sh_parse InSingle t
          else if Byte.eqb c c_dquote then sh_parse InDouble t
          else if Byte.eqb c c_dollar then
            match t with
            | c' :: t' =>
                if Byte.eqb c' c_squote then sh_parse InDollar t' else None
            | [] => None
            end
          else if Byte.eqb c c_bslash then
            match t with
            | c' :: t' =>
                if Byte.eqb c' c_newline then sh_parse Unquoted t'
                else option_map (cons c') (sh_parse Unquoted t')
            | [] => None
            end
          else if strchr_in sh_meta c then None
          else option_map (cons c) (sh_parse Unquoted t)
      | InSingle =>
          if Byte.eqb c c_squote then sh_parse Unquoted t
          else option_map (cons c) (sh_parse InSingle t)
      | InDouble =>
          if Byte.eqb c c_dquote then sh_parse Unquoted t
          else if Byte.eqb c c_dollar || Byte.eqb c c_bquote
                  || Byte.eqb c c_bang then None
          else if Byte.eqb c c_bslash then
            match t with
            | c' :: t' =>
                if Byte.eqb c' c_dollar || Byte.eqb c' c_bquote
                   || Byte.eqb c' c_dquote || Byte.eqb c' c_bslash
                then option_map (cons c') (sh_parse InDouble t')
                else if Byte.eqb c' c_newline then sh_parse InDouble t'
                else option_map (cons c) (sh_parse InDouble t)
            | [] => None
            end
          else option_map (cons c) (sh_parse InDouble t)
      | InDollar =>
          if Byte.eqb c c_squote then sh_parse Unquoted t
          else if Byte.eqb c c_bslash then
            match t with
            | e :: t' =>
                if Byte.eqb e x78 then
                  (* \xH or \xHH *)
                  match t' with
                  | h1 :: t'' =>
                      match hex_val h1 with
                      | Some v1 =>
                          match t'' with
                          | h2 :: t''' =>
                              match hex_val h2 with
                              | Some v2 =>
                                  word_byte (16 * v1 + v2)
                                    (sh_parse InDollar t''')
                              | None => word_byte v1 (sh_parse InDollar t'')
                              end
                          | [] => None
                          end
                      | None => None
                      end
                  | [] => None
                  end
                else
                  match unescape e with
                  | Some b => option_map (cons b) (sh_parse InDollar t')
                  | None => None
                  end
            | [] => None
            end
          else option_map (cons c) (sh_parse InDollar t)
      end
  end.

(** The bytes of the one word that the text [s] denotes: [None] when [s] is
    not exactly one literal word; a word that starts with an unquoted tilde
    undergoes tilde expansion. *)
Definition sh_word (s : list byte) : option (list byte) :=
  match s with
  | [] => None
  | c :: _ => if Byte.eqb c c_tilde then None else sh_parse Unquoted s
  end.

(** Tab and newline. *)
Definition blank_byte (c : byte) : bool :=
  Byte.eqb c c_tab || Byte.eqb c c_newline.

(** What the round trip assumes of the locale about tab and newline: they
    are not printable, they decode to themselves, and they are no part of a
    multibyte character or of an incomplete sequence. *)
Record shell_locale (L : locale) : Prop := ShellLocale {
  sl_isprint : forall c, blank_byte c = true -> isprint L c = false;
  sl_iswprint : forall c, blank_byte c = true ->
                          iswprint L (byte_val c) = false;
  sl_single : forall b rest wc st,
    mbrtowc L (b :: rest) (mb_zero L) = MbChar wc 1 st ->
    blank_byte b = true -> wc = byte_val b;
  sl_multi : forall bs wc k st,
    mbrtowc L bs (mb_zero L) = MbChar wc k st -> 2 <= k ->
    Forall (fun c => blank_byte c = false) (ztake k bs);
  sl_incomplete : forall bs st,
    mbrtowc L bs (mb_zero L) = MbIncomplete st ->
    Forall (fun c => blank_byte c = false) bs
}.

(** The text of a word, by strategy: [pl] is the result of the printable
    scan of the input bytes [bs]. *)
Definition wordnesc_spec (L : locale) (fuel : nat) (flags : Z)
  (bs : list byte) (pl : Z) : list byte :=
  let len := zlen bs in
  let body :=
    if pl <? len then
      [c_dollar; c_squote] ++ dollar_spec L fuel flags bs ++ [c_squote]
    else if negb (shell flags) || (zlen (span_free bare_reject bs) =? len)
    then bs
    else if zlen (span_free quotable_reject bs) =? len
    then [c_dquote] ++ bs ++ [c_dquote]
    else single_quote_spec bs false in
  match body with
  | [] => [c_dquote; c_dquote]
  | _ => body
  end.

(** ** The claims as definitions *)

(** The four strategies and the choice among them, in the order of the
    selection: [pl], [bl] and [ql] are the results of the three scans. *)
Inductive strategy : Set := Bare | DoubleQuoted | SingleQuoted | DollarQuoted.

Definition select_strategy (sh : bool) (len pl bl ql : Z) : strategy :=
  if pl <? len then DollarQuoted
  else if negb sh || (bl =? len) then Bare
  else if ql =? len then DoubleQuoted
  else SingleQuoted.

(** The emitter of a strategy. *)
Definition run_emitter (L : locale) (fuel : nat) (st : strategy)
  (dest end_ : Z) (str : list byte) (len : Z) (flags : Z) : M Z :=
  match st with
  | Bare => xstpencpy dest end_ str len
  | DoubleQuoted => double_quote dest end_ str len
  | SingleQuoted => single_quote fuel dest end_ str len
  | DollarQuoted => dollar_quote L fuel dest end_ str len flags
  end.

(** Round trip of one call: whenever the call returns without having
    filled the buffer, a shell reads the text between [dest] and the
    returned cursor back as the input bytes. *)
Definition round_trips (L : locale) (fuel : nat) (buf : list byte)
  (dest end_ : Z) (str : list byte) (n flags : Z) : Prop :=
  forall len r buf',
    strnlen str n = Ok len ->
    wordnesc L fuel dest end_ str n flags buf = WOk r buf' ->
    r < end_ ->
    sh_word (bytes_between buf' dest r) = Some (ztake len str).

(** The return value read as a count: the distance from [dest] to the
    returned cursor is the length of the whole text, whatever the
    capacity. *)
Definition returns_count (L : locale) (fuel : nat) (buf : list byte)
  (dest end_ : Z) (str : list byte) (n flags : Z) : Prop :=
  forall r buf' txt,
    wordnesc L fuel dest end_ str n flags buf = WOk r buf' ->
    wordnesc_text L fuel str n flags = Ok txt ->
    r - dest = zlen txt.

(** The reject set of [bare_len] as the specification lists it:
    | & ; < > ( ) $ ` \\ (double quote) ' (space) * ? [ # ~ = % ! *)
Definition bare_reject_spec : list byte :=
  [x7c; x26; x3b; x3c; x3e; x28; x29; x24; x60; x5c; x22; x27; x20;
   x2a; x3f; x5b; x23; x7e; x3d; x25; x21; NUL].

(** An input buffer of [cap] bytes for the examples. *)
Definition fresh (cap : nat) : list byte := replicate cap xff.

(** What a call that started with the buffer [b] and returned the cursor
    [r] and the buffer [b'] must satisfy for the region from [dest] to
    [end_]: the cursor is inside, no byte outside the region has changed,
    and a terminator stands inside the region. *)
Definition region_safe (dest end_ : Z) (b : list byte) (r : Z)
  (b' : list byte) : Prop :=
  dest <= r <= end_ /\
  length b' = length b /\
  (forall a, a < dest \/ end_ <= a -> load b' a = load b a) /\
  exists k, dest <= k < end_ /\ load b' k = Some NUL.

(** * The other functions of [src/bfstd.c] *)

(** ** Paths: [xbaseoff], [xbasename] and [xdirname] *)

Definition c_slash : byte := x2f.   (* / *)
Definition c_dot : byte := x2e.     (* . *)

(** [strlen(s)]: the index of the first NUL. *)
Fixpoint strlen (s : list byte) : res Z :=
  match s with
  | [] => Err ReadOOB
  | c :: t =>
      if Byte.eqb c NUL then Ok 0
      else let* r := strlen t in Ok (1 + r)
  end.

(** [strndup(s, n)] and [strdup(s)].  The result is the new object, the
    copy and its terminator, or [None] for the NULL pointer; [ok] tells
    whether the allocation succeeds. *)
Definition strndup (ok : bool) (s : list byte) (n : Z)
  : res (option (list byte)) :=
  let* m := strnlen s n in
  Ok (if ok then Some (ztake m s ++ [NUL]) else None).

Definition strdup (ok : bool) (s : list byte) : res (option (list byte)) :=
  let* m := strlen s in
  Ok (if ok then Some (ztake m s ++ [NUL]) else None).

(** [while (i > 0 && path[i - 1] == '/') --i], bfstd.c lines 42-44 and
    71-73; the loop counts [i] down. *)
Fixpoint skip_trailing_slashes (path : list byte) (i : nat) : res nat :=
  match i with
  | O => Ok O
  | S i' =>
      let* c := rload path (Z.of_nat i') in
      if Byte.eqb c c_slash then skip_trailing_slashes path i' else Ok i
  end.

(** [while (i > 0 && path[i - 1] != '/') --i], bfstd.c lines 76-78. *)
Fixpoint find_name_start (path : list byte) (i : nat) : res nat :=
  match i with
  | O => Ok O
  | S i' =>
      let* c := rload path (Z.of_nat i') in
      if negb (Byte.eqb c c_slash) then find_name_start path i' else Ok i
  end.

(** [while (path[i] == '/' && path[i + 1]) ++i], bfstd.c lines 81-83; [p]
    is [path + i], and the loop walks the object forward. *)
Fixpoint skip_leading_slashes (p : list byte) (i : Z) : res Z :=
  match p with
  | [] => Err ReadOOB
  | c :: t =>
      if Byte.eqb c c_slash then
        match t with
        | [] => Err ReadOOB
        | c' :: _ =>
            if negb (Byte.eqb c' NUL)
            then skip_leading_slashes t (wrap (i + 1))
            else Ok i
        end
      else Ok i
  end.

(** [xbaseoff], bfstd.c lines 67-86. *)
Definition xbaseoff (path : list byte) : res Z :=
  let* i := strlen path in
  let* i := skip_trailing_slashes path (Z.to_nat i) in
  let* i := find_name_start path i in
  skip_leading_slashes (zdrop (Z.of_nat i) path) (Z.of_nat i).

(** [xdirname], bfstd.c lines 38-53. *)
Definition xdirname (ok : bool) (path : list byte)
  : res (option (list byte)) :=
  let* i := xbaseoff path in
  let* i := skip_trailing_slashes path (Z.to_nat i) in
  let i := Z.of_nat i in
  if 0 <? i then strndup ok path i
  else
    let* c := rload path i in
    if Byte.eqb c c_slash then strdup ok (lit "/")
    else strdup ok (lit ".").

(** [xbasename], bfstd.c lines 55-65. *)
Definition xbasename (ok : bool) (path : list byte)
  : res (option (list byte)) :=
  let* i := xbaseoff path in
  let* len := strcspn (zdrop i path) (lit "/") in
  if 0 <? len then strndup ok (zdrop i path) len
  else
    let* c := rload path i in
    if Byte.eqb c c_slash then strdup ok (lit "/")
    else strdup ok (lit ".").

(** A C string: the bytes [bs], none of them NUL, and the terminator. *)
Definition cstr (bs : list byte) : list byte := bs ++ [NUL].

(** [k] slashes. *)
Definition slashes (k : nat) : list byte := replicate k c_slash.

(** The directory part of a path whose last component is preceded by the
    bytes [d] and then [j] slashes, where [d] does not end in a slash: [d]
    itself, or the root when only slashes precede the component, or the
    current directory when nothing does. *)
Definition dir_of (d : list byte) (j : nat) : list byte :=
  match d, j with
  | [], O => [c_dot]
  | [], S _ => [c_slash]
  | _, _ => d
  end.

(** The three shapes of a path: empty, slashes only, or a last component
    [name] after the bytes [d] (not ending in a slash) and [j] slashes, and
    before [k] slashes. *)
Inductive path_shape (bs : list byte) : Prop :=
  | PathEmpty : bs = [] -> path_shape bs
  | PathSlashes k : bs = slashes (S k) -> path_shape bs
  | PathName d j name k :
      bs = d ++ slashes j ++ name ++ slashes k ->
      last d <> Some c_slash -> d = [] \/ (0 < j)%nat ->
      name <> [] -> Forall (fun c => c <> c_slash) name ->
      path_shape bs.


(** What [strdup] returns for the string [bs]: a new C string, or NULL when
    the allocation fails. *)
Definition dup_of (ok : bool) (bs : list byte) : option (list byte) :=
  if ok then Some (cstr bs) else None.

(** ** File modes: [type_char] and [xstrmode] *)

(** An octal constant, digit by digit as the source writes it. *)
Definition oct (digits : list Z) : Z :=
  fold_left (fun a d => 8 * a + d) digits 0.

(** The file type constants of [<sys/stat.h>]; their values belong to the
    platform. *)
Record file_types : Type := FileTypes {
  S_IFMT : Z;
  S_IFREG : Z;
  S_IFBLK : Z;
  S_IFCHR : Z;
  S_IFDIR : Z;
  S_IFLNK : Z;
  S_IFIFO : Z;
  S_IFSOCK : Z
}.

(** The values of Linux. *)
Definition linux_types : file_types :=
  FileTypes (oct [1; 7; 0; 0; 0; 0]) (oct [1; 0; 0; 0; 0; 0])
    (oct [0; 6; 0; 0; 0; 0]) (oct [0; 2; 0; 0; 0; 0])
    (oct [0; 4; 0; 0; 0; 0]) (oct [1; 2; 0; 0; 0; 0])
    (oct [0; 1; 0; 0; 0; 0]) (oct [1; 4; 0; 0; 0; 0]).

(** [type_char], bfstd.c lines 218-249, on a platform without [S_IFDOOR],
    [S_IFPORT] and [S_IFWHT]. *)
Definition type_char (T : file_types) (mode : Z) : byte :=
  let t := Z.land mode (S_IFMT T) in
  if t =? S_IFREG T then x2d          (* - *)
  else if t =? S_IFBLK T then x62     (* b *)
  else if t =? S_IFCHR T then x63     (* c *)
  else if t =? S_IFDIR T then x64     (* d *)
  else if t =? S_IFLNK T then x6c     (* l *)
  else if t =? S_IFIFO T then x70     (* p *)
  else if t =? S_IFSOCK T then x73    (* s *)
  else x3f.                           (* ? *)

(** [mode & mask] as a truth value. *)
Definition has_bits (mode mask : Z) : bool := negb (Z.land mode mask =? 0).

(** [strcpy(buf + dest, src)]. *)
Definition strcpy (dest : Z) (src : list byte) : M unit :=
  n <- lift (strlen src) ;;
  memcpy dest src (n + 1).

(** [xstrmode], bfstd.c lines 277-323; [str] is the offset of the array in
    the buffer. *)
Definition xstrmode (T : file_types) (mode : Z) (str : Z) : M unit :=
  strcpy str (lit "----------") ;;;
  store (str + 0) (type_char T mode) ;;;
  (if has_bits mode (oct [0; 0; 4; 0; 0]) then store (str + 1) x72
   else ret tt) ;;;
  (if has_bits mode (oct [0; 0; 2; 0; 0]) then store (str + 2) x77
   else ret tt) ;;;
  (if Z.land mode (oct [0; 4; 1; 0; 0]) =? oct [0; 4; 0; 0; 0]
   then store (str + 3) x53
   else if has_bits mode (oct [0; 4; 0; 0; 0]) then store (str + 3) x73
   else if has_bits mode (oct [0; 0; 1; 0; 0]) then store (str + 3) x78
   else ret tt) ;;;
  (if has_bits mode (oct [0; 0; 0; 4; 0]) then store (str + 4) x72
   else ret tt) ;;;
  (if has_bits mode (oct [0; 0; 0; 2; 0]) then store (str + 5) x77
   else ret tt) ;;;
  (if Z.land mode (oct [0; 2; 0; 1; 0]) =? oct [0; 2; 0; 0; 0]
   then store (str + 6) x53
   else if has_bits mode (oct [0; 2; 0; 0; 0]) then store (str + 6) x73
   else if has_bits mode (oct [0; 0; 0; 1; 0]) then store (str + 6) x78
   else ret tt) ;;;
  (if has_bits mode (oct [0; 0; 0; 0; 4]) then store (str + 7) x72
   else ret tt) ;;;
  (if has_bits mode (oct [0; 0; 0; 0; 2]) then store (str + 8) x77
   else ret tt) ;;;
  (if Z.land mode (oct [0; 1; 0; 0; 1]) =? oct [0; 1; 0; 0; 0]
   then store (str + 9) x54
   else if has_bits mode (oct [0; 1; 0; 0; 0]) then store (str + 9) x74
   else if has_bits mode (oct [0; 0; 0; 0; 1]) then store (str + 9) x78
   else ret tt).

(** The ten characters of a mode as [ls -l] shows it: the type, then for
    the owner, the group and the others a read, a write and an execute
    column, where the execute column also shows the set-user-ID, the
    set-group-ID and the sticky bit. *)
Definition exec_column (mode special exec : Z) (lower upper : byte) : byte :=
  if has_bits mode special
  then (if has_bits mode exec then lower else upper)
  else (if has_bits mode exec then x78 else x2d).

Definition perm_text (mode : Z) : list byte :=
  [if has_bits mode (oct [4; 0; 0]) then x72 else x2d;
   if has_bits mode (oct [2; 0; 0]) then x77 else x2d;
   exec_column mode (oct [4; 0; 0; 0]) (oct [1; 0; 0]) x73 x53;
   if has_bits mode (oct [4; 0]) then x72 else x2d;
   if has_bits mode (oct [2; 0]) then x77 else x2d;
   exec_column mode (oct [2; 0; 0; 0]) (oct [1; 0]) x73 x53;
   if has_bits mode (oct [4]) then x72 else x2d;
   if has_bits mode (oct [2]) then x77 else x2d;
   exec_column mode (oct [1; 0; 0; 0]) (oct [1]) x74 x54].

Definition strmode_text (T : file_types) (mode : Z) : list byte :=
  type_char T mode :: perm_text mode.

(** Reading the nine permission columns back as the twelve mode bits. *)
Definition column_bits (c : byte) (plain special : Z) (lower upper : byte)
  : Z :=
  if Byte.eqb c x2d then 0
  else if Byte.eqb c lower then special + plain
  else if Byte.eqb c upper then special
  else plain.

Definition perm_bits (txt : list byte) : Z :=
  match txt with
  | [r1; w1; x1; r2; w2; x2; r3; w3; x3] =>
      column_bits r1 (oct [4; 0; 0]) 0 x2d x2d
      + column_bits w1 (oct [2; 0; 0]) 0 x2d x2d
      + column_bits x1 (oct [1; 0; 0]) (oct [4; 0; 0; 0]) x73 x53
      + column_bits r2 (oct [4; 0]) 0 x2d x2d
      + column_bits w2 (oct [2; 0]) 0 x2d x2d
      + column_bits x2 (oct [1; 0]) (oct [2; 0; 0; 0]) x73 x53
      + column_bits r3 (oct [4]) 0 x2d x2d
      + column_bits w3 (oct [2]) 0 x2d x2d
      + column_bits x3 (oct [1]) (oct [1; 0; 0; 0]) x74 x54
  | _ => 0
  end.

(** ** Reading and writing a descriptor: [xread] and [xwrite]

    [read] and [write] belong to the kernel.  A descriptor is modelled by
    the bytes it still holds (or has received) and by a script: the list of
    what each of the coming calls will do.  A loop over system calls
    consumes one event of the script per call, and the fault [NoFuel] stands
    for a script that ends before the loop does. *)

Definition EINTR : Z := 4.

Inductive io_event : Set :=
  | Failed (e : Z)      (* the call returns -1 and sets errno to e *)
  | Transfer (k : N).   (* the call transfers at most k bytes *)

(** [read(fd, p, n)] when [unread] are the bytes left in the file: the
    value returned, the bytes stored at [p], [errno] and the bytes left. *)
Definition sys_read (ev : io_event) (unread : list byte) (n : Z) (errno : Z)
  : Z * list byte * Z * list byte :=
  match ev with
  | Failed e => (-1, [], e, unread)
  | Transfer k =>
      let data := ztake (Z.min (Z.of_N k) n) unread in
      (zlen data, data, errno, zdrop (zlen data) unread)
  end.

(** [xread], bfstd.c lines 385-406.  The result is the count returned, the
    value of [errno], the bytes left in the file and the rest of the
    script; [buf] is the offset of the destination in the buffer. *)
Fixpoint xread_loop (script : list io_event) (unread : list byte)
  (errno : Z) (buf nbytes count : Z)
  : M (Z * Z * list byte * list io_event) :=
  if count <? nbytes then
    match script with
    | [] => fail NoFuel
    | ev :: script' =>
        let '(r, data, errno, unread) :=
          sys_read ev unread (wrap (nbytes - count)) errno in
        memcpy (buf + count) data r ;;;
        if r <? 0 then
          if errno =? EINTR
          then xread_loop script' unread errno buf nbytes count
          else ret (count, errno, unread, script')
        else if r =? 0 then
          ret (count, 0, unread, script')
        else
          xread_loop script' unread errno buf nbytes (wrap (count + r))
    end
  else ret (count, errno, unread, script).

Definition xread (script : list io_event) (unread : list byte) (errno : Z)
  (buf nbytes : Z) : M (Z * Z * list byte * list io_event) :=
  xread_loop script unread errno buf nbytes 0.

(** [write(fd, p, n)] when [src] are the bytes readable at [p] and [out]
    the bytes the file has received: the value returned, [errno] and the
    bytes received. *)
Definition sys_write (ev : io_event) (src : list byte) (n : Z) (errno : Z)
  (out : list byte) : res (Z * Z * list byte) :=
  match ev with
  | Failed e => Ok (-1, e, out)
  | Transfer k =>
      let m := Z.min (Z.of_N k) n in
      if zlen src <? m then Err ReadOOB
      else Ok (m, errno, out ++ ztake m src)
  end.

(** [xwrite], bfstd.c lines 408-429; [buf] is the source object. *)
Fixpoint xwrite_loop (script : list io_event) (out : list byte) (errno : Z)
  (buf : list byte) (nbytes count : Z)
  : res (Z * Z * list byte * list io_event) :=
  if count <? nbytes then
    match script with
    | [] => Err NoFuel
    | ev :: script' =>
        let* (r, errno, out) :=
          sys_write ev (zdrop count buf) (wrap (nbytes - count)) errno out in
        if r <? 0 then
          if errno =? EINTR
          then xwrite_loop script' out errno buf nbytes count
          else Ok (count, errno, out, script')
        else if r =? 0 then
          Ok (count, 0, out, script')
        else
          xwrite_loop script' out errno buf nbytes (wrap (count + r))
    end
  else Ok (count, errno, out, script).

Definition xwrite (script : list io_event) (out : list byte) (errno : Z)
  (buf : list byte) (nbytes : Z) : res (Z * Z * list byte * list io_event) :=
  xwrite_loop script out errno buf nbytes 0.

(** A kernel that only interrupts and makes progress: every failure is
    [EINTR] and every transfer moves at least one byte when it can. *)
Definition benign (ev : io_event) : Prop :=
  match ev with
  | Failed e => e = EINTR
  | Transfer k => 0 < Z.of_N k
  end.

(** The number of transfers in a script. *)
Fixpoint transfers (script : list io_event) : nat :=
  match script with
  | [] => O
  | Failed _ :: s => transfers s
  | Transfer _ :: s => S (transfers s)
  end.

(** The buffer [b0] after the first [c] bytes of [u] were stored at the
    offset [buf]. *)
Definition filled (b0 u : list byte) (buf c : Z) : list byte :=
  ztake buf b0 ++ ztake c u ++ zdrop (buf + c) b0.

(** ** Reading a chunk of a stream: [xgetdelim]

    [getdelim] belongs to the C library.  A stream is modelled by the
    bytes that are still to be read and by the error, if any, that reading
    meets once they are consumed. *)

Record stream : Type := Stream {
  pending : list byte;
  failure : option Z
}.

(** The bytes up to and including the first [delim], and the rest. *)
Fixpoint chunk_of (delim : byte) (l : list byte) : list byte * list byte :=
  match l with
  | [] => ([], [])
  | c :: t =>
      if Byte.eqb c delim then ([c], t)
      else let '(a, b) := chunk_of delim t in (c :: a, b)
  end.

(** [getdelim(&chunk, &n, delim, file)] with [chunk] NULL and [n] 0: the
    value returned, the object [chunk] points to afterwards (the bytes
    read and a terminator), the stream, [ferror(file)] and [errno]. *)
Definition getdelim (delim : byte) (st : stream) (errno : Z)
  : Z * list byte * stream * bool * Z :=
  match pending st with
  | [] =>
      match failure st with
      | Some e => (-1, [], st, true, e)
      | None => (-1, [], st, false, errno)
      end
  | _ =>
      let '(a, b) := chunk_of delim (pending st) in
      (zlen a, a ++ [NUL], Stream b (failure st), false, errno)
  end.

(** [xgetdelim], bfstd.c lines 131-147: the pointer returned ([None] is
    NULL), the stream and [errno]. *)
Definition xgetdelim (delim : byte) (st : stream) (errno : Z)
  : res (option (list byte) * stream * Z) :=
  let '(len, chunk, st, err, errno) := getdelim delim st errno in
  if 0 <=? len then
    let* c := rload chunk len in
    let chunk := if Byte.eqb c delim then <[Z.to_nat len := NUL]> chunk
                 else chunk in
    Ok (Some chunk, st, errno)
  else
    Ok (None, st, if negb err then 0 else errno).

(** ** The width of a string: [xstrwidth] *)

Section Width.

Variable L : locale.

(** [wcwidth] of the C library; its result is an [int]. *)
Variable wcwidth : Z -> Z.

(** The loop of [xstrwidth], bfstd.c lines 570-578. *)
Fixpoint xstrwidth_loop (fuel : nat) (str : list byte) (len : Z) (i : Z)
  (mb : mbstate L) (ret : Z) : res Z :=
  if i <? len then
    match fuel with
    | O => Err NoFuel
    | S fuel' =>
        let* (r, wc, i, mb) := xmbrtowc L i str len mb in
        match wc with
        | Some wc =>
            if r =? 0
            then xstrwidth_loop fuel' str len i mb (wrap (ret + wcwidth wc))
            else xstrwidth_loop fuel' str len i mb (wrap (ret + 1))
        | None => xstrwidth_loop fuel' str len i mb (wrap (ret + 1))
        end
    end
  else Ok ret.

(** [xstrwidth], bfstd.c lines 563-581. *)
Definition xstrwidth (fuel : nat) (str : list byte) : res Z :=
  let* len := strlen str in
  xstrwidth_loop fuel str len 0 (mb_zero L) 0.

(** The sum of the widths of the characters of [bs], where a byte that
    starts no character and an incomplete character at the end count as
    one column. *)
Fixpoint width_sum (fuel : nat) (bs : list byte) : Z :=
  match fuel with
  | O => 0
  | S fuel' =>
      match bs with
      | [] => 0
      | _ =>
          let '(wc, _, rest) := decode_one L bs in
          match wc with
          | Some wc => wcwidth wc
          | None => 1
          end + width_sum fuel' rest
      end
  end.

End Width.

(** ** Device numbers: [xmakedev], [xmajor] and [xminor]

    The functions as they are compiled where [<sys/types.h>] defines none
    of the macros [makedev], [major] and [minor] (bfstd.c lines 329, 337
    and 345).  The arguments are [int]s; a shift that C leaves undefined
    (a negative operand, or a result above [INT_MAX]) gives [None].  A
    device number is taken as the integer it denotes. *)

Definition INT_MAX : Z := 2 ^ 31 - 1.

Definition xmakedev (ma mi : Z) : option Z :=
  if (0 <=? ma) && (ma * 2 ^ 8 <=? INT_MAX)
  then Some (Z.lor (Z.shiftl ma 8) mi)
  else None.

Definition xmajor (dev : Z) : Z := Z.shiftr dev 8.

Definition xminor (dev : Z) : Z := Z.land dev 255.

(** ** The limits of the integer types, [tests/bit.c] lines 18-20

    [uintmax_t] has 64 bits, so its arithmetic is modulo 2^64; a shift by
    an amount outside 0..63 is undefined and gives [None]. *)

(** [UWIDTH_MAX(n)]: [2 * ((UINTMAX_C(1) << (n - 1)) - 1) + 1]. *)
Definition UWIDTH_MAX (n : Z) : option Z :=
  if (0 <=? n - 1) && (n - 1 <? 64)
  then Some (wrap (wrap (2 * wrap (wrap (Z.shiftl 1 (n - 1)) - 1)) + 1))
  else None.

(** [IWIDTH_MAX(n)]: [UWIDTH_MAX(n - 1)]. *)
Definition IWIDTH_MAX (n : Z) : option Z := UWIDTH_MAX (n - 1).

(** [IWIDTH_MIN(n)]: [-(intmax_t)IWIDTH_MAX(n) - 1]; the conversion to
    [intmax_t] keeps a value below 2^63. *)
Definition IWIDTH_MIN (n : Z) : option Z :=
  match IWIDTH_MAX n with
  | Some m => if m <? 2 ^ 63 then Some (- m - 1) else None
  | None => None
  end.

(** ** Reading a link: [xreadlinkat]

    [readlinkat] and [realloc] belong to the system.  The link is given by
    its target, or by nothing when [readlinkat] fails; [realloc] succeeds
    for the sizes that [can_alloc] accepts, keeps the bytes of the old
    object and leaves the byte [junk] where nothing was written.  The code
    is a computation on the object [name]: the state of [M] is that
    object, empty while [name] is NULL. *)

Section Readlink.

Variable link : option (list byte).
Variable can_alloc : Z -> bool.
Variable junk : byte.

(** [realloc(name, size)]: whether it succeeds. *)
Definition realloc (size : Z) : M bool :=
  fun name =>
    if can_alloc size
    then WOk true (ztake size (name ++ replicate (Z.to_nat size) junk))
    else WOk false name.

(** [readlinkat(fd, path, name, size)]: the value returned; at most [size]
    bytes of the target are stored, without a terminator. *)
Definition readlinkat (size : Z) : M Z :=
  fun name =>
    match link with
    | None => WOk (-1) name
    | Some t =>
        let k := Z.min (zlen t) size in
        (memcpy 0 t k ;;; ret k) name
    end.

(** [free(name)]. *)
Definition free : M unit := fun _ => WOk tt [].

(** The loop of [xreadlinkat], bfstd.c lines 493-508, and what follows it;
    the result tells whether a string is returned ([false] is NULL). *)
Fixpoint xreadlinkat_loop (fuel : nat) (size : Z) : M bool :=
  match fuel with
  | O => fail NoFuel
  | S fuel' =>
      new_name <- realloc size ;;
      if negb new_name then free ;;; ret false
      else
        len <- readlinkat size ;;
        if len <? 0 then free ;;; ret false
        else if size <=? len then xreadlinkat_loop fuel' (wrap (size * 2))
        else store len NUL ;;; ret true
  end.

(** [xreadlinkat], bfstd.c lines 483-516. *)
Definition xreadlinkat (fuel : nat) (size : Z) : wres bool :=
  let size := if size =? 0 then 64 else wrap (size + 1) in
  xreadlinkat_loop fuel size [].

End Readlink.
(** * Properties

    ** Lists indexed by [Z], and [strnlen] *)

Lemma zlen_nonneg {A} (l : list A) : 0 <= zlen l.
Proof. unfold zlen. lia. Qed.

Lemma zlen_app {A} (l k : list A) : zlen (l ++ k) = zlen l + zlen k.
Proof. unfold zlen. rewrite length_app. lia. Qed.

Lemma zlen_cons {A} (x : A) (l : list A) : zlen (x :: l) = 1 + zlen l.
Proof. unfold zlen. simpl. lia. Qed.

Lemma zlen_ztake {A} (n : Z) (l : list A) :
  0 <= n <= zlen l -> zlen (ztake n l) = n.
Proof. unfold zlen, ztake. rewrite length_take. lia. Qed.

Lemma ztake_cons {A} (n : Z) (x : A) (l : list A) :
  0 < n -> ztake n (x :: l) = x :: ztake (n - 1) l.
Proof.
  intros Hn. unfold ztake.
  replace (Z.to_nat n) with (S (Z.to_nat (n - 1))) by lia. done.
Qed.

Lemma byte_eqb_eq (a b : byte) : Byte.eqb a b = true <-> a = b.
Proof. split; [apply Byte.byte_dec_bl | apply Byte.byte_dec_lb]. Qed.

Lemma byte_eqb_neq (a b : byte) : Byte.eqb a b = false <-> a <> b.
Proof.
  split.
  - apply Byte.eqb_false.
  - intros Hne. destruct (Byte.eqb a b) eqn:E; [|done].
    apply byte_eqb_eq in E. done.
Qed.

Lemma strnlen_range src n m :
  strnlen src n = Ok m -> 0 <= m /\ m <= zlen src /\ m <= Z.max 0 n.
Proof.
  revert n m. induction src as [|c t IH]; intros n m; simpl.
  - destruct (n <=? 0) eqn:E; [|done]. intros [= <-]. unfold zlen; simpl; lia.
  - destruct (n <=? 0) eqn:E.
    { intros [= <-]. rewrite zlen_cons. pose proof (zlen_nonneg t). lia. }
    destruct (Byte.eqb c NUL).
    { intros [= <-]. rewrite zlen_cons. pose proof (zlen_nonneg t). lia. }
    destruct (strnlen t (n - 1)) as [r|] eqn:Er; simpl; [|done].
    intros [= <-]. apply IH in Er. rewrite zlen_cons. lia.
Qed.

Lemma strnlen_min src n m k :
  strnlen src n = Ok m -> 0 <= k ->
  strnlen src (if k <? n then k else n) = Ok (if k <? m then k else m).
Proof.
  revert n m k. induction src as [|c t IH]; intros n m k; simpl.
  - destruct (n <=? 0) eqn:E; [|done]. intros [= <-] Hk.
    replace (k <? 0) with false by lia.
    destruct (k <? n) eqn:E'; [|by rewrite E].
    replace (k <=? 0) with true by lia. done.
  - destruct (n <=? 0) eqn:E.
    { intros [= <-] Hk. replace (k <? 0) with false by lia.
      destruct (k <? n) eqn:E'; [|by rewrite E].
      replace (k <=? 0) with true by lia. done. }
    destruct (Byte.eqb c NUL) eqn:Ec.
    { intros [= <-] Hk. replace (k <? 0) with false by lia.
      destruct (k <? n) eqn:E'; [|by rewrite E].
      destruct (k <=? 0); done. }
    destruct (strnlen t (n - 1)) as [r|] eqn:Er; simpl; [|done].
    intros [= <-] Hk.
    pose proof (strnlen_range _ _ _ Er) as Hr.
    destruct (k <? n) eqn:E'.
    + destruct (k <=? 0) eqn:E''.
      { replace (k <? 1 + r) with true by lia. f_equal. lia. }
      specialize (IH _ _ (k - 1) Er ltac:(lia)).
      replace (k - 1 <? n - 1) with true in IH by lia.
      rewrite IH. simpl. f_equal.
      destruct (k - 1 <? r) eqn:?, (k <? 1 + r) eqn:?; lia.
    + rewrite E, Er. simpl. f_equal.
      destruct (k <? 1 + r) eqn:?; lia.
Qed.

Lemma strnlen_no_nul src n m :
  strnlen src n = Ok m -> Forall (fun c => c <> NUL) (ztake m src).
Proof.
  revert n m. induction src as [|c t IH]; intros n m; simpl.
  - intros _. unfold ztake. rewrite take_nil. constructor.
  - destruct (n <=? 0) eqn:E.
    { intros [= <-]. constructor. }
    destruct (Byte.eqb c NUL) eqn:Ec.
    { intros [= <-]. constructor. }
    destruct (strnlen t (n - 1)) as [r|] eqn:Er; simpl; [|done].
    intros [= <-]. pose proof (strnlen_range _ _ _ Er).
    rewrite ztake_cons by lia. constructor.
    + by apply byte_eqb_neq.
    + replace (1 + r - 1) with r by lia. eauto.
Qed.

(** ** The bounded writer keeps its buffer terminated and in bounds *)

Lemma wrap_small z : 0 <= z < 2 ^ 64 -> wrap z = z.
Proof. intros. unfold wrap. by apply Z.mod_small. Qed.

Lemma region_memcpy (A R C X : list byte) (o : nat) :
  (o + length X <= length R)%nat ->
  take (length A + o) (A ++ R ++ C) ++ X
    ++ drop (length A + o + length X) (A ++ R ++ C)
  = A ++ (take o R ++ X ++ drop (o + length X) R) ++ C.
Proof.
  intros Hle.
  rewrite take_app_ge, drop_app_ge by lia.
  replace (length A + o - length A)%nat with o by lia.
  replace (length A + o + length X - length A)%nat
    with (o + length X)%nat by lia.
  rewrite take_app_le, drop_app_le by lia.
  by rewrite <- !app_assoc.
Qed.

Lemma region_insert (A R C : list byte) (k : nat) (v : byte) :
  (k < length R)%nat ->
  <[(length A + k)%nat := v]> (A ++ R ++ C) = A ++ <[k := v]> R ++ C.
Proof.
  intros Hk. rewrite insert_app_r. f_equal. by rewrite insert_app_l.
Qed.

Lemma insert_last_take (l : list byte) (c : nat) (v : byte) :
  length l = S c -> <[c := v]> l = take c l ++ [v].
Proof.
  intros Hl. rewrite <- (take_drop c l) at 1.
  rewrite insert_app_r_alt by (rewrite length_take; lia).
  rewrite length_take. replace (c - c `min` length l)%nat with 0%nat by lia.
  destruct (drop c l) as [|x [|y t]] eqn:E.
  - apply (f_equal length) in E. rewrite length_drop in E. simpl in E. lia.
  - done.
  - apply (f_equal length) in E. rewrite length_drop in E. simpl in E. lia.
Qed.

Lemma written_init b0 s e :
  0 <= s < e -> e <= zlen b0 -> zlen b0 <= PTRDIFF_MAX ->
  written b0 s e [] s b0.
Proof.
  intros Hs He Hb. split; [done|].
  exists (ztake (e - s) (zdrop s b0)). split; [|split].
  - unfold ztake, zdrop.
    rewrite <- (take_drop (Z.to_nat s) b0) at 1. f_equal.
    rewrite <- (take_drop (Z.to_nat (e - s)) (drop (Z.to_nat s) b0)) at 1.
    f_equal. rewrite drop_drop. f_equal. lia.
  - unfold zlen, ztake, zdrop in *. rewrite length_take, length_drop. lia.
  - change (zlen (@nil byte)) with 0.
    replace (0 <? e - s) with true by lia.
    split; [lia|]. split; [done|]. done.
Qed.

Lemma xstpencpy_written b0 s e out d buf src n m :
  written b0 s e out d buf ->
  strnlen src n = Ok m ->
  exists d' buf',
    xstpencpy d e src n buf = WOk d' buf' /\
    written b0 s e (out ++ ztake m src) d' buf'.
Proof.
  intros [Hb (R & Hbuf & HR & Hst)] Hm.
  pose proof (strnlen_range _ _ _ Hm) as Hmr.
  unfold PTRDIFF_MAX in Hb.
  enough (exists d' buf' R',
    xstpencpy d e src n buf = WOk d' buf' /\
    buf' = ztake s b0 ++ R' ++ zdrop e b0 /\
    zlen R' = e - s /\
    if zlen (out ++ ztake m src) <? e - s
    then d' = s + zlen (out ++ ztake m src) /\
         ztake (zlen (out ++ ztake m src)) R' = out ++ ztake m src /\
         (out ++ ztake m src <> [] ->
          R' !! length (out ++ ztake m src) = Some NUL)
    else d' = e /\ R' = ztake (e - s - 1) (out ++ ztake m src) ++ [NUL]) as H.
  { destruct H as (d' & buf' & R' & ? & ? & ? & ?). exists d', buf'.
    split; [done|]. split; [done|]. by exists R'. }
  unfold ztake, zdrop in *.
  set (A := take (Z.to_nat s) b0) in *.
  set (C := drop (Z.to_nat e) b0) in *.
  assert (HA : length A = Z.to_nat s).
  { subst A. unfold zlen in *. rewrite length_take. lia. }
  assert (HlenR : length R = Z.to_nat (e - s)) by (unfold zlen in HR; lia).
  assert (Hlb : zlen buf = zlen b0).
  { rewrite Hbuf. rewrite !zlen_app. subst A C. unfold zlen in *.
    rewrite length_take, length_drop. lia. }
  assert (Ho : 0 <= zlen out) by apply zlen_nonneg.
  assert (Hchunk : zlen (take (Z.to_nat m) src) = m).
  { unfold zlen in *. rewrite length_take. lia. }
  rewrite zlen_app, Hchunk.
  destruct (zlen out <? e - s) eqn:Hfit.
  - destruct Hst as (-> & Hout & Hnul).
    unfold zlen in Hout. rewrite Nat2Z.id in Hout.
    unfold xstpencpy.
    rewrite wrap_small by lia.
    set (space := e - (s + zlen out)).
    pose proof (strnlen_min _ _ _ space Hm ltac:(lia)) as Hm'.
    unfold bind at 1. unfold lift. rewrite Hm'.
    set (m' := if space <? m then space else m).
    assert (Hm'r : 0 <= m' <= space /\ m' <= m)
      by (subst m'; destruct (space <? m) eqn:?; lia).
    set (X := take (Z.to_nat m') src).
    assert (HX : length X = Z.to_nat m').
    { subst X. unfold zlen in *. rewrite length_take. lia. }
    set (R1 := take (length out) R ++ X ++ drop (length out + length X) R).
    assert (Hcpy : memcpy (s + zlen out) src m' buf = WOk tt (A ++ R1 ++ C)).
    { unfold memcpy. destruct (m' <=? 0) eqn:E0.
      - assert (m' = 0) by lia. subst R1. assert (X = []) as ->.
        { subst X. replace (Z.to_nat m') with 0%nat by lia. done. }
        simpl. rewrite Nat.add_0_r, take_drop. by rewrite Hbuf.
      - replace (zlen src <? m') with false by lia.
        replace ((0 <=? s + zlen out) && (s + zlen out + m' <=? zlen buf))
          with true by lia.
        f_equal. rewrite Hbuf. unfold ztake, zdrop. fold X.
        replace (Z.to_nat (s + zlen out))
          with (length A + length out)%nat by (unfold zlen; lia).
        replace (Z.to_nat (s + zlen out + m'))
          with (length A + length out + length X)%nat
          by (unfold zlen; lia).
        apply region_memcpy. unfold zlen in *. lia. }
    unfold bind at 1. rewrite Hcpy.
    assert (HR1 : length R1 = length R).
    { subst R1. rewrite !length_app, length_take, length_drop.
      unfold zlen in *. lia. }
    destruct (m' <? space) eqn:Hlt.
    + assert (m' = m) by (subst m'; destruct (space <? m) eqn:?; lia).
      assert (HXm : X = take (Z.to_nat m) src) by (subst X; congruence).
      exists (s + zlen out + m'), (A ++ <[(length out + length X)%nat := NUL]> R1 ++ C),
        (<[(length out + length X)%nat := NUL]> R1).
      split.
      * unfold bind, store, ret.
        rewrite !zlen_app.
        replace ((0 <=? s + zlen out + m') &&
                 (s + zlen out + m' <? zlen A + (zlen R1 + zlen C)))
          with true.
        2:{ symmetry. apply andb_true_iff. split; [lia|].
            apply Z.ltb_lt. pose proof (zlen_nonneg C).
            unfold zlen in *. lia. }
        f_equal.
        replace (Z.to_nat (s + zlen out + m'))
          with (length A + (length out + length X))%nat
          by (unfold zlen; lia).
        apply region_insert. unfold zlen in *. lia.
      * split; [done|]. split.
        { unfold zlen. rewrite length_insert. unfold zlen in HR. lia. }
        replace (zlen out + m <? e - s) with true by lia.
        split; [lia|].
        rewrite <- HXm.
        replace (Z.to_nat (zlen out + m)) with (length out + length X)%nat
          by (unfold zlen; lia).
        split.
        -- rewrite take_insert_ge by lia.
           subst R1. rewrite Hout. rewrite app_assoc.
           rewrite take_app_length'; [done|]. by rewrite length_app.
        -- intros _. rewrite length_app.
           apply list_lookup_insert_eq. unfold zlen in *. lia.
    + assert (m' = space) by lia.
      exists e, (A ++ <[Z.to_nat (e - s - 1) := NUL]> R1 ++ C),
        (<[Z.to_nat (e - s - 1) := NUL]> R1).
      split.
      * unfold bind, store, ret.
        rewrite !zlen_app.
        replace ((0 <=? e - 1) &&
                 (e - 1 <? zlen A + (zlen R1 + zlen C)))
          with true.
        2:{ symmetry. apply andb_true_iff. split; [lia|].
            apply Z.ltb_lt. pose proof (zlen_nonneg C).
            unfold zlen in *. lia. }
        f_equal.
        replace (Z.to_nat (e - 1))
          with (length A + Z.to_nat (e - s - 1))%nat by lia.
        apply region_insert. lia.
      * split; [done|]. split.
        { unfold zlen. rewrite length_insert. unfold zlen in HR. lia. }
        replace (zlen out + m <? e - s) with false by (subst m' space; lia).
        split; [done|].
        rewrite insert_last_take by lia. f_equal.
        subst R1. rewrite Hout.
        rewrite drop_ge by (unfold zlen in *; lia).
        rewrite app_nil_r.
        rewrite !take_app.
        f_equal. subst X. rewrite !take_take.
        f_equal. unfold zlen in *. lia.
  - destruct Hst as (-> & HRe).
    unfold xstpencpy. replace (e - e) with 0 by lia.
    rewrite wrap_small by lia.
    assert (Hn0 : strnlen src (if 0 <? n then 0 else n) = Ok 0).
    { destruct (0 <? n) eqn:E; destruct src; simpl; try done.
      - replace (n <=? 0) with true by lia. done.
      - replace (n <=? 0) with true by lia. done. }
    unfold bind at 1. unfold lift. rewrite Hn0.
    unfold bind at 1. unfold memcpy. simpl.
    exists e, buf, R. split.
    + unfold bind, store, ret.
      replace ((0 <=? e - 1) && (e - 1 <? zlen buf)) with true by lia.
      f_equal. rewrite Hbuf.
      replace (Z.to_nat (e - 1))
        with (length A + Z.to_nat (e - s - 1))%nat by lia.
      rewrite region_insert by lia. f_equal. f_equal.
      rewrite insert_last_take by lia.
      rewrite HRe at 2. f_equal.
      rewrite HRe. rewrite take_app_length'; [done|].
      unfold zlen in *. rewrite length_take. lia.
    + split; [done|]. split; [done|].
      replace (zlen out + m <? e - s) with false by lia.
      split; [done|]. rewrite HRe. f_equal.
      rewrite take_app_le; [done|]. unfold zlen in *. lia.
Qed.

(** ** Every emitter appends its text through the writer *)

Lemma written_cursor b0 s e out d buf :
  written b0 s e out d buf ->
  d = (if zlen out <? e - s then s + zlen out else e).
Proof.
  intros [Hb (R & _ & _ & Hst)].
  by destruct (zlen out <? e - s); destruct Hst as [-> _].
Qed.

Lemma written_cursor_range b0 s e out d buf :
  written b0 s e out d buf -> s <= d <= e.
Proof.
  intros Hw. rewrite (written_cursor _ _ _ _ _ _ Hw).
  destruct Hw as [Hb _]. pose proof (zlen_nonneg out).
  destruct (zlen out <? e - s) eqn:?; lia.
Qed.

Lemma strnlen_extend src k n m :
  strnlen src k = Ok m -> m < k -> k <= n -> strnlen src n = Ok m.
Proof.
  revert k n m. induction src as [|c t IH]; intros k n m; simpl.
  - destruct (k <=? 0) eqn:E; [|done]. intros [= <-]. lia.
  - destruct (k <=? 0) eqn:E; [intros [= <-]; lia|].
    destruct (Byte.eqb c NUL).
    { intros [= <-] _ Hkn. by replace (n <=? 0) with false by lia. }
    destruct (strnlen t (k - 1)) as [r|] eqn:Er; simpl; [|done].
    intros [= <-] Hm Hkn. replace (n <=? 0) with false by lia.
    by rewrite (IH (k - 1) (n - 1) r Er ltac:(lia) ltac:(lia)).
Qed.

Lemma xstpencpy_cap d e src n buf :
  0 <= e - d < 2 ^ 64 ->
  xstpencpy d e src (if e - d <? n then e - d else n) buf
  = xstpencpy d e src n buf.
Proof.
  intros Hd. unfold xstpencpy. rewrite wrap_small by lia.
  replace (if e - d <? (if e - d <? n then e - d else n)
           then e - d else (if e - d <? n then e - d else n))
    with (if e - d <? n then e - d else n); [done|].
  repeat case_match; lia.
Qed.

Lemma emits_xstpencpy b0 s e src n :
  emits b0 s e (fun d => xstpencpy d e src n) (xstpencpy_text src n).
Proof.
  intros out d buf Hw. unfold xstpencpy_text.
  destruct (strnlen src n) as [m|flt] eqn:Hm; simpl.
  - destruct (xstpencpy_written _ _ _ _ _ _ _ _ _ Hw Hm) as (d' & buf' & -> & Hw').
    exists (ztake m src). split; [done|]. split; [by intros ? [= <-]|done].
  - pose proof (written_cursor_range _ _ _ _ _ _ Hw) as Hd.
    pose proof (written_cursor _ _ _ _ _ _ Hw) as Hcur.
    assert (Hb : e <= 2 ^ 63 - 1).
    { destruct Hw as [Hb _]. unfold PTRDIFF_MAX in Hb. lia. }
    assert (Hs : 0 <= s) by (destruct Hw as [Hb' _]; lia).
    rewrite <- xstpencpy_cap by lia.
    set (n1 := if e - d <? n then e - d else n).
    destruct (strnlen src n1) as [m1|flt1] eqn:Hm1.
    + destruct (xstpencpy_written _ _ _ _ _ _ _ _ _ Hw Hm1)
        as (d1 & buf1 & -> & Hw1).
      exists (ztake m1 src). split; [done|]. split; [done|].
      intros Hlt. exfalso.
      pose proof (written_cursor _ _ _ _ _ _ Hw1) as Hcur1.
      pose proof (strnlen_range _ _ _ Hm1) as Hr1.
      rewrite zlen_app, zlen_ztake in Hcur1 by lia.
      pose proof (zlen_nonneg out).
      destruct (zlen out + m1 <? e - s) eqn:E1; [|lia].
      replace (zlen out <? e - s) with true in Hcur by lia.
      subst n1. destruct (e - d <? n) eqn:E2.
      * by rewrite (strnlen_extend _ _ n _ Hm1 ltac:(lia) ltac:(lia)) in Hm.
      * by rewrite Hm1 in Hm.
    + unfold xstpencpy. rewrite wrap_small by lia.
      replace (if e - d <? n1 then e - d else n1) with n1
        by (subst n1; repeat case_match; lia).
      unfold bind at 1, lift. by rewrite Hm1.
Qed.

Lemma emits_xstpecpy b0 s e src :
  emits b0 s e (fun d => xstpecpy d e src) (xstpecpy_text src).
Proof. apply emits_xstpencpy. Qed.

Lemma emits_ret b0 s e : emits b0 s e (fun d => ret d) (Ok []).
Proof.
  intros out d buf Hw. simpl. exists []. rewrite app_nil_r.
  split; [done|]. split; [by intros ? [= <-]|done].
Qed.

Lemma written_not_full b0 s e out txt d1 buf1 d2 buf2 :
  written b0 s e out d1 buf1 ->
  written b0 s e (out ++ txt) d2 buf2 ->
  d2 < e -> d1 < e.
Proof.
  intros H1 H2 Hlt.
  rewrite (written_cursor _ _ _ _ _ _ H1).
  rewrite (written_cursor _ _ _ _ _ _ H2) in Hlt.
  rewrite zlen_app in Hlt. pose proof (zlen_nonneg txt).
  pose proof (zlen_nonneg out). destruct H1 as [Hb _].
  repeat case_match; lia.
Qed.

Lemma emits_bind b0 s e f g t1 t2 :
  emits b0 s e f t1 -> emits b0 s e g t2 ->
  emits b0 s e (fun d => bind (f d) g)
    (let* a := t1 in let* b := t2 in Ok (a ++ b)).
Proof.
  intros Hf Hg out d buf Hw. unfold bind.
  specialize (Hf out d buf Hw).
  destruct (f d buf) as [d1 buf1| |flt]; [|done|].
  - destruct Hf as (txt1 & Hw1 & Ht1 & Hd1).
    specialize (Hg _ _ _ Hw1).
    destruct (g d1 buf1) as [d2 buf2| |flt]; [|done|].
    + destruct Hg as (txt2 & Hw2 & Ht2 & Hd2).
      exists (txt1 ++ txt2). rewrite app_assoc. split; [done|]. split.
      * intros txt0. destruct t1 as [a|]; [|done]. simpl.
        destruct t2 as [b|]; [|done]. simpl. intros [= <-].
        by rewrite (Ht1 a), (Ht2 b).
      * intros Hlt. rewrite Hd2 by done.
        rewrite Hd1 by (by eapply written_not_full). done.
    + intros txt0. destruct t1 as [a|]; [|done]. simpl.
      destruct t2 as [b|]; [|done]. by destruct (Hg b).
  - intros txt0. destruct t1 as [a|]; [|done]. by destruct (Hf a).
Qed.

Lemma emits_lift {A} b0 s e (r : res A) (g : A -> Z -> M Z)
  (t : A -> res (list byte)) :
  (forall a, r = Ok a -> emits b0 s e (g a) (t a)) ->
  emits b0 s e (fun d => bind (lift r) (fun a => g a d)) (let* a := r in t a).
Proof.
  intros Hg out d buf Hw. unfold bind, lift.
  destruct r as [a|flt]; simpl; [|done].
  by apply (Hg a).
Qed.

Lemma emits_if b0 s e (c : bool) f1 f2 t1 t2 :
  emits b0 s e f1 t1 -> emits b0 s e f2 t2 ->
  emits b0 s e (fun d => if c then f1 d else f2 d) (if c then t1 else t2).
Proof. by destruct c. Qed.

Lemma emits_ext b0 s e f g t u :
  (forall d buf, f d buf = g d buf) ->
  t = u ->
  emits b0 s e f t -> emits b0 s e g u.
Proof.
  intros Hfg <- Hf out d buf Hw. specialize (Hf out d buf Hw).
  by rewrite <- Hfg.
Qed.

(** Two texts built from the same parts are equal. *)
Ltac text_eq :=
  simpl;
  repeat match goal with
         | |- context [rbind ?r _] =>
             lazymatch r with
             | Ok _ => fail
             | Err _ => fail
             | rbind _ _ => fail
             | _ => idtac
             end;
             destruct r; simpl
         end;
  try rewrite <- !app_assoc; done.

Lemma emits_double_quote b0 s e str len :
  emits b0 s e (fun d => double_quote d e str len)
    (double_quote_text str len).
Proof.
  unfold double_quote, double_quote_text.
  eapply emits_ext; [done| |].
  2:{ apply emits_bind; [apply emits_xstpecpy|].
      apply emits_bind; [apply emits_xstpencpy|]. apply emits_xstpecpy. }
  text_eq.
Qed.

(** Stepping through a [bind] whose first command is an emitter: [lem] is
    the [emits] fact of that command and [Hw] the state of the writer. *)
Ltac step_emit Hw lem :=
  unfold bind at 1;
  let H := fresh "Hstep" in
  pose proof (lem _ _ _ Hw) as H; cbv beta in H;
  match type of H with
  | match ?c with _ => _ end =>
      let d := fresh "d" in
      let buf := fresh "buf" in
      let flt := fresh "flt" in
      destruct c as [d buf| |flt]; [|done|]
  end.

(** Case analysis on the results that a text is bound to in [H]. *)
Ltac split_text H :=
  simpl in H;
  repeat match type of H with
         | context [rbind ?r _] =>
             lazymatch r with
             | Ok _ => fail
             | Err _ => fail
             | rbind _ _ => fail
             | _ => idtac
             end;
             let E := fresh "E" in
             destruct r eqn:E; simpl in H; try discriminate H
         | context [match ?x with pair _ _ => _ end] =>
             is_var x; destruct x; simpl in H
         end.

(** The text is undefined because one of its parts, [Hn], is. *)
Ltac no_text Hn :=
  let p := fresh "p" in
  let Hp := fresh "Hp" in
  intros p Hp; split_text Hp; try discriminate Hp;
  solve [ exfalso; eapply Hn; eassumption
        | exfalso; eapply Hn; reflexivity ].

(** Using that a text, once defined, is the one that was written. *)
Ltac same_text :=
  repeat match goal with
         | H : forall txt0, ?t = Ok txt0 -> txt0 = _, E : ?t = Ok ?a |- _ =>
             let H' := fresh in
             pose proof (H _ E) as H'; clear H; try subst a
         | H : forall txt0, Ok ?a = Ok txt0 -> txt0 = _ |- _ =>
             specialize (H _ eq_refl); try subst a
         end.

(** Closing a goal about a text with the equations at hand. *)
Ltac close_text :=
  simpl;
  repeat match goal with
         | E : ?t = Ok _ |- context [?t] => rewrite E; simpl
         end;
  try rewrite <- !app_assoc; done.

Lemma emits_opt b0 s e (c : bool) src :
  emits b0 s e (fun d => if c then xstpecpy d e src else ret d)
    (if c then xstpecpy_text src else Ok []).
Proof.
  apply (emits_if _ _ _ c (fun d => xstpecpy d e src) (fun d => ret d)).
  - apply emits_xstpecpy.
  - apply emits_ret.
Qed.

Lemma single_quote_run_emits b0 s e fuel :
  forall str len open out d buf,
    written b0 s e out d buf ->
    match single_quote_run fuel d e str len open buf with
    | WOk (d', st) buf' =>
        exists txt, written b0 s e (out ++ txt) d' buf' /\
          (forall txt0 st0,
             single_quote_run_text fuel str len open = Ok (txt0, st0) ->
             txt0 = txt /\ st0 = st) /\
          (d' < e -> single_quote_run_text fuel str len open = Ok (txt, st))
    | WriteOOB => False
    | WErr _ => forall p, single_quote_run_text fuel str len open <> Ok p
    end.
Proof.
  assert (Hret : forall str len open out d buf,
    written b0 s e out d buf ->
    exists txt, written b0 s e (out ++ txt) d buf /\
      (forall txt0 (st0 : list byte * Z * bool),
         Ok ([], (str, len, open)) = Ok (txt0, st0) ->
         txt0 = txt /\ st0 = (str, len, open)) /\
      (d < e -> Ok ([], (str, len, open)) = Ok (txt, (str, len, open)))).
  { intros str len open out d buf Hw. exists []. rewrite app_nil_r.
    split; [done|]. split; [by intros ? ? [= <- <-]|done]. }
  induction fuel as [|fuel IH]; intros str len open out d buf Hw.
  - simpl. destruct (0 <? len); [|by apply Hret].
    unfold bind at 1, lift. destruct (rload str 0) as [c|flt]; simpl; [|done].
    destruct (Byte.eqb c c_squote); [done|]. by apply Hret.
  - simpl. destruct (0 <? len); [|by apply Hret].
    unfold bind at 1, lift. destruct (rload str 0) as [c|flt]; simpl; [|done].
    destruct (Byte.eqb c c_squote); [|by apply Hret].
    step_emit Hw (emits_opt b0 s e open (lit "'")); [|no_text Hstep].
    destruct Hstep as (txt1 & Hw1 & Ht1 & Hd1).
    step_emit Hw1 (emits_xstpecpy b0 s e (lit "\'")); [|no_text Hstep].
    destruct Hstep as (txt2 & Hw2 & Ht2 & Hd2).
    specialize (IH (zdrop 1 str) (wrap (len - 1)) false _ _ _ Hw2).
    destruct (single_quote_run fuel d1 e (zdrop 1 str) (wrap (len - 1)) false buf1)
      as [[d3 st3] buf3| |flt]; [|done|no_text IH].
    destruct IH as (txt3 & Hw3 & Ht3 & Hd3).
    exists (txt1 ++ txt2 ++ txt3). split; [by rewrite !app_assoc|]. split.
    + intros txt0 st0 Ht. split_text Ht. injection Ht as <- <-.
      destruct (Ht3 _ _ eq_refl) as [-> ->].
      by rewrite (Ht1 _ eq_refl), <- (Ht2 _ eq_refl).
    + intros Hlt.
      assert (d1 < e) as Hlt1 by (by eapply written_not_full).
      assert (d0 < e) as Hlt0 by (by eapply written_not_full).
      rewrite Hd1 by done. simpl.
      specialize (Hd2 Hlt1). injection Hd2 as <-.
      rewrite Hd3 by done. done.
Qed.

Lemma emits_single_quote_loop b0 s e fuel :
  forall str len open,
    emits b0 s e (fun d => single_quote_loop fuel d e str len open)
      (single_quote_loop_text fuel str len open).
Proof.
  induction fuel as [|fuel IH]; intros str len open out d buf Hw.
  - simpl. destruct (0 <? len); [done|].
    apply (emits_opt b0 s e open (lit "'")), Hw.
  - simpl. destruct (0 <? len);
      [|apply (emits_opt b0 s e open (lit "'")), Hw].
    unfold bind at 1, lift.
    destruct (strcspn str (lit "'")) as [chunk0|flt]; simpl; [|done].
    set (chunk := if chunk0 <? len then chunk0 else len).
    assert (Hrun : forall str1 len1 open1 out1 d1 buf1,
      written b0 s e out1 d1 buf1 ->
      match
        (st <- single_quote_run fuel d1 e str1 len1 open1 ;;
         let '(dest, (str, len, open)) := st in
         single_quote_loop fuel dest e str len open)%cmd buf1
      with
      | WOk d' buf' =>
          exists txt, written b0 s e (out1 ++ txt) d' buf' /\
            (forall txt0,
               (let* (b, st) := single_quote_run_text fuel str1 len1 open1 in
                let '(str, len, open) := st in
                let* c := single_quote_loop_text fuel str len open in
                Ok (b ++ c)) = Ok txt0 -> txt0 = txt) /\
            (d' < e ->
               (let* (b, st) := single_quote_run_text fuel str1 len1 open1 in
                let '(str, len, open) := st in
                let* c := single_quote_loop_text fuel str len open in
                Ok (b ++ c)) = Ok txt)
      | WriteOOB => False
      | WErr _ =>
          forall txt0,
            (let* (b, st) := single_quote_run_text fuel str1 len1 open1 in
             let '(str, len, open) := st in
             let* c := single_quote_loop_text fuel str len open in
             Ok (b ++ c)) <> Ok txt0
      end).
    { intros str1 len1 open1 out1 d1 buf1 Hw1.
      unfold bind at 1.
      pose proof (single_quote_run_emits b0 s e fuel str1 len1 open1 _ _ _ Hw1)
        as Hr.
      destruct (single_quote_run fuel d1 e str1 len1 open1 buf1)
        as [[d2 [[str2 len2] open2]] buf2| |flt]; [|done|no_text Hr].
      destruct Hr as (txt2 & Hw2 & Ht2 & Hd2).
      specialize (IH str2 len2 open2 _ _ _ Hw2).
      destruct (single_quote_loop fuel d2 e str2 len2 open2 buf2)
        as [d3 buf3| |flt]; [|done|].
      - destruct IH as (txt3 & Hw3 & Ht3 & Hd3).
        exists (txt2 ++ txt3). split; [by rewrite !app_assoc|].
        split.
        + intros txt0 Ht. split_text Ht.
          destruct (Ht2 _ _ eq_refl) as [-> [= -> -> ->]].
          split_text Ht. injection Ht as <-. by same_text.
        + intros Hlt.
          assert (d2 < e) as Hlt2 by (by eapply written_not_full).
          rewrite Hd2 by done. simpl. by rewrite Hd3.
      - intros txt0 Ht. split_text Ht.
        destruct (Ht2 _ _ eq_refl) as [-> [= -> -> ->]].
        split_text Ht. by eapply IH. }
    destruct (0 <? chunk).
    + unfold bind at 1.
      step_emit Hw (emits_opt b0 s e (negb open) (lit "'")); [|no_text Hstep].
      destruct Hstep as (txt1 & Hw1 & Ht1 & Hd1).
      step_emit Hw1 (emits_xstpencpy b0 s e str chunk); [|no_text Hstep].
      destruct Hstep as (txt2 & Hw2 & Ht2 & Hd2).
      unfold ret at 1. cbv beta iota.
      specialize (Hrun (zdrop chunk str) (wrap (len - chunk)) true _ _ _ Hw2).
      match goal with
      | |- match ?c with _ => _ end =>
          match type of Hrun with
          | match ?c' with _ => _ end =>
              change c with c'; destruct c' as [d3 buf3| |flt]; [|done|]
          end
      end.
      * destruct Hrun as (txt & Hw3 & Ht3 & Hd3). exists (txt1 ++ txt2 ++ txt).
        split; [by rewrite !app_assoc|]. split.
        -- intros txt0 Ht. split_text Ht. same_text.
           injection Ht as <-. rewrite <- app_assoc. do 2 f_equal.
           apply Ht3. close_text.
        -- intros Hlt.
           assert (d1 < e) as Hlt1 by (by eapply written_not_full).
           assert (d0 < e) as Hlt0 by (by eapply written_not_full).
           rewrite Hd1, Hd2 by done. simpl.
           specialize (Hd3 Hlt). split_text Hd3. injection Hd3 as <-.
           close_text.
      * intros txt0 Ht. split_text Ht. same_text. eapply Hrun. close_text.
    + unfold bind at 1, ret at 1.
      specialize (Hrun str len open _ _ _ Hw).
      match goal with
      | |- match ?c with _ => _ end =>
          match type of Hrun with
          | match ?c' with _ => _ end =>
              change c with c'; destruct c' as [d3 buf3| |flt]; [|done|]
          end
      end.
      * destruct Hrun as (txt & Hw3 & Ht3 & Hd3). exists txt.
        split; [done|]. split; [|done].
        intros txt0 Ht. apply Ht3. done.
      * intros txt0 Ht. by eapply Hrun.
Qed.

Lemma emits_single_quote b0 s e fuel str len :
  emits b0 s e (fun d => single_quote fuel d e str len)
    (single_quote_text fuel str len).
Proof. apply emits_single_quote_loop. Qed.

Section EmitsDollar.

Variable L : locale.

Lemma emits_dollar_bytes b0 s e cnt :
  forall str j,
    emits b0 s e (fun d => dollar_bytes cnt d e str j)
      (dollar_bytes_text cnt str j).
Proof.
  induction cnt as [|cnt IH]; intros str j; simpl.
  - apply emits_ret.
  - eapply emits_ext; [done| |].
    2:{ eapply emits_lift. intros byte _.
        eapply emits_bind; [|apply IH].
        instantiate (1 := match dollar_esc byte with
                          | Some esc => xstpecpy_text esc
                          | None =>
                              let* x := xstpecpy_text (lit "\x") in
                              let* h := hex_at (byte_val byte / 16) in
                              let* hi := xstpecpy_text h in
                              let* h := hex_at (byte_val byte mod 16) in
                              let* lo := xstpecpy_text h in
                              Ok (x ++ hi ++ lo)
                          end).
        destruct (dollar_esc byte) as [esc|].
        - apply emits_xstpecpy.
        - eapply emits_ext; [done| |].
          2:{ eapply emits_bind; [apply emits_xstpecpy|].
              eapply emits_lift. intros h1 _.
              eapply emits_bind; [apply emits_xstpecpy|].
              eapply emits_lift. intros h2 _.
              apply emits_xstpecpy. }
          text_eq. }
    text_eq.
Qed.

Lemma emits_dollar_loop b0 s e fuel :
  forall str len flags i mb,
    emits b0 s e (fun d => dollar_loop L fuel d e str len flags i mb)
      (dollar_loop_text L fuel str len flags i mb).
Proof.
  induction fuel as [|fuel IH]; intros str len flags i mb; simpl.
  - destruct (i <? len); [|apply emits_ret]. by intros out d buf Hw.
  - destruct (i <? len); [|apply emits_ret].
    intros out d buf Hw.
    unfold bind at 1, lift.
    destruct (xmbrtowc L i str len mb) as [[[[r wc] i'] mb']|flt]; simpl;
      [|done].
    unfold bind at 1, lift.
    destruct (dollar_scan _ str i _) as [safe|flt]; simpl; [|done].
    step_emit Hw (emits_if b0 s e safe
                    (fun d => xstpencpy d e (zdrop i str) (wrap (i' - i)))
                    (fun d => dollar_bytes (Z.to_nat (i' - i)) d e str i)
                    _ _ (emits_xstpencpy b0 s e _ _)
                    (emits_dollar_bytes b0 s e _ str i));
      [|no_text Hstep].
    destruct Hstep as (txt1 & Hw1 & Ht1 & Hd1).
    pose proof (IH str len flags i' mb' _ _ _ Hw1) as Hrec.
    destruct (dollar_loop L fuel d0 e str len flags i' mb' buf0)
      as [d2 buf2| |flt]; [|done|no_text Hrec].
    destruct Hrec as (txt2 & Hw2 & Ht2 & Hd2).
    exists (txt1 ++ txt2). split; [by rewrite app_assoc|]. split.
    + intros txt0 Ht. split_text Ht. same_text. by injection Ht as <-.
    + intros Hlt.
      assert (d0 < e) as Hlt0 by (by eapply written_not_full).
      by rewrite Hd1, Hd2.
Qed.

Lemma emits_dollar_quote b0 s e fuel str len flags :
  emits b0 s e (fun d => dollar_quote L fuel d e str len flags)
    (dollar_quote_text L fuel str len flags).
Proof.
  unfold dollar_quote, dollar_quote_text.
  eapply emits_ext; [done| |].
  2:{ apply emits_bind; [apply emits_xstpecpy|].
      apply emits_bind; [apply emits_dollar_loop|]. apply emits_xstpecpy. }
  text_eq.
Qed.

End EmitsDollar.

Lemma zlen_zero_nil {A} (l : list A) : zlen l = 0 <-> l = [].
Proof.
  unfold zlen. split.
  - intros H. apply length_zero_iff_nil. lia.
  - by intros ->.
Qed.

Lemma written_cursor_start b0 s e out d buf :
  written b0 s e out d buf -> (d = s <-> out = []).
Proof.
  intros [Hb (R & _ & _ & Hst)]. pose proof (zlen_nonneg out) as Ho.
  rewrite <- zlen_zero_nil.
  destruct (zlen out <? e - s) eqn:E; destruct Hst as [-> _]; lia.
Qed.

Section EmitsWordnesc.

Variable L : locale.

Lemma emits_wordnesc_choice b0 s e fuel str len flags pl :
  emits b0 s e
    (fun dest =>
       if pl <? len then dollar_quote L fuel dest e str len flags
       else
         bare <- (if negb (shell flags) then ret true
                  else bl <- lift (bare_len str len) ;; ret (bl =? len)) ;;
         if (bare : bool) then xstpencpy dest e str len
         else
           ql <- lift (quotable_len str len) ;;
           if ql =? len then double_quote dest e str len
           else single_quote fuel dest e str len)%cmd
    (if pl <? len then dollar_quote_text L fuel str len flags
     else
       let* bare := (if negb (shell flags) then Ok true
                     else let* bl := bare_len str len in Ok (bl =? len)) in
       if (bare : bool) then xstpencpy_text str len
       else
         let* ql := quotable_len str len in
         if ql =? len then double_quote_text str len
         else single_quote_text fuel str len).
Proof.
  destruct (pl <? len); [apply emits_dollar_quote|].
  assert (Hrest : emits b0 s e
    (fun dest =>
       ql <- lift (quotable_len str len) ;;
       if ql =? len then double_quote dest e str len
       else single_quote fuel dest e str len)%cmd
    (let* ql := quotable_len str len in
     if ql =? len then double_quote_text str len
     else single_quote_text fuel str len)).
  { eapply emits_lift. intros ql _. apply emits_if.
    - apply emits_double_quote.
    - apply emits_single_quote. }
  destruct (negb (shell flags)).
  - intros out d buf Hw. unfold bind at 1, ret at 1. simpl.
    by apply emits_xstpencpy.
  - intros out d buf Hw. unfold bind at 1. unfold bind at 1, lift at 1.
    destruct (bare_len str len) as [bl|flt]; simpl; [|done].
    destruct (bl =? len).
    + by apply emits_xstpencpy.
    + by apply Hrest.
Qed.

Lemma wordnesc_written fuel b0 s e str n flags :
  0 <= s < e -> e <= zlen b0 -> zlen b0 <= PTRDIFF_MAX ->
  match wordnesc L fuel s e str n flags b0 with
  | WOk d' buf' =>
      exists txt, written b0 s e txt d' buf' /\ txt <> [] /\
        (forall txt0, wordnesc_text L fuel str n flags = Ok txt0 ->
                      txt0 = txt) /\
        (d' < e -> wordnesc_text L fuel str n flags = Ok txt)
  | WriteOOB => False
  | WErr _ => forall txt0, wordnesc_text L fuel str n flags <> Ok txt0
  end.
Proof.
  intros Hs He Hb.
  pose proof (written_init b0 s e Hs He Hb) as Hw.
  unfold wordnesc, wordnesc_text, wordnesc_body_text.
  unfold bind at 1, lift at 1.
  destruct (strnlen str n) as [len|flt]; simpl; [|done].
  unfold bind at 1, lift at 1.
  destruct (printable_len L fuel str len flags) as [pl|flt]; simpl; [|done].
  step_emit Hw (emits_wordnesc_choice b0 s e fuel str len flags pl);
    [|no_text Hstep].
  destruct Hstep as (txt & Hw1 & Ht & Hd). simpl in Hw1.
  pose proof (written_cursor_start _ _ _ _ _ _ Hw1) as Hc.
  destruct (d =? s) eqn:Hds.
  - assert (txt = []) as -> by (apply Hc; lia).
    pose proof (emits_xstpecpy b0 s e [c_dquote; c_dquote; NUL] _ _ _ Hw1)
      as Hq. cbv beta in Hq.
    destruct (xstpecpy d e [c_dquote; c_dquote; NUL] buf)
      as [d2 buf2| |flt]; [|done|].
    + destruct Hq as (txt2 & Hw2 & Ht2 & Hd2). simpl in Hw2.
      specialize (Ht2 _ eq_refl). subst txt2.
      exists [c_dquote; c_dquote]. split; [done|]. split; [done|]. split.
      * intros txt0 H0. split_text H0. same_text. by injection H0 as <-.
      * intros Hlt. rewrite Hd by lia. done.
    + by destruct (Hq [c_dquote; c_dquote]).
  - exists txt. split; [done|].
    assert (txt <> []) as Hne.
    { intros ->. destruct Hc as [_ Hc]. specialize (Hc eq_refl). lia. }
    split; [done|]. split.
    + intros txt0 H0. split_text H0. same_text.
      destruct txt; [done|]. by injection H0 as <-.
    + intros Hlt. rewrite Hd by done. simpl. by destruct txt.
Qed.

End EmitsWordnesc.

(** ** What a state of the writer says about the buffer *)

Lemma written_length b0 s e out d buf :
  written b0 s e out d buf -> length buf = length b0.
Proof.
  intros [Hb (R & -> & HR & _)]. unfold ztake, zdrop, zlen in *.
  rewrite !length_app, length_take, length_drop. lia.
Qed.

Lemma written_frame b0 s e out d buf a :
  written b0 s e out d buf ->
  a < s \/ e <= a -> load buf a = load b0 a.
Proof.
  intros [Hb (R & -> & HR & _)] Ha. unfold load.
  destruct (a <? 0) eqn:E; [done|].
  unfold ztake, zdrop, zlen in *.
  assert (HA : length (take (Z.to_nat s) b0) = Z.to_nat s)
    by (rewrite length_take; lia).
  destruct (decide (a < s)) as [Hlt|Hge].
  - rewrite lookup_app_l by lia. apply lookup_take_lt. lia.
  - rewrite lookup_app_r by lia. rewrite lookup_app_r by lia.
    rewrite lookup_drop. f_equal. lia.
Qed.

Lemma written_region_lookup (b0 : list byte) s e buf R k :
  0 <= s -> s <= zlen b0 ->
  buf = ztake s b0 ++ R ++ zdrop e b0 ->
  (k < length R)%nat ->
  load buf (s + Z.of_nat k) = R !! k.
Proof.
  intros Hs Hs' -> Hk. unfold load.
  replace (s + Z.of_nat k <? 0) with false by lia.
  unfold ztake, zdrop, zlen in *.
  assert (HA : length (take (Z.to_nat s) b0) = Z.to_nat s)
    by (rewrite length_take; lia).
  rewrite lookup_app_r by lia. rewrite lookup_app_l by lia.
  f_equal. lia.
Qed.

Lemma written_terminated b0 s e out d buf :
  written b0 s e out d buf -> out <> [] ->
  load buf (if d <? e then d else e - 1) = Some NUL.
Proof.
  intros [Hb (R & Hbuf & HR & Hst)] Hne.
  pose proof (zlen_nonneg out) as Ho.
  destruct (zlen out <? e - s) eqn:E.
  - destruct Hst as (-> & _ & Hnul).
    replace (s + zlen out <? e) with true by lia.
    unfold zlen at 1.
    rewrite (written_region_lookup b0 s e buf R) by
      (try done; unfold zlen in *; lia).
    by apply Hnul.
  - destruct Hst as (-> & HRe).
    replace (e <? e) with false by lia.
    replace (e - 1) with (s + Z.of_nat (Z.to_nat (e - s - 1))) by lia.
    rewrite (written_region_lookup b0 s e buf R) by
      (try done; unfold zlen in *; lia).
    rewrite HRe. unfold ztake.
    rewrite lookup_app_r by (rewrite length_take; unfold zlen in *; lia).
    rewrite length_take.
    replace (Z.to_nat (e - s - 1) - _)%nat with 0%nat
      by (unfold zlen in *; lia).
    done.
Qed.

Lemma written_bytes b0 s e out d buf :
  written b0 s e out d buf ->
  bytes_between buf s (if d <? e then d else e - 1)
  = ztake (e - s - 1) out.
Proof.
  intros [Hb (R & Hbuf & HR & Hst)].
  pose proof (zlen_nonneg out) as Ho.
  assert (Hdrop : zdrop s buf = R ++ zdrop e b0).
  { rewrite Hbuf. unfold zdrop, ztake, zlen in *.
    rewrite drop_app_length'; [done|]. rewrite length_take. lia. }
  unfold bytes_between. rewrite Hdrop.
  destruct (zlen out <? e - s) eqn:E.
  - destruct Hst as (-> & Hout & _).
    replace (s + zlen out <? e) with true by lia.
    replace (s + zlen out - s) with (zlen out) by lia.
    unfold ztake in *. rewrite take_app_le by (unfold zlen in *; lia).
    rewrite Hout. rewrite take_ge; [done|]. unfold zlen in *. lia.
  - destruct Hst as (-> & HRe).
    replace (e <? e) with false by lia.
    replace (e - 1 - s) with (e - s - 1) by lia.
    unfold ztake in *. rewrite take_app_le by (unfold zlen in *; lia).
    rewrite HRe. rewrite take_app_length'; [done|].
    rewrite length_take. unfold zlen in *. lia.
Qed.

Lemma written_bytes_fit b0 s e out d buf :
  written b0 s e out d buf -> d < e -> bytes_between buf s d = out.
Proof.
  intros Hw Hlt. pose proof (written_bytes _ _ _ _ _ _ Hw) as Hb.
  replace (d <? e) with true in Hb by lia. rewrite Hb.
  pose proof (written_cursor _ _ _ _ _ _ Hw) as Hc.
  unfold ztake. apply take_ge.
  pose proof (zlen_nonneg out). unfold zlen in *.
  destruct (Z.of_nat (length out) <? e - s) eqn:E; lia.
Qed.

(** ** [strcspn] on a string whose first bytes are known *)

Lemma strchr_in_nul rej : strchr_in rej NUL = false.
Proof.
  induction rej as [|x t IH]; simpl; [done|].
  destruct (Byte.eqb x NUL) eqn:E; [done|]. by rewrite IH, orb_false_r.
Qed.

Lemma strcspn_total s rej :
  NUL ∈ s -> exists r, strcspn s rej = Ok r /\ 0 <= r <= zlen s.
Proof.
  induction s as [|c t IH]; intros Hin; [by apply elem_of_nil in Hin|].
  simpl. rewrite zlen_cons. pose proof (zlen_nonneg t).
  destruct (Byte.eqb c NUL) eqn:E; simpl.
  { exists 0. split; [done|lia]. }
  destruct (strchr_in rej c).
  { exists 0. split; [done|lia]. }
  apply elem_of_cons in Hin as [Hc|Hin].
  { apply byte_eqb_neq in E. congruence. }
  destruct (IH Hin) as (r & -> & Hr). simpl. exists (1 + r). split; [done|lia].
Qed.

Lemma strcspn_prefix bs rest rej :
  Forall (fun c => c <> NUL) bs -> NUL ∈ rest ->
  exists r, strcspn (bs ++ rest) rej = Ok r /\
    (if r <? zlen bs then r else zlen bs) = zlen (span_free rej bs).
Proof.
  intros Hbs Hrest. induction Hbs as [|c t Hc Ht IH].
  - simpl. destruct (strcspn_total rest rej Hrest) as (r & -> & Hr).
    exists r. split; [done|]. change (zlen (@nil byte)) with 0.
    by replace (r <? 0) with false by lia.
  - simpl. apply byte_eqb_neq in Hc. rewrite Hc. simpl.
    rewrite zlen_cons. pose proof (zlen_nonneg t).
    destruct (strchr_in rej c).
    { exists 0. split; [done|]. by replace (0 <? 1 + zlen t) with true by lia. }
    destruct IH as (r & -> & Hr). simpl. exists (1 + r). split; [done|].
    rewrite zlen_cons.
    destruct (r <? zlen t) eqn:E.
    + replace (1 + r <? 1 + zlen t) with true by lia. lia.
    + replace (1 + r <? 1 + zlen t) with false by lia. lia.
Qed.

Lemma span_free_prefix rej bs :
  exists post, bs = span_free rej bs ++ post /\
    Forall (fun c => strchr_in rej c = false) (span_free rej bs) /\
    match post with
    | [] => True
    | c :: _ => strchr_in rej c = true
    end.
Proof.
  induction bs as [|c t IH]; simpl.
  - by exists [].
  - destruct (strchr_in rej c) eqn:E.
    + exists (c :: t). by split.
    + destruct IH as (post & Heq & Hall & Hpost).
      exists post. split; [simpl; by f_equal|]. split; [|done].
      by constructor.
Qed.

Lemma strnlen_exact bs rest :
  Forall (fun c => c <> NUL) bs ->
  strnlen (bs ++ rest) (zlen bs) = Ok (zlen bs).
Proof.
  intros Hbs. induction Hbs as [|c t Hc Ht IH]; simpl.
  - change (zlen (@nil byte)) with 0. by destruct rest.
  - rewrite zlen_cons. pose proof (zlen_nonneg t).
    replace (1 + zlen t <=? 0) with false by lia.
    apply byte_eqb_neq in Hc. rewrite Hc.
    replace (1 + zlen t - 1) with (zlen t) by lia. by rewrite IH.
Qed.

Lemma ztake_app_zlen {A} (l k : list A) : ztake (zlen l) (l ++ k) = l.
Proof.
  unfold ztake, zlen. rewrite Nat2Z.id. by rewrite take_app_length.
Qed.

Lemma zdrop_app_zlen {A} (l k : list A) : zdrop (zlen l) (l ++ k) = k.
Proof.
  unfold zdrop, zlen. rewrite Nat2Z.id. by rewrite drop_app_length.
Qed.

Lemma xstpencpy_text_exact bs rest :
  Forall (fun c => c <> NUL) bs ->
  xstpencpy_text (bs ++ rest) (zlen bs) = Ok bs.
Proof.
  intros Hbs. unfold xstpencpy_text. rewrite strnlen_exact by done.
  simpl. by rewrite ztake_app_zlen.
Qed.

(** ** The SingleQuoted emitter follows its state machine *)

Lemma strchr_in_squote c : strchr_in (lit "'") c = Byte.eqb c c_squote.
Proof.
  unfold lit. simpl. rewrite orb_false_r.
  destruct (Byte.eqb c c_squote) eqn:E.
  - apply byte_eqb_eq in E as ->. done.
  - apply byte_eqb_neq in E. apply byte_eqb_neq. intros <-. by apply E.
Qed.

Lemma single_quote_spec_span pre post open :
  Forall (fun c => strchr_in (lit "'") c = false) pre ->
  single_quote_spec (pre ++ post) open
  = match pre with
    | [] => single_quote_spec post open
    | _ => (if open then [] else [c_squote]) ++ pre
             ++ single_quote_spec post true
    end.
Proof.
  intros Hpre. revert open. induction Hpre as [|c t Hc Ht IH]; intros open.
  - done.
  - simpl. rewrite strchr_in_squote in Hc. rewrite Hc.
    rewrite IH. by destruct t as [|c' t'].
Qed.

Lemma wrap_zlen_sub {A} (l k : list A) :
  zlen (l ++ k) <= PTRDIFF_MAX -> wrap (zlen (l ++ k) - zlen l) = zlen k.
Proof.
  intros Hb. unfold PTRDIFF_MAX in Hb. rewrite zlen_app in *.
  pose proof (zlen_nonneg l). pose proof (zlen_nonneg k).
  rewrite wrap_small by lia. lia.
Qed.

Lemma single_quote_run_text_spec fuel :
  forall post rest open,
    Forall (fun c => c <> NUL) post ->
    zlen post <= PTRDIFF_MAX ->
    (length post <= fuel)%nat ->
    exists txt post' open',
      single_quote_run_text fuel (post ++ rest) (zlen post) open
      = Ok (txt, (post' ++ rest, zlen post', open')) /\
      (length post' <= length post)%nat /\
      match post with
      | c :: _ => c = c_squote -> (length post' < length post)%nat
      | [] => True
      end /\
      Forall (fun c => c <> NUL) post' /\
      single_quote_spec post open = txt ++ single_quote_spec post' open'.
Proof.
  induction fuel as [|fuel IH]; intros post rest open Hnn Hb Hf.
  - destruct post; [|simpl in Hf; lia]. simpl.
    exists [], [], open. by repeat split.
  - destruct post as [|c t].
    { simpl. exists [], [], open. by repeat split. }
    cbn [single_quote_run_text]. rewrite zlen_cons.
    pose proof (zlen_nonneg t).
    replace (0 <? 1 + zlen t) with true by lia.
    change (rload ((c :: t) ++ rest) 0) with (@Ok byte c).
    cbn [rbind].
    destruct (Byte.eqb c c_squote) eqn:Ec.
    + apply byte_eqb_eq in Ec as ->.
      inversion Hnn as [|? ? _ Hnn']; subst.
      rewrite zlen_cons in Hb.
      destruct (IH t rest false Hnn' ltac:(lia) ltac:(simpl in Hf; lia))
        as (txt & post' & open' & Hrun & Hlen & _ & Hnn'' & Hspec).
      replace (wrap (1 + zlen t - 1)) with (zlen t)
        by (unfold PTRDIFF_MAX in Hb; rewrite wrap_small; lia).
      change (zdrop 1 ((c_squote :: t) ++ rest)) with (t ++ rest).
      rewrite Hrun.
      exists ((if open then [c_squote] else []) ++ [c_bslash; c_squote] ++ txt),
        post', open'.
      split; [by destruct open|]. split; [simpl; lia|].
      split; [simpl; intros _; lia|]. split; [done|].
      simpl. rewrite Hspec. by rewrite <- !app_assoc.
    + exists [], (c :: t), open. rewrite zlen_cons.
      split; [done|]. split; [done|]. split.
      * intros ->. by rewrite Byte.byte_dec_lb in Ec.
      * done.
Qed.

Lemma single_quote_loop_text_spec fuel :
  forall bs rest open,
    Forall (fun c => c <> NUL) bs ->
    NUL ∈ rest ->
    zlen (bs ++ rest) <= PTRDIFF_MAX ->
    (length bs < fuel)%nat ->
    single_quote_loop_text fuel (bs ++ rest) (zlen bs) open
    = Ok (single_quote_spec bs open).
Proof.
  induction fuel as [|fuel IH]; intros bs rest open Hnn Hrest Hb Hf; [lia|].
  destruct bs as [|c t].
  { simpl. by destruct open. }
  cbn [single_quote_loop_text].
  replace (0 <? zlen (c :: t)) with true
    by (rewrite zlen_cons; pose proof (zlen_nonneg t); lia).
  destruct (strcspn_prefix (c :: t) rest (lit "'") Hnn Hrest)
    as (r & -> & Hr).
  cbn [rbind]. rewrite Hr.
  destruct (span_free_prefix (lit "'") (c :: t))
    as (post & Heq & Hpre & Hpost).
  set (pre := span_free (lit "'") (c :: t)) in *.
  assert (Hnn_pre : Forall (fun c => c <> NUL) pre /\
                    Forall (fun c => c <> NUL) post).
  { rewrite Heq in Hnn. by apply Forall_app in Hnn. }
  destruct Hnn_pre as [Hnn_pre Hnn_post].
  assert (Hlen : length (c :: t) = (length pre + length post)%nat)
    by (by rewrite Heq at 1; rewrite length_app).
  assert (Hbp : zlen post <= PTRDIFF_MAX).
  { rewrite zlen_app in Hb. pose proof (zlen_nonneg rest).
    unfold zlen in *. lia. }
  destruct (0 <? zlen pre) eqn:Hchunk.
  - assert (Hstr : (c :: t) ++ rest = pre ++ (post ++ rest))
      by (by rewrite Heq at 1; rewrite <- app_assoc).
    rewrite Hstr. rewrite xstpencpy_text_exact by done.
    rewrite zdrop_app_zlen.
    replace (wrap (zlen (c :: t) - zlen pre)) with (zlen post).
    2:{ rewrite Heq at 1. rewrite wrap_zlen_sub; [done|].
        rewrite <- Heq. rewrite zlen_app in Hb.
        pose proof (zlen_nonneg rest). lia. }
    destruct (single_quote_run_text_spec fuel post rest true Hnn_post Hbp
                ltac:(lia))
      as (txt & post' & open' & Hrun & Hlen' & _ & Hnn' & Hspec).
    assert (Ha : (if negb open then xstpecpy_text (lit "'") else Ok [])
                 = Ok (if open then [] else [c_squote])) by (by destruct open).
    rewrite Ha. cbn [rbind]. rewrite Hrun. cbn [rbind].
    rewrite IH; [|done|done| |].
    + cbn [rbind]. f_equal. rewrite Heq at 1.
      rewrite single_quote_spec_span by done.
      destruct pre as [|c' pre']; [done|].
      rewrite Hspec. by rewrite <- !app_assoc.
    + rewrite !zlen_app in *. unfold zlen in *. lia.
    + assert (length pre > 0)%nat by (unfold zlen in Hchunk; lia). lia.
  - assert (pre = []) as Hnil.
    { apply zlen_zero_nil. pose proof (zlen_nonneg pre). lia. }
    rewrite Hnil in Heq. simpl in Heq. subst post.
    assert (c = c_squote) as ->.
    { change (strchr_in (lit "'") c = true) in Hpost.
      rewrite strchr_in_squote in Hpost.
      by apply byte_eqb_eq in Hpost. }
    destruct (single_quote_run_text_spec fuel (c_squote :: t) rest open
                Hnn Hbp ltac:(lia))
      as (txt & post' & open' & Hrun & Hlen' & Hdec & Hnn' & Hspec).
    specialize (Hdec eq_refl).
    cbn [rbind]. rewrite Hrun. cbn [rbind].
    rewrite IH; [|done|done| |].
    + cbn [rbind]. by rewrite Hspec.
    + rewrite !zlen_app in *. unfold zlen in *. lia.
    + lia.
Qed.

Lemma quote_runs_spec bs :
  forall open,
    quote_runs open (single_quote_spec bs open) = Some bs.
Proof.
  induction bs as [|c t IH]; intros open; simpl.
  - by destruct open.
  - destruct (Byte.eqb c c_squote) eqn:Ec.
    + apply byte_eqb_eq in Ec as ->.
      destruct open; simpl; by rewrite IH.
    + destruct open; simpl; rewrite ?Ec; by rewrite IH.
Qed.

(** ** The DollarQuoted emitter follows its specification *)

Lemma escape_byte_text (b : byte) :
  match dollar_esc b with
  | Some esc => xstpecpy_text esc
  | None =>
      let* x := xstpecpy_text (lit "\x") in
      let* h := hex_at (byte_val b / 16) in
      let* hi := xstpecpy_text h in
      let* h := hex_at (byte_val b mod 16) in
      let* lo := xstpecpy_text h in
      Ok (x ++ hi ++ lo)
  end = Ok (escape_byte b).
Proof. destruct b; vm_compute; reflexivity. Qed.

Lemma rload_app pre c post : rload (pre ++ c :: post) (zlen pre) = Ok c.
Proof.
  unfold rload, load. pose proof (zlen_nonneg pre).
  replace (zlen pre <? 0) with false by lia.
  unfold zlen. rewrite Nat2Z.id.
  by rewrite lookup_app_r, Nat.sub_diag by lia.
Qed.

Lemma wrap_succ_zlen {A} (pre : list A) (c : A) post :
  zlen (pre ++ c :: post) <= PTRDIFF_MAX ->
  wrap (zlen pre + 1) = zlen (pre ++ [c]).
Proof.
  intros Hb. unfold PTRDIFF_MAX, zlen in *.
  rewrite !length_app in *. simpl in *.
  rewrite wrap_small; lia.
Qed.

Lemma dollar_bytes_text_spec u :
  forall pre post,
    zlen (pre ++ u ++ post) <= PTRDIFF_MAX ->
    dollar_bytes_text (length u) (pre ++ u ++ post) (zlen pre)
    = Ok (concat (map escape_byte u)).
Proof.
  induction u as [|c t IH]; intros pre post Hb; [done|].
  cbn [length dollar_bytes_text].
  change ((c :: t) ++ post) with (c :: t ++ post) in *.
  rewrite rload_app. cbn [rbind]. rewrite escape_byte_text. cbn [rbind].
  rewrite (wrap_succ_zlen pre c (t ++ post)) by done.
  replace (pre ++ c :: t ++ post) with ((pre ++ [c]) ++ t ++ post) in *
    by (by rewrite <- app_assoc).
  rewrite IH by done. done.
Qed.

Lemma dollar_scan_spec u :
  forall pre post safe,
    zlen (pre ++ u ++ post) <= PTRDIFF_MAX ->
    dollar_scan (length u) (pre ++ u ++ post) (zlen pre) safe
    = Ok (safe && forallb plain_byte u).
Proof.
  induction u as [|c t IH]; intros pre post safe Hb.
  { simpl. by rewrite andb_true_r. }
  cbn [length dollar_scan forallb].
  change ((c :: t) ++ post) with (c :: t ++ post) in *.
  rewrite rload_app. cbn [rbind]. unfold plain_byte at 1.
  destruct (Byte.eqb c c_squote || Byte.eqb c c_bslash); simpl.
  { by rewrite andb_false_r. }
  rewrite (wrap_succ_zlen pre c (t ++ post)) by done.
  replace (pre ++ c :: t ++ post) with ((pre ++ [c]) ++ t ++ post) in *
    by (by rewrite <- app_assoc).
  by rewrite IH.
Qed.

Section DollarSpec.

Variable L : locale.
Hypothesis HL : conforming L.

Lemma xmbrtowc_at pre u post mb :
  zlen (pre ++ u ++ post) <= PTRDIFF_MAX ->
  xmbrtowc L (zlen pre) (pre ++ u ++ post) (zlen (pre ++ u)) mb
  = match mbrtowc L u mb with
    | MbInvalid => Ok (-1, None, wrap (zlen pre + 1), mb_zero L)
    | MbIncomplete mb' =>
        Ok (-1, None, wrap (zlen pre + zlen (pre ++ u)), mb')
    | MbChar wc k mb' => Ok (0, Some wc, wrap (zlen pre + k), mb')
    end.
Proof.
  intros Hb. unfold xmbrtowc. unfold PTRDIFF_MAX in Hb.
  rewrite !zlen_app in *.
  pose proof (zlen_nonneg pre). pose proof (zlen_nonneg u).
  pose proof (zlen_nonneg post).
  replace (zlen pre + zlen u - zlen pre) with (zlen u) by lia.
  rewrite wrap_small by lia.
  replace (zlen pre + (zlen u + zlen post) <? zlen pre + zlen u) with false
    by lia.
  rewrite zdrop_app_zlen, ztake_app_zlen. done.
Qed.

Lemma ztake_zdrop {A} (k : Z) (l : list A) : ztake k l ++ zdrop k l = l.
Proof. apply take_drop. Qed.

Lemma dollar_loop_text_spec flags bs rest :
  Forall (fun c => c <> NUL) bs ->
  zlen (bs ++ rest) <= PTRDIFF_MAX ->
  complete_tail L (bs ++ rest) (zlen bs) ->
  forall fuel pre u,
    bs = pre ++ u ->
    (length u <= fuel)%nat ->
    dollar_loop_text L fuel (bs ++ rest) (zlen bs) flags (zlen pre) (mb_zero L)
    = Ok (dollar_spec L fuel flags u).
Proof.
  intros Hnn Hb Htail.
  assert (Hend : forall fuel mb,
    dollar_loop_text L fuel (bs ++ rest) (zlen bs) flags (zlen bs) mb
    = Ok []).
  { intros fuel mb. destruct fuel; simpl;
      by replace (zlen bs <? zlen bs) with false by lia. }
  induction fuel as [|fuel IH]; intros pre u Hbs Hf.
  - destruct u; [|simpl in Hf; lia]. rewrite app_nil_r in Hbs. subst pre.
    apply Hend.
  - destruct u as [|c t].
    { rewrite app_nil_r in Hbs. subst pre. by rewrite Hend. }
    cbn [dollar_loop_text dollar_spec].
    replace (zlen pre <? zlen bs) with true.
    2:{ rewrite Hbs, zlen_app, zlen_cons. pose proof (zlen_nonneg t). lia. }
    assert (Hstr : bs ++ rest = pre ++ (c :: t) ++ rest)
      by (by rewrite Hbs, <- app_assoc).
    assert (Hnn_u : Forall (fun c => c <> NUL) (c :: t)).
    { rewrite Hbs in Hnn. by apply Forall_app in Hnn as [_ ?]. }
    rewrite Hstr at 1. rewrite Hbs at 1.
    rewrite xmbrtowc_at by (by rewrite <- Hstr).
    unfold decode_one.
    assert (Hpre : 0 <= zlen pre) by apply zlen_nonneg.
    assert (Hlen : zlen bs = zlen pre + zlen (c :: t))
      by (by rewrite Hbs, zlen_app).
    assert (Hct : zlen (c :: t) = 1 + zlen t) by apply zlen_cons.
    pose proof (zlen_nonneg t) as Ht0.
    assert (Hbb : zlen bs <= 2 ^ 63 - 1).
    { unfold PTRDIFF_MAX in Hb. rewrite zlen_app in Hb.
      pose proof (zlen_nonneg rest). lia. }
    destruct (mbrtowc L (c :: t) (mb_zero L)) as [|st|wc k st] eqn:Hmb.
    + (* invalid sequence: one byte *)
      cbn [rbind]. rewrite wrap_small by lia.
      replace (Z.to_nat (zlen pre + 1 - zlen pre)) with (length [c])
        by (simpl; lia).
      assert (Hstr1 : bs ++ rest = pre ++ [c] ++ (t ++ rest)) by done.
      rewrite Hstr1.
      rewrite dollar_scan_spec by (by rewrite <- Hstr1). cbn [rbind andb].
      rewrite dollar_bytes_text_spec by (by rewrite <- Hstr1). cbn [rbind].
      rewrite <- Hstr1.
      replace (zlen pre + 1) with (zlen (pre ++ [c]))
        by (by rewrite zlen_app).
      rewrite (IH (pre ++ [c]) t);
        [|by rewrite Hbs, <- app_assoc|simpl in Hf; lia].
      cbn [rbind]. done.
    + (* incomplete sequence: only possible at the start *)
      destruct (decide (zlen pre = 0)) as [H0|Hn0].
      2:{ exfalso. apply (Htail (zlen pre) st); [lia|].
          rewrite Hstr. rewrite zdrop_app_zlen.
          replace (zlen bs - zlen pre) with (zlen (c :: t)) by lia.
          by rewrite ztake_app_zlen. }
      apply zlen_zero_nil in H0. subst pre. simpl in Hbs. subst bs.
      cbn [rbind]. change (zlen (@nil byte)) with 0.
      change ([] ++ c :: t) with (c :: t).
      rewrite Z.add_0_l. rewrite wrap_small by lia. rewrite Z.sub_0_r.
      replace (Z.to_nat (zlen (c :: t))) with (length (c :: t))
        by (unfold zlen; lia).
      rewrite (dollar_scan_spec (c :: t) [] rest) by done.
      cbn [rbind andb].
      pose proof (dollar_bytes_text_spec (c :: t) [] rest Hb) as Hbytes.
      change (dollar_bytes_text (length (c :: t)) ((c :: t) ++ rest) 0
              = Ok (concat (map escape_byte (c :: t)))) in Hbytes.
      rewrite Hbytes. cbn [rbind]. rewrite Hend. cbn [rbind].
      by destruct fuel.
    + (* a character of k bytes *)
      destruct (conf_char L HL _ _ _ _ Hmb) as (Hk & Hk0 & ->).
      assert (k <> 0) as Hkn.
      { intros ->. specialize (Hk0 eq_refl).
        rewrite Forall_forall in Hnn_u. by apply (Hnn_u NUL). }
      cbn [rbind]. rewrite wrap_small by lia.
      replace (0 =? 0) with true by done.
      replace (zlen pre + k - zlen pre) with k by lia.
      set (unit := ztake k (c :: t)). set (u' := zdrop k (c :: t)).
      assert (Hu : c :: t = unit ++ u') by (symmetry; apply ztake_zdrop).
      assert (Hunit : length unit = Z.to_nat k).
      { subst unit. unfold ztake, zlen in *. rewrite length_take. lia. }
      rewrite <- Hunit.
      assert (Hstr' : bs ++ rest = pre ++ unit ++ (u' ++ rest)).
      { rewrite Hstr, Hu. by rewrite <- !app_assoc. }
      rewrite Hstr'.
      rewrite dollar_scan_spec by (by rewrite <- Hstr'). cbn [rbind].
      replace (zlen pre + k) with (zlen (pre ++ unit))
        by (rewrite zlen_app; unfold zlen; lia).
      assert (Htxt :
        (if xiswprint L wc flags && forallb plain_byte unit
         then xstpencpy_text (zdrop (zlen pre) (pre ++ unit ++ u' ++ rest))
                (wrap k)
         else dollar_bytes_text (length unit) (pre ++ unit ++ u' ++ rest)
                (zlen pre))
        = Ok (if xiswprint L wc flags && forallb plain_byte unit
              then unit else concat (map escape_byte unit))).
      { destruct (xiswprint L wc flags && forallb plain_byte unit).
        - rewrite zdrop_app_zlen. rewrite wrap_small by lia.
          replace k with (zlen unit) by (unfold zlen; lia).
          apply xstpencpy_text_exact.
          rewrite Hu in Hnn_u. by apply Forall_app in Hnn_u as [? _].
        - apply dollar_bytes_text_spec. by rewrite <- Hstr'. }
      rewrite Htxt. cbn [rbind].
      rewrite <- Hstr'.
      rewrite (IH (pre ++ unit) u');
        [done|by rewrite Hbs, Hu, <- app_assoc|].
      assert (length (c :: t) = length unit + length u')%nat
        by (by rewrite Hu at 1; rewrite length_app).
      lia.
Qed.

End DollarSpec.

(** ** The printable-prefix scan

    [printable_len] returns; and when it does not stop before [len], every
    byte but the last has the property [P], for any [P] that holds of the
    bytes of a printable character and of an incomplete sequence. *)

Section PrintableLen.

Variable L : locale.
Hypothesis HL : conforming L.
Variable flags : Z.
Variable P : byte -> Prop.
Hypothesis HPfast : forall c,
  isascii c = true -> xisprint L c flags = true -> P c.
Hypothesis HPmulti : forall bs wc k st,
  mbrtowc L bs (mb_zero L) = MbChar wc k st -> 2 <= k ->
  Forall P (ztake k bs).
Hypothesis HPsingle : forall b rest wc st,
  mbrtowc L (b :: rest) (mb_zero L) = MbChar wc 1 st ->
  xiswprint L wc flags = true -> P b.
Hypothesis HPinc : forall bs st,
  mbrtowc L bs (mb_zero L) = MbIncomplete st -> Forall P bs.

Lemma Forall_ztake_le {A} (Q : A -> Prop) (j k : Z) (l : list A) :
  j <= k -> Forall Q (ztake k l) -> Forall Q (ztake j l).
Proof.
  intros Hjk Hk. unfold ztake in *.
  replace (take (Z.to_nat j) l)
    with (take (Z.to_nat j) (take (Z.to_nat k) l)).
  - by apply Forall_take.
  - rewrite take_take. f_equal. lia.
Qed.

Lemma ztake_all_but_last pre (u : list byte) :
  u <> [] ->
  ztake (zlen (pre ++ u) - 1) (pre ++ u) = pre ++ ztake (zlen u - 1) u.
Proof.
  intros Hu. unfold ztake. rewrite zlen_app.
  assert (0 < zlen u).
  { destruct u; [done|]. rewrite zlen_cons. pose proof (zlen_nonneg u). lia. }
  rewrite take_app_ge by (unfold zlen in *; lia).
  f_equal. f_equal. unfold zlen in *. lia.
Qed.

Lemma printable_slow_spec bs rest :
  Forall (fun c => c <> NUL) bs ->
  zlen (bs ++ rest) <= PTRDIFF_MAX ->
  forall fuel pre u,
    bs = pre ++ u ->
    Forall P pre ->
    (length u <= fuel)%nat ->
    exists pl,
      printable_slow L fuel (bs ++ rest) (zlen bs) flags (zlen pre) (mb_zero L)
      = Ok pl /\
      (~ pl < zlen bs -> Forall P (ztake (zlen bs - 1) bs)).
Proof.
  intros Hnn Hb.
  assert (Hall : forall pre, bs = pre ++ [] -> Forall P pre ->
                 Forall P (ztake (zlen bs - 1) bs)).
  { intros pre Hbs HP. rewrite app_nil_r in Hbs. subst pre.
    unfold ztake. by apply Forall_take. }
  induction fuel as [|fuel IH]; intros pre u Hbs HPpre Hf.
  - destruct u; [|simpl in Hf; lia]. simpl.
    replace (zlen pre <? zlen bs) with false
      by (rewrite Hbs, app_nil_r; lia).
    exists (zlen pre). split; [done|]. intros _. by eapply Hall.
  - destruct u as [|c t].
    { simpl. replace (zlen pre <? zlen bs) with false
        by (rewrite Hbs, app_nil_r; lia).
      exists (zlen pre). split; [done|]. intros _. by eapply Hall. }
    cbn [printable_slow].
    replace (zlen pre <? zlen bs) with true.
    2:{ rewrite Hbs, zlen_app, zlen_cons. pose proof (zlen_nonneg t). lia. }
    assert (Hstr : bs ++ rest = pre ++ (c :: t) ++ rest)
      by (by rewrite Hbs, <- app_assoc).
    assert (Hnn_u : Forall (fun c => c <> NUL) (c :: t)).
    { rewrite Hbs in Hnn. by apply Forall_app in Hnn as [_ ?]. }
    pose proof (xmbrtowc_at L pre (c :: t) rest (mb_zero L)) as Hx.
    rewrite <- Hstr, <- Hbs in Hx. rewrite Hx by done. clear Hx.
    assert (Hpre : 0 <= zlen pre) by apply zlen_nonneg.
    assert (Hlen : zlen bs = zlen pre + zlen (c :: t))
      by (by rewrite Hbs, zlen_app).
    assert (Hct : zlen (c :: t) = 1 + zlen t) by apply zlen_cons.
    pose proof (zlen_nonneg t) as Ht0.
    assert (Hbb : zlen bs <= 2 ^ 63 - 1).
    { unfold PTRDIFF_MAX in Hb. rewrite zlen_app in Hb.
      pose proof (zlen_nonneg rest). lia. }
    assert (Hlast : forall v, v = c :: t ->
              Forall P (ztake (zlen v - 1) v) ->
              Forall P (ztake (zlen bs - 1) bs)).
    { intros v -> Hv. rewrite Hbs. rewrite ztake_all_but_last by done.
      by apply Forall_app. }
    destruct (mbrtowc L (c :: t) (mb_zero L)) as [|st|wc k st] eqn:Hmb.
    + cbn [rbind]. rewrite wrap_small by lia.
      exists (zlen pre + 1). split; [done|]. intros Hge.
      assert (t = []) as -> by (apply zlen_zero_nil; lia).
      apply (Hlast [c]); [done|]. constructor.
    + cbn [rbind]. rewrite wrap_small by lia.
      exists (zlen pre + zlen bs). split; [done|]. intros _.
      apply (Hlast (c :: t)); [done|].
      unfold ztake. apply Forall_take. by eapply HPinc.
    + destruct (conf_char L HL _ _ _ _ Hmb) as (Hk & Hk0 & ->).
      assert (k <> 0) as Hkn.
      { intros ->. specialize (Hk0 eq_refl).
        rewrite Forall_forall in Hnn_u. by apply (Hnn_u NUL). }
      cbn [rbind]. rewrite wrap_small by lia.
      replace (0 =? 0) with true by done. cbn [negb].
      assert (Hunit : Forall P (ztake (k - 1) (c :: t))).
      { destruct (decide (2 <= k)) as [H2|H1].
        - apply (Forall_ztake_le P (k - 1) k); [lia|]. by eapply HPmulti.
        - replace (k - 1) with 0 by lia. constructor. }
      destruct (xiswprint L wc flags) eqn:Hpr; cbn [negb].
      * set (unit := ztake k (c :: t)). set (u' := zdrop k (c :: t)).
        assert (Hu : c :: t = unit ++ u') by (symmetry; apply ztake_zdrop).
        assert (Hunitlen : zlen unit = k).
        { subst unit. apply zlen_ztake. lia. }
        assert (HPunit : Forall P unit).
        { destruct (decide (2 <= k)) as [H2|H1].
          - by eapply HPmulti.
          - assert (k = 1) as -> by lia. subst unit.
            rewrite ztake_cons by lia. constructor; [|constructor].
            by eapply HPsingle. }
        replace (zlen pre + k) with (zlen (pre ++ unit))
          by (rewrite zlen_app; lia).
        apply (IH (pre ++ unit) u').
        -- by rewrite Hbs, Hu, <- app_assoc.
        -- by apply Forall_app.
        -- assert (length (c :: t) = length unit + length u')%nat
             by (by rewrite Hu at 1; rewrite length_app).
           unfold zlen in *. lia.
      * exists (zlen pre + k). split; [done|]. intros Hge.
        assert (k = zlen (c :: t)) as Hkk by lia.
        apply (Hlast (c :: t)); [done|]. by rewrite <- Hkk.
Qed.

Lemma printable_fast_spec bs rest :
  zlen (bs ++ rest) <= PTRDIFF_MAX ->
  forall fuel pre u,
    bs = pre ++ u ->
    Forall P pre ->
    (length u <= fuel)%nat ->
    exists r,
      printable_fast L fuel (bs ++ rest) (zlen bs) flags (zlen pre) = Ok r /\
      match r with
      | inl i => i < zlen bs
      | inr i => exists pre' u', bs = pre' ++ u' /\ i = zlen pre' /\
                                 Forall P pre'
      end.
Proof.
  intros Hb.
  induction fuel as [|fuel IH]; intros pre u Hbs HPpre Hf.
  - destruct u; [|simpl in Hf; lia]. simpl.
    replace (zlen pre <? zlen bs) with false
      by (rewrite Hbs, app_nil_r; lia).
    exists (inr (zlen pre)). split; [done|]. by exists pre, [].
  - destruct u as [|c t].
    { simpl. replace (zlen pre <? zlen bs) with false
        by (rewrite Hbs, app_nil_r; lia).
      exists (inr (zlen pre)). split; [done|]. by exists pre, []. }
    cbn [printable_fast].
    assert (Hlt : zlen pre < zlen bs).
    { rewrite Hbs, zlen_app, zlen_cons. pose proof (zlen_nonneg t). lia. }
    replace (zlen pre <? zlen bs) with true by lia.
    assert (Hstr : bs ++ rest = pre ++ c :: (t ++ rest))
      by (by rewrite Hbs, <- app_assoc).
    assert (Hld : rload (bs ++ rest) (zlen pre) = Ok c)
      by (rewrite Hstr; apply rload_app).
    rewrite Hld. cbn [rbind].
    destruct (isascii c) eqn:Hasc; cbn [negb].
    2:{ exists (inr (zlen pre)). split; [done|]. by exists pre, (c :: t). }
    destruct (xisprint L c flags) eqn:Hpr; cbn [negb].
    2:{ exists (inl (zlen pre)). by split. }
    rewrite (wrap_succ_zlen pre c (t ++ rest)) by (by rewrite <- Hstr).
    apply (IH (pre ++ [c]) t).
    + by rewrite Hbs, <- app_assoc.
    + apply Forall_app. split; [done|]. constructor; [|constructor].
      by apply HPfast.
    + simpl in Hf. lia.
Qed.

Lemma printable_len_spec bs rest fuel :
  Forall (fun c => c <> NUL) bs ->
  zlen (bs ++ rest) <= PTRDIFF_MAX ->
  (length bs <= fuel)%nat ->
  exists pl,
    printable_len L fuel (bs ++ rest) (zlen bs) flags = Ok pl /\
    (~ pl < zlen bs -> Forall P (ztake (zlen bs - 1) bs)).
Proof.
  intros Hnn Hb Hf. unfold printable_len.
  destruct (printable_fast_spec bs rest Hb fuel [] bs eq_refl
              ltac:(constructor) Hf) as (r & Hr & Hpost).
  change (zlen (@nil byte)) with 0 in Hr. rewrite Hr. cbn [rbind].
  destruct r as [i|i].
  - exists i. split; [done|]. lia.
  - destruct Hpost as (pre' & u' & Hbs & -> & HP).
    apply (printable_slow_spec bs rest Hnn Hb fuel pre' u' Hbs HP).
    assert (length bs = length pre' + length u')%nat
      by (by rewrite Hbs at 1; rewrite length_app).
    lia.
Qed.

End PrintableLen.

(** ** Reading the four renderings back *)

Lemma sh_meta_first c :
  strchr_in sh_meta c = false ->
  Byte.eqb c c_squote = false /\ Byte.eqb c c_dquote = false /\
  Byte.eqb c c_dollar = false /\ Byte.eqb c c_bslash = false.
Proof. destruct c; vm_compute; intros; repeat split; congruence. Qed.

Lemma bare_reject_meta c :
  strchr_in bare_reject c = false -> blank_byte c = false ->
  strchr_in sh_meta c = false.
Proof. destruct c; vm_compute; intros; congruence. Qed.

Lemma quotable_reject_double c :
  strchr_in quotable_reject c = false -> c <> NUL ->
  Byte.eqb c c_dquote = false /\
  Byte.eqb c c_dollar || Byte.eqb c c_bquote || Byte.eqb c c_bang = false /\
  Byte.eqb c c_bslash = false.
Proof. destruct c; vm_compute; intros; repeat split; congruence. Qed.

Lemma sh_parse_bare bs :
  Forall (fun c => strchr_in sh_meta c = false) bs ->
  sh_parse Unquoted bs = Some bs.
Proof.
  induction 1 as [|c t Hc Ht IH]; [done|].
  cbn [sh_parse]. destruct (sh_meta_first c Hc) as (-> & -> & -> & ->).
  by rewrite Hc, IH.
Qed.

Lemma sh_parse_double bs :
  Forall (fun c => strchr_in quotable_reject c = false) bs ->
  Forall (fun c => c <> NUL) bs ->
  sh_parse InDouble (bs ++ [c_dquote]) = Some bs.
Proof.
  induction 1 as [|c t Hc Ht IH]; intros Hnn; [done|].
  inversion Hnn as [|? ? Hcn Hnn']; subst.
  cbn [sh_parse app].
  destruct (quotable_reject_double c Hc Hcn) as (-> & -> & ->).
  by rewrite IH.
Qed.

Lemma sh_parse_single bs :
  forall open : bool,
    sh_parse (if open then InSingle else Unquoted)
      (single_quote_spec bs open) = Some bs.
Proof.
  induction bs as [|c t IH]; intros open.
  - by destruct open.
  - simpl. destruct (Byte.eqb c c_squote) eqn:Ec.
    + apply byte_eqb_eq in Ec as ->.
      pose proof (IH false) as IHf. simpl in IHf.
      destruct open; simpl; by rewrite IHf.
    + pose proof (IH true) as IHt. simpl in IHt.
      destruct open; simpl; rewrite ?Ec; by rewrite IHt.
Qed.

Lemma sh_parse_escape b rest :
  b <> NUL ->
  sh_parse InDollar (escape_byte b ++ rest)
  = option_map (cons b) (sh_parse InDollar rest).
Proof.
  intros Hb. destruct b; try done; cbn -[sh_parse]; try reflexivity.
Qed.

Lemma option_map_app (u v : list byte) (r : option (list byte)) :
  option_map (app u) (option_map (app v) r) = option_map (app (u ++ v)) r.
Proof. destruct r; simpl; [|done]. by rewrite app_assoc. Qed.

Lemma sh_parse_plain unit rest :
  forallb plain_byte unit = true ->
  sh_parse InDollar (unit ++ rest)
  = option_map (app unit) (sh_parse InDollar rest).
Proof.
  induction unit as [|c t IH]; intros Hp.
  - simpl. by destruct (sh_parse InDollar rest).
  - cbn [forallb] in Hp. apply andb_true_iff in Hp as [Hc Ht].
    unfold plain_byte in Hc. apply negb_true_iff, orb_false_iff in Hc
      as [Hq Hb].
    cbn [app sh_parse]. rewrite Hq, Hb, IH by done.
    by destruct (sh_parse InDollar rest).
Qed.

Lemma sh_parse_escapes unit rest :
  Forall (fun c => c <> NUL) unit ->
  sh_parse InDollar (concat (map escape_byte unit) ++ rest)
  = option_map (app unit) (sh_parse InDollar rest).
Proof.
  induction 1 as [|c t Hc Ht IH].
  - simpl. by destruct (sh_parse InDollar rest).
  - cbn [map concat]. rewrite <- app_assoc.
    rewrite sh_parse_escape by done. rewrite IH.
    by destruct (sh_parse InDollar rest).
Qed.

Section DollarRead.

Variable L : locale.
Hypothesis HL : conforming L.

Lemma decode_one_split c t :
  Forall (fun c => c <> NUL) (c :: t) ->
  exists wc unit rest,
    decode_one L (c :: t) = (wc, unit, rest) /\
    unit ++ rest = c :: t /\
    (length rest < length (c :: t))%nat.
Proof.
  intros Hnn. unfold decode_one.
  destruct (mbrtowc L (c :: t) (mb_zero L)) as [|st|wc k st] eqn:Hmb.
  - exists None, [c], t. split; [reflexivity|]. split; [done|]. simpl. lia.
  - exists None, (c :: t), []. split; [done|]. split; [by rewrite app_nil_r|].
    simpl. lia.
  - destruct (conf_char L HL _ _ _ _ Hmb) as (Hk & Hk0 & ->).
    assert (k <> 0) as Hkn.
    { intros ->. specialize (Hk0 eq_refl).
      rewrite Forall_forall in Hnn. by apply (Hnn NUL). }
    exists (Some wc), (ztake k (c :: t)), (zdrop k (c :: t)).
    split; [done|]. split; [apply ztake_zdrop|].
    unfold zdrop. rewrite length_drop. simpl. lia.
Qed.

Lemma sh_parse_dollar_spec flags fuel :
  forall bs tail,
    Forall (fun c => c <> NUL) bs ->
    (length bs <= fuel)%nat ->
    sh_parse InDollar (dollar_spec L fuel flags bs ++ tail)
    = option_map (app bs) (sh_parse InDollar tail).
Proof.
  induction fuel as [|fuel IH]; intros bs tail Hnn Hf.
  - destruct bs; [|simpl in Hf; lia]. simpl.
    by destruct (sh_parse InDollar tail).
  - destruct bs as [|c t].
    { simpl. by destruct (sh_parse InDollar tail). }
    cbn [dollar_spec].
    destruct (decode_one_split c t Hnn)
      as (wc & unit & rest & -> & Hsplit & Hlen).
    assert (Hnn' : Forall (fun c => c <> NUL) unit /\
                   Forall (fun c => c <> NUL) rest).
    { rewrite <- Hsplit in Hnn. by apply Forall_app in Hnn. }
    destruct Hnn' as [Hnn_u Hnn_r].
    rewrite <- app_assoc.
    set (verbatim := match wc with
                     | Some wc0 =>
                         xiswprint L wc0 flags && forallb plain_byte unit
                     | None => false
                     end).
    assert (Hv : verbatim = true -> forallb plain_byte unit = true).
    { subst verbatim. destruct wc; [|done].
      intros H. by apply andb_true_iff in H as [_ ?]. }
    destruct verbatim.
    + rewrite sh_parse_plain by auto.
      rewrite IH by (try done; simpl in *; lia).
      rewrite option_map_app. by rewrite Hsplit.
    + rewrite sh_parse_escapes by done.
      rewrite IH by (try done; simpl in *; lia).
      rewrite option_map_app. by rewrite Hsplit.
Qed.

End DollarRead.

(** ** The text of [wordnesc] on a string *)

Lemma cstring_split str n len :
  strnlen str n = Ok len ->
  NUL ∈ str ->
  exists bs rest,
    str = bs ++ rest /\ zlen bs = len /\ bs = ztake len str /\
    Forall (fun c => c <> NUL) bs /\ NUL ∈ rest.
Proof.
  intros Hlen Hin.
  pose proof (strnlen_range _ _ _ Hlen) as Hr.
  pose proof (strnlen_no_nul _ _ _ Hlen) as Hnn.
  exists (ztake len str), (zdrop len str).
  split; [symmetry; apply ztake_zdrop|]. split; [apply zlen_ztake; lia|].
  split; [done|]. split; [done|].
  rewrite <- (ztake_zdrop len str) in Hin.
  apply elem_of_app in Hin as [Hin|Hin]; [|done].
  rewrite Forall_forall in Hnn. by destruct (Hnn NUL Hin).
Qed.

Section WordnescText.

Variable L : locale.
Hypothesis HL : conforming L.

(** The text of [wordnesc] is the rendering of the strategy it selects;
    only DollarQuoted, selected when the printable scan stops before the
    end, depends on the absence of a late incomplete sequence. *)
Lemma wordnesc_text_selected fuel flags bs rest n :
  Forall (fun c => c <> NUL) bs ->
  NUL ∈ rest ->
  zlen (bs ++ rest) <= PTRDIFF_MAX ->
  strnlen (bs ++ rest) n = Ok (zlen bs) ->
  (length bs < fuel)%nat ->
  (forall pl, printable_len L fuel (bs ++ rest) (zlen bs) flags = Ok pl ->
              pl < zlen bs -> complete_tail L (bs ++ rest) (zlen bs)) ->
  exists pl,
    printable_len L fuel (bs ++ rest) (zlen bs) flags = Ok pl /\
    wordnesc_text L fuel (bs ++ rest) n flags
    = Ok (wordnesc_spec L fuel flags bs pl).
Proof.
  intros Hnn Hrest Hb Hlen Hf Hsel.
  destruct (printable_len_spec L HL flags (fun _ => True)
              ltac:(done) ltac:(intros; by apply Forall_true)
              ltac:(done) ltac:(intros; by apply Forall_true)
              bs rest fuel Hnn Hb ltac:(lia)) as (pl & Hpl & _).
  exists pl. split; [done|].
  unfold wordnesc_text, wordnesc_body_text, wordnesc_spec.
  rewrite Hlen. cbn [rbind]. rewrite Hpl. cbn [rbind].
  destruct (pl <? zlen bs) eqn:Epl.
  { apply Z.ltb_lt in Epl. pose proof (Hsel pl Hpl Epl) as Htail.
    unfold dollar_quote_text.
    change (zlen (@nil byte)) with 0.
    pose proof (dollar_loop_text_spec L HL flags bs rest Hnn Hb Htail
                  fuel [] bs eq_refl ltac:(lia)) as Hd.
    change (zlen (@nil byte)) with 0 in Hd. rewrite Hd. done. }
  destruct (strcspn_prefix bs rest bare_reject Hnn Hrest) as (rb & Hrb & Hbl).
  destruct (strcspn_prefix bs rest quotable_reject Hnn Hrest)
    as (rq & Hrq & Hql).
  unfold bare_len, quotable_len. rewrite Hrb, Hrq. cbn [rbind].
  rewrite Hbl, Hql.
  assert (Hbare :
    (let* bare := (if negb (shell flags) then Ok true
                   else Ok (zlen (span_free bare_reject bs) =? zlen bs)) in
     if (bare : bool) then xstpencpy_text (bs ++ rest) (zlen bs)
     else if zlen (span_free quotable_reject bs) =? zlen bs
          then double_quote_text (bs ++ rest) (zlen bs)
          else single_quote_text fuel (bs ++ rest) (zlen bs))
    = Ok (if negb (shell flags)
             || (zlen (span_free bare_reject bs) =? zlen bs)
          then bs
          else if zlen (span_free quotable_reject bs) =? zlen bs
               then [c_dquote] ++ bs ++ [c_dquote]
               else single_quote_spec bs false)).
  { assert (Hq : (if zlen (span_free quotable_reject bs) =? zlen bs
                  then double_quote_text (bs ++ rest) (zlen bs)
                  else single_quote_text fuel (bs ++ rest) (zlen bs))
                 = Ok (if zlen (span_free quotable_reject bs) =? zlen bs
                       then [c_dquote] ++ bs ++ [c_dquote]
                       else single_quote_spec bs false)).
    { destruct (_ =? _).
      - unfold double_quote_text. rewrite xstpencpy_text_exact by done.
        done.
      - by apply single_quote_loop_text_spec. }
    destruct (negb (shell flags)); cbn [rbind orb].
    - by apply xstpencpy_text_exact.
    - destruct (zlen (span_free bare_reject bs) =? zlen bs).
      + by apply xstpencpy_text_exact.
      + done. }
  destruct (negb (shell flags)) eqn:Hsh.
  - cbn [rbind orb] in *. rewrite xstpencpy_text_exact by done.
    cbn [rbind]. by destruct bs.
  - cbn [rbind orb] in *.
    destruct (zlen (span_free bare_reject bs) =? zlen bs).
    + rewrite xstpencpy_text_exact by done. cbn [rbind]. by destruct bs.
    + rewrite Hbare. cbn [rbind].
      by destruct (if zlen (span_free quotable_reject bs) =? zlen bs
                   then [c_dquote] ++ bs ++ [c_dquote]
                   else single_quote_spec bs false).
Qed.

Lemma wordnesc_text_spec fuel flags bs rest n :
  Forall (fun c => c <> NUL) bs ->
  NUL ∈ rest ->
  zlen (bs ++ rest) <= PTRDIFF_MAX ->
  strnlen (bs ++ rest) n = Ok (zlen bs) ->
  (length bs < fuel)%nat ->
  complete_tail L (bs ++ rest) (zlen bs) ->
  exists pl,
    printable_len L fuel (bs ++ rest) (zlen bs) flags = Ok pl /\
    wordnesc_text L fuel (bs ++ rest) n flags
    = Ok (wordnesc_spec L fuel flags bs pl).
Proof.
  intros Hnn Hrest Hb Hlen Hf Htail.
  by apply wordnesc_text_selected.
Qed.

End WordnescText.

(** ** The UTF-8 locale meets the assumptions *)

Module Utf8Facts.

Lemma continuation_char need :
  forall lo hi acc k t wc k',
    128 <= lo ->
    Utf8.continuation need lo hi acc k t = Utf8.Char wc k' ->
    k' = k + Z.of_nat need /\ (need <= length t)%nat /\
    Forall (fun c => 128 <= byte_val c) (take need t).
Proof.
  induction need as [|need IH]; intros lo hi acc k t wc k' Hlo; simpl.
  - intros [= <- <-]. split; [lia|]. split; [lia|]. rewrite take_0.
    constructor.
  - destruct t as [|b t]; [done|].
    destruct ((lo <=? byte_val b) && (byte_val b <=? hi)) eqn:E; [|done].
    intros Hc. apply IH in Hc as (-> & Hlen & Hall); [|lia].
    split; [lia|]. split; [simpl; lia|]. simpl. constructor; [lia|done].
Qed.

Lemma continuation_incomplete need :
  forall lo hi acc k t,
    128 <= lo ->
    Utf8.continuation need lo hi acc k t = Utf8.Incomplete ->
    Forall (fun c => 128 <= byte_val c) t.
Proof.
  induction need as [|need IH]; intros lo hi acc k t Hlo; simpl; [done|].
  destruct t as [|b t]; [constructor|].
  destruct ((lo <=? byte_val b) && (byte_val b <=? hi)) eqn:E; [|done].
  intros Hc. apply IH in Hc; [|lia]. constructor; [lia|done].
Qed.

Lemma byte_val_range b : 0 <= byte_val b < 256.
Proof. destruct b; vm_compute; split; congruence. Qed.

Lemma byte_val_zero b : byte_val b = 0 -> b = NUL.
Proof. destruct b; vm_compute; congruence. Qed.

Lemma blank_high c : 128 <= byte_val c -> blank_byte c = false.
Proof.
  destruct c; try reflexivity; intros H; vm_compute in H; by destruct H.
Qed.

Lemma decode_char b t wc k :
  Utf8.decode (b :: t) = Utf8.Char wc k ->
  0 <= k <= zlen (b :: t) /\
  (k = 0 -> b = NUL) /\
  (k = 1 -> wc = byte_val b) /\
  (2 <= k -> Forall (fun c => 128 <= byte_val c) (ztake k (b :: t))).
Proof.
  unfold Utf8.decode. pose proof (byte_val_range b) as Hv.
  pose proof (zlen_nonneg t) as Ht. rewrite zlen_cons.
  destruct (byte_val b =? 0) eqn:E0.
  { intros [= <- <-]. split; [lia|]. split; [|split; [lia|lia]].
    intros _. apply byte_val_zero. lia. }
  destruct (byte_val b <? 128) eqn:E1.
  { intros [= <- <-]. split; [lia|]. split; [lia|]. split; [done|lia]. }
  destruct (byte_val b <? 194) eqn:E2; [done|].
  assert (Hcont : forall need lo hi acc,
    128 <= lo -> (1 <= need)%nat ->
    Utf8.continuation need lo hi acc 1 t = Utf8.Char wc k ->
    0 <= k <= 1 + zlen t /\ (k = 0 -> b = NUL) /\ (k = 1 -> wc = byte_val b) /\
    (2 <= k -> Forall (fun c => 128 <= byte_val c) (ztake k (b :: t)))).
  { intros need lo hi acc Hlo Hneed Hc.
    apply continuation_char in Hc as (-> & Hlen & Hall); [|done].
    split; [unfold zlen; lia|]. split; [lia|]. split; [lia|].
    intros _. rewrite ztake_cons by lia. constructor; [lia|].
    unfold ztake. replace (Z.to_nat (1 + Z.of_nat need - 1)) with need by lia.
    done. }
  repeat match goal with
         | |- context [if ?c then _ else _] => destruct c
         end;
    try done; intros Hc; eapply Hcont; try apply Hc; lia.
Qed.

Lemma decode_incomplete s :
  Utf8.decode s = Utf8.Incomplete ->
  Forall (fun c => 128 <= byte_val c) s.
Proof.
  destruct s as [|b t]; [constructor|].
  unfold Utf8.decode. pose proof (byte_val_range b) as Hv.
  destruct (byte_val b =? 0) eqn:E0; [done|].
  destruct (byte_val b <? 128) eqn:E1; [done|].
  destruct (byte_val b <? 194) eqn:E2; [done|].
  repeat match goal with
         | |- context [if ?c then _ else _] => destruct c
         end;
    try done; intros Hc; apply continuation_incomplete in Hc; try lia;
    (constructor; [lia|done]).
Qed.

Lemma mbrtowc_char bs wc k st :
  Utf8.mbrtowc bs [] = MbChar wc k st ->
  exists k0, Utf8.decode bs = Utf8.Char wc k0 /\
             k = (if k0 =? 0 then 0 else k0) /\ st = [].
Proof.
  unfold Utf8.mbrtowc. simpl.
  destruct (Utf8.decode bs) as [| |wc0 k0]; try done.
  intros [= <- <- <-]. exists k0. split; [done|]. split; [|done].
  change (zlen (@nil byte)) with 0. destruct (k0 =? 0); lia.
Qed.

Lemma conforming_utf8 : conforming Utf8.loc.
Proof.
  constructor. intros bs wc k st Hmb.
  apply mbrtowc_char in Hmb as (k0 & Hd & -> & ->).
  destruct bs as [|b t]; [done|].
  apply decode_char in Hd as (Hk & H0 & _).
  split; [destruct (k0 =? 0) eqn:E; lia|]. split; [|done].
  intros Hz. assert (k0 = 0) by (destruct (k0 =? 0) eqn:E; lia).
  rewrite H0 by done. apply elem_of_cons. by left.
Qed.

Lemma shell_locale_utf8 : shell_locale Utf8.loc.
Proof.
  constructor.
  - intros c Hc. destruct c; try discriminate Hc; reflexivity.
  - intros c Hc. destruct c; try discriminate Hc; reflexivity.
  - intros b rest wc st Hmb Hb.
    apply mbrtowc_char in Hmb as (k0 & Hd & Hk & ->).
    apply decode_char in Hd as (_ & _ & H1 & _). apply H1.
    destruct (k0 =? 0) eqn:E; lia.
  - intros bs wc k st Hmb Hk.
    apply mbrtowc_char in Hmb as (k0 & Hd & -> & ->).
    destruct bs as [|b t]; [done|].
    apply decode_char in Hd as (_ & _ & _ & H2).
    assert (k0 <> 0) by (destruct (k0 =? 0) eqn:E; lia).
    replace (k0 =? 0) with false in * by lia.
    eapply Forall_impl; [by apply H2|]. intros c. apply blank_high.
  - intros bs st Hmb. unfold Utf8.loc, Utf8.mbrtowc in Hmb. simpl in Hmb.
    destruct (Utf8.decode bs) eqn:Hd; try done.
    eapply Forall_impl; [by apply decode_incomplete|].
    intros c. apply blank_high.
Qed.

End Utf8Facts.

(** ** Running an emitter from a fresh region *)

Lemma emits_fits b0 s e f t txt :
  emits b0 s e f t ->
  t = Ok txt ->
  0 <= s < e -> e <= zlen b0 -> zlen b0 <= PTRDIFF_MAX ->
  zlen txt < e - s ->
  exists buf',
    f s b0 = WOk (s + zlen txt) buf' /\
    bytes_between buf' s (s + zlen txt) = txt /\
    (txt <> [] -> load buf' (s + zlen txt) = Some NUL).
Proof.
  intros Hf -> Hs He Hb Hfit.
  specialize (Hf [] s b0 (written_init b0 s e Hs He Hb)).
  destruct (f s b0) as [r buf'| |flt]; [|done|by destruct (Hf txt)].
  destruct Hf as (txt' & Hw & Ht & _). simpl in Hw.
  specialize (Ht _ eq_refl). subst txt'.
  pose proof (written_cursor _ _ _ _ _ _ Hw) as Hc.
  replace (zlen txt <? e - s) with true in Hc by lia. subst r.
  exists buf'. split; [done|]. split.
  - apply (written_bytes_fit _ _ _ _ _ _ Hw). lia.
  - intros Hne. pose proof (written_terminated _ _ _ _ _ _ Hw Hne) as Hn.
    by replace (s + zlen txt <? e) with true in Hn by lia.
Qed.

Lemma emits_total b0 s e f t txt out d buf :
  emits b0 s e f t ->
  t = Ok txt ->
  written b0 s e out d buf ->
  exists r buf', f d buf = WOk r buf'.
Proof.
  intros Hf -> Hw. specialize (Hf out d buf Hw).
  destruct (f d buf) as [r buf'| |flt]; [by eauto|done|by destruct (Hf txt)].
Qed.

Lemma strnlen_total str n :
  NUL ∈ str -> exists len, strnlen str n = Ok len.
Proof.
  revert n. induction str as [|c t IH]; intros n Hin.
  { by apply elem_of_nil in Hin. }
  simpl. destruct (n <=? 0); [by eauto|].
  destruct (Byte.eqb c NUL) eqn:E; [by eauto|].
  apply elem_of_cons in Hin as [Hc|Hin].
  { apply byte_eqb_neq in E. congruence. }
  destruct (IH (n - 1) Hin) as (r & ->). simpl. by eauto.
Qed.

(** * The claims *)

Lemma input_split str len :
  0 <= len <= zlen str ->
  Forall (fun c => c <> NUL) (ztake len str) ->
  NUL ∈ str ->
  exists bs rest,
    str = bs ++ rest /\ zlen bs = len /\ bs = ztake len str /\ NUL ∈ rest.
Proof.
  intros Hlen Hnn Hin.
  exists (ztake len str), (zdrop len str).
  split; [symmetry; apply ztake_zdrop|]. split; [apply zlen_ztake; lia|].
  split; [done|].
  rewrite <- (ztake_zdrop len str) in Hin.
  apply elem_of_app in Hin as [Hin|Hin]; [|done].
  rewrite Forall_forall in Hnn. by destruct (Hnn NUL Hin).
Qed.

Lemma single_quote_text_input fuel str len :
  0 <= len <= zlen str -> zlen str <= PTRDIFF_MAX ->
  Forall (fun c => c <> NUL) (ztake len str) ->
  NUL ∈ str ->
  (Z.to_nat len < fuel)%nat ->
  single_quote_text fuel str len
  = Ok (single_quote_spec (ztake len str) false).
Proof.
  intros Hlen Hb Hnn Hin Hf.
  destruct (input_split str len Hlen Hnn Hin)
    as (bs & rest & Hstr & Hbs & Htk & Hrest).
  rewrite <- Htk. rewrite Hstr, <- Hbs.
  apply single_quote_loop_text_spec; try done.
  - by rewrite Htk.
  - by rewrite <- Hstr.
  - unfold zlen in Hbs. lia.
Qed.

(** C8.  SingleQuoted encoding.  On an input without NUL among its first
    [len] bytes, and in a buffer that is large enough, [single_quote] leaves
    between [dest] and the cursor it returns exactly the rendering of the
    two-state machine [single_quote_spec]: every quote of the input is the
    two bytes backslash-quote outside a quoted run and every other byte
    stands inside a run.  Read back run by run ([quote_runs]) that text
    gives the input bytes, so every run is closed and none is left open at
    the end.  (At [it's] the text is ['it'\''s'], see the witness.) *)
Theorem single_quote_encoding fuel b0 s e str len :
  0 <= s < e -> e <= zlen b0 -> zlen b0 <= PTRDIFF_MAX ->
  0 <= len <= zlen str -> zlen str <= PTRDIFF_MAX ->
  Forall (fun c => c <> NUL) (ztake len str) ->
  NUL ∈ str ->
  (Z.to_nat len < fuel)%nat ->
  zlen (single_quote_spec (ztake len str) false) < e - s ->
  exists r buf',
    single_quote fuel s e str len b0 = WOk r buf' /\
    bytes_between buf' s r = single_quote_spec (ztake len str) false /\
    quote_runs false (bytes_between buf' s r) = Some (ztake len str).
Proof.
  intros Hs He Hb Hlen Hbs Hnn Hin Hf Hcap.
  destruct (emits_fits b0 s e _ _ _ (emits_single_quote b0 s e fuel str len)
              (single_quote_text_input fuel str len Hlen Hbs Hnn Hin Hf)
              Hs He Hb Hcap) as (buf' & Hrun & Hbytes & _).
  exists (s + zlen (single_quote_spec (ztake len str) false)), buf'.
  split; [done|]. split; [done|]. rewrite Hbytes. apply quote_runs_spec.
Qed.

Lemma single_quote_encoding_witness :
  exists r buf',
    single_quote 5 0 16 (lit "it's") 4 (fresh 16) = WOk r buf' /\
    bytes_between buf' 0 r = String.list_byte_of_string "'it'\''s'" /\
    quote_runs false (bytes_between buf' 0 r)
    = Some (String.list_byte_of_string "it's").
Proof.
  apply (single_quote_encoding 5 (fresh 16) 0 16 (lit "it's") 4).
  - lia.
  - by vm_compute.
  - by vm_compute.
  - by vm_compute.
  - by vm_compute.
  - repeat constructor; discriminate.
  - apply list_elem_of_In. vm_compute. tauto.
  - vm_compute. lia.
  - by vm_compute.
Defined.

(** A NUL among the first [len] bytes keeps [single_quote] from finishing,
    whatever the fuel. *)
Lemma single_quote_nul_diverges fuel :
  forall d e open buf,
    single_quote_loop fuel d e [NUL] 1 open buf = WErr NoFuel.
Proof.
  induction fuel as [|fuel IH]; intros d e open buf; [done|].
  assert (Hrun : single_quote_run fuel d e [NUL] 1 open buf
                 = WOk (d, ([NUL], 1, open)) buf) by (by destruct fuel).
  cbn [single_quote_loop]. change (0 <? 1) with true. cbv iota.
  unfold bind at 1, lift at 1. change (strcspn [NUL] (lit "'")) with (@Ok Z 0).
  cbv iota beta. change (0 <? 1) with true. cbv iota.
  change (0 <? 0) with false. cbv iota.
  unfold bind at 1, ret at 1. cbv iota beta.
  unfold bind at 1. rewrite Hrun. apply IH.
Qed.

(** C10.  Termination of the single-quote emitter.  With no NUL among the
    first [len] bytes of the string [str], [single_quote] returns once its
    fuel, which bounds the iterations of the outer loop, exceeds [len]:
    every iteration consumes at least one byte.  The length that [wordnesc]
    passes, [strnlen(str, n)], satisfies this precondition. *)
Theorem single_quote_terminates fuel b0 s e str len n :
  0 <= s < e -> e <= zlen b0 -> zlen b0 <= PTRDIFF_MAX ->
  0 <= len <= zlen str -> zlen str <= PTRDIFF_MAX ->
  NUL ∈ str ->
  (Z.to_nat len < fuel)%nat ->
  (Forall (fun c => c <> NUL) (ztake len str) ->
   exists r buf', single_quote fuel s e str len b0 = WOk r buf') /\
  (strnlen str n = Ok len -> Forall (fun c => c <> NUL) (ztake len str)).
Proof.
  intros Hs He Hb Hlen Hbs Hin Hf. split.
  - intros Hnn.
    apply (emits_total b0 s e _ _ _ [] s b0
             (emits_single_quote b0 s e fuel str len)
             (single_quote_text_input fuel str len Hlen Hbs Hnn Hin Hf)).
    by apply written_init.
  - apply strnlen_no_nul.
Qed.

Lemma single_quote_terminates_witness :
  (exists r buf', single_quote 5 0 16 (lit "it's") 4 (fresh 16) = WOk r buf') /\
  Forall (fun c => c <> NUL) (ztake 4 (lit "it's")).
Proof.
  destruct (single_quote_terminates 5 (fresh 16) 0 16 (lit "it's") 4 SIZE_MAX)
    as [Hrun Hpre].
  - lia.
  - by vm_compute.
  - by vm_compute.
  - by vm_compute.
  - by vm_compute.
  - apply list_elem_of_In. vm_compute. tauto.
  - vm_compute. lia.
  - split; [apply Hrun, Hpre|apply Hpre]; reflexivity.
Defined.

Lemma wordnesc_text_empty L fuel str n flags :
  strnlen str n = Ok 0 -> NUL ∈ str ->
  wordnesc_text L fuel str n flags = Ok [c_dquote; c_dquote].
Proof.
  intros Hlen Hin. unfold wordnesc_text, wordnesc_body_text.
  rewrite Hlen. cbn [rbind].
  assert (Hpl : printable_len L fuel str 0 flags = Ok 0) by (by destruct fuel).
  rewrite Hpl. cbn [rbind]. change (0 <? 0) with false. cbv iota.
  destruct (strcspn_total str bare_reject Hin) as (r & Hr & Hr0).
  assert (Hx : xstpencpy_text str 0 = Ok []).
  { unfold xstpencpy_text. by destruct str. }
  unfold bare_len. rewrite Hr. cbn [rbind].
  replace (r <? 0) with false by lia. change (0 =? 0) with true.
  destruct (negb (shell flags)); cbn [rbind]; rewrite Hx; done.
Qed.

(** C9.  Empty input.  For every flavor, when the length that [wordnesc]
    considers is 0 (the string is empty or the bound [n] is 0) and the
    buffer has room for three bytes, the text written is the two double
    quotes followed by the terminator, and the cursor returned is two bytes
    after [dest]: the output is never empty. *)
Theorem wordnesc_empty L fuel b0 s e str n flags :
  0 <= s -> s + 3 <= e -> e <= zlen b0 -> zlen b0 <= PTRDIFF_MAX ->
  strnlen str n = Ok 0 -> NUL ∈ str ->
  exists buf',
    wordnesc L fuel s e str n flags b0 = WOk (s + 2) buf' /\
    bytes_between buf' s (s + 2) = [c_dquote; c_dquote] /\
    load buf' (s + 2) = Some NUL.
Proof.
  intros Hs Hcap He Hb Hlen Hin.
  pose proof (wordnesc_written L fuel b0 s e str n flags ltac:(lia) He Hb)
    as Hw.
  pose proof (wordnesc_text_empty L fuel str n flags Hlen Hin) as Ht.
  destruct (wordnesc L fuel s e str n flags b0) as [r buf'| |flt];
    [|done|by destruct (Hw [c_dquote; c_dquote])].
  destruct Hw as (txt & Hw & Hne & Htxt & _).
  specialize (Htxt _ Ht). subst txt.
  pose proof (written_cursor _ _ _ _ _ _ Hw) as Hc.
  change (zlen [c_dquote; c_dquote]) with 2 in Hc.
  replace (2 <? e - s) with true in Hc by lia. subst r.
  exists buf'. split; [done|]. split.
  - apply (written_bytes_fit _ _ _ _ _ _ Hw). lia.
  - pose proof (written_terminated _ _ _ _ _ _ Hw Hne) as Hn.
    by replace (s + 2 <? e) with true in Hn by lia.
Qed.

Lemma wordnesc_empty_witness :
  exists buf',
    wordnesc Utf8.loc 1 0 8 [NUL] SIZE_MAX WESC_SHELL (fresh 8)
    = WOk 2 buf' /\
    bytes_between buf' 0 2 = [c_dquote; c_dquote] /\
    load buf' 2 = Some NUL.
Proof.
  apply (wordnesc_empty Utf8.loc 1 (fresh 8) 0 8 [NUL] SIZE_MAX WESC_SHELL).
  - lia.
  - lia.
  - by vm_compute.
  - by vm_compute.
  - reflexivity.
  - apply list_elem_of_In. simpl. tauto.
Defined.

(** C4.  Bare-word scan.  The reject set in the code is not the one of the
    specification: it lacks the tilde and has the two bytes 0xCB and 0x9C
    instead.  On the string [~] the code returns 1 where the longest prefix
    without an unsafe byte has length 0; on the byte 0xCB it returns 0
    where that prefix has length 1.  On every other byte the two sets
    agree. *)
Theorem bare_len_reject_set :
  bare_len [c_tilde; NUL] 1 = Ok 1 /\
  zlen (span_free bare_reject_spec [c_tilde]) = 0 /\
  bare_len [xcb; NUL] 1 = Ok 0 /\
  zlen (span_free bare_reject_spec [xcb]) = 1 /\
  forall c, c <> c_tilde -> c <> xcb -> c <> x9c ->
            strchr_in bare_reject c = strchr_in bare_reject_spec c.
Proof.
  repeat split; try reflexivity.
  intros c H1 H2 H3.
  destruct c; try reflexivity;
    [by destruct H1|by destruct H3|by destruct H2].
Qed.

(** C5.  Decoder progress.  On an incomplete sequence at the end of the
    buffer the code adds [len] to the offset instead of setting the offset
    to [len]: in the UTF-8 locale, at offset 1 of the two bytes [a] and
    0xC3, the new offset is 3, past the length 2.  At offset 0 the two
    coincide. *)
Theorem xmbrtowc_incomplete_offset :
  xmbrtowc Utf8.loc 1 [x61; xc3; NUL] 2 []
  = Ok (-1, None, 3, [xc3]) /\
  ~ 3 <= 2 /\
  xmbrtowc Utf8.loc 0 [xc3; NUL] 1 [] = Ok (-1, None, 1, [xc3]).
Proof. repeat split; try reflexivity. lia. Qed.

(** C2.  Strategy selection.  Given the results of the scans, [wordnesc]
    runs exactly one emitter, the one [select_strategy] names, and then
    writes the two double quotes if that emitter left the cursor where it
    was.  The choice is DollarQuoted iff [printable_len < len]; otherwise
    Bare iff the flavor is not shell or [bare_len = len]; otherwise
    DoubleQuoted iff [quotable_len = len]; otherwise SingleQuoted. *)
Theorem wordnesc_strategy L fuel dest end_ str n flags len pl bl ql buf :
  strnlen str n = Ok len ->
  printable_len L fuel str len flags = Ok pl ->
  bare_len str len = Ok bl ->
  quotable_len str len = Ok ql ->
  let st := select_strategy (shell flags) len pl bl ql in
  wordnesc L fuel dest end_ str n flags buf
  = (d <- run_emitter L fuel st dest end_ str len flags ;;
     if d =? dest then xstpecpy d end_ [c_dquote; c_dquote; NUL]
     else ret d)%cmd buf /\
  (st = DollarQuoted <-> pl < len) /\
  (st = Bare <-> ~ pl < len /\ (shell flags = false \/ bl = len)) /\
  (st = DoubleQuoted <->
     ~ pl < len /\ ~ (shell flags = false \/ bl = len) /\ ql = len) /\
  (st = SingleQuoted <->
     ~ pl < len /\ ~ (shell flags = false \/ bl = len) /\ ql <> len).
Proof.
  intros Hlen Hpl Hbl Hql st. split.
  - unfold wordnesc, bind, lift, ret. rewrite Hlen, Hpl.
    subst st. unfold select_strategy, run_emitter.
    destruct (pl <? len); [done|].
    destruct (shell flags); cbn [negb orb]; [|done].
    rewrite Hbl. destruct (bl =? len); [done|].
    rewrite Hql. by destruct (ql =? len).
  - subst st. unfold select_strategy.
    destruct (pl <? len) eqn:E1, (shell flags) eqn:E2, (bl =? len) eqn:E3,
      (ql =? len) eqn:E4; cbn [negb orb];
      repeat split; intros; try done; try lia;
      repeat match goal with
             | H : _ /\ _ |- _ => destruct H
             | H : _ \/ _ |- _ => destruct H
             | H : ~ (_ \/ _) |- _ =>
                 exfalso; apply H; (by left) || (right; lia)
             | |- ~ _ => intros ?
             end; try done; try lia.
Qed.

Lemma wordnesc_strategy_witness :
  wordnesc Utf8.loc 4 0 16 (lit "a b") SIZE_MAX WESC_SHELL (fresh 16)
  = (d <- double_quote 0 16 (lit "a b") 3 ;;
     if d =? 0 then xstpecpy d 16 [c_dquote; c_dquote; NUL]
     else ret d)%cmd (fresh 16).
Proof.
  apply (wordnesc_strategy Utf8.loc 4 0 16 (lit "a b") SIZE_MAX WESC_SHELL
           3 3 1 3 (fresh 16)); reflexivity.
Defined.

Lemma store_ok a v buf buf' :
  store a v buf = WOk tt buf' ->
  0 <= a < zlen buf /\ buf' = <[Z.to_nat a := v]> buf.
Proof.
  unfold store. destruct ((0 <=? a) && (a <? zlen buf)) eqn:E; [|done].
  intros [= <-]. split; [lia|done].
Qed.

Lemma load_insert a v buf :
  0 <= a < zlen buf -> load (<[Z.to_nat a := v]> buf) a = Some v.
Proof.
  intros Ha. unfold load. replace (a <? 0) with false by lia.
  apply list_lookup_insert_eq. unfold zlen in Ha. lia.
Qed.

Lemma load_insert_ne a a' v buf :
  0 <= a -> a' <> a -> load (<[Z.to_nat a := v]> buf) a' = load buf a'.
Proof.
  intros Ha Hne. unfold load. destruct (a' <? 0) eqn:E; [done|].
  apply list_lookup_insert_ne. lia.
Qed.

Lemma xstpencpy_terminator d e src n buf d' buf' :
  0 <= e - d < 2 ^ 64 ->
  xstpencpy d e src n buf = WOk d' buf' ->
  load buf' (if d' <? e then d' else e - 1) = Some NUL.
Proof.
  intros Hd. unfold xstpencpy. rewrite wrap_small by done.
  unfold bind at 1, lift at 1.
  destruct (strnlen src _) as [m|] eqn:Hm; [|done].
  pose proof (strnlen_range _ _ _ Hm) as Hr.
  unfold bind at 1. destruct (memcpy d src m buf) as [[] buf1| |]; try done.
  destruct (m <? e - d) eqn:E.
  - unfold bind, ret. destruct (store (d + m) NUL buf1) as [[] buf2| |] eqn:Hs;
      try done.
    intros [= <- <-]. apply store_ok in Hs as [Hin ->].
    replace (d + m <? e) with true by lia. by apply load_insert.
  - unfold bind, ret. destruct (store (e - 1) NUL buf1) as [[] buf2| |] eqn:Hs;
      try done.
    intros [= <- <-]. apply store_ok in Hs as [Hin ->].
    replace (e <? e) with false by lia. by apply load_insert.
Qed.

Lemma xstpencpy_at_end e src n buf :
  0 < e <= zlen buf ->
  xstpencpy e e src n buf = WOk e (<[Z.to_nat (e - 1) := NUL]> buf).
Proof.
  intros He. unfold xstpencpy. replace (e - e) with 0 by lia.
  change (wrap 0) with 0.
  assert (Hn0 : strnlen src (if 0 <? n then 0 else n) = Ok 0).
  { destruct (0 <? n) eqn:E; destruct src; simpl; try done.
    - replace (n <=? 0) with true by lia. done.
    - replace (n <=? 0) with true by lia. done. }
  unfold bind, lift, ret. rewrite Hn0. unfold memcpy. simpl.
  unfold store. replace ((0 <=? e - 1) && (e - 1 <? zlen buf)) with true by lia.
  done.
Qed.

Lemma xstpencpy_region_safe buf dest d end_ src n :
  0 <= dest < end_ -> dest <= d <= end_ ->
  end_ <= zlen buf -> zlen buf <= PTRDIFF_MAX ->
  match xstpencpy d end_ src n buf with
  | WOk d' buf' => d <= d' /\ region_safe dest end_ buf d' buf'
  | WriteOOB => False
  | WErr _ => True
  end.
Proof.
  intros Hdest Hd He Hb.
  destruct (decide (d = end_)) as [->|Hne].
  - rewrite xstpencpy_at_end by lia. split; [lia|]. split; [lia|].
    split; [by rewrite length_insert|]. split.
    + intros a Ha. apply load_insert_ne; lia.
    + exists (end_ - 1). split; [lia|]. apply load_insert. lia.
  - pose proof (emits_xstpencpy buf d end_ src n [] d buf
                  (written_init buf d end_ ltac:(lia) He Hb)) as Hx.
    cbv beta in Hx.
    destruct (xstpencpy d end_ src n buf) as [d' buf'| |flt] eqn:Hrun;
      [|done|done].
    destruct Hx as (txt & Hw & _). simpl in Hw.
    pose proof (written_cursor_range _ _ _ _ _ _ Hw) as Hr.
    split; [lia|]. split; [lia|].
    split; [by eapply written_length|]. split.
    + intros a Ha. apply (written_frame _ _ _ _ _ _ a Hw). lia.
    + exists (if d' <? end_ then d' else end_ - 1).
      split; [destruct (d' <? end_) eqn:?; lia|].
      apply (xstpencpy_terminator d end_ src n buf d' buf'); [|done].
      unfold PTRDIFF_MAX in Hb. lia.
Qed.

(** C3.  Truncation safety.  For a region of capacity at least 1 inside
    the destination object, [wordnesc] never stores outside the object, and
    whenever it returns, the cursor is inside the region, every byte outside
    the region is what it was, and a terminator stands inside the region;
    the same holds of every single call of [xstpencpy] with a cursor in the
    region.  [wordnesc] does return when the locale conforms, the input is
    a string, the fuel exceeds its length and no incomplete sequence is
    reported after its start. *)
Theorem wordnesc_truncation_safe L fuel buf dest end_ str n flags :
  0 <= dest < end_ -> end_ <= zlen buf -> zlen buf <= PTRDIFF_MAX ->
  match wordnesc L fuel dest end_ str n flags buf with
  | WOk r buf' => region_safe dest end_ buf r buf'
  | WriteOOB => False
  | WErr _ => True
  end /\
  (forall b d src k,
     zlen b = zlen buf -> dest <= d <= end_ ->
     match xstpencpy d end_ src k b with
     | WOk d' b' => d <= d' /\ region_safe dest end_ b d' b'
     | WriteOOB => False
     | WErr _ => True
     end) /\
  (conforming L -> NUL ∈ str -> zlen str <= PTRDIFF_MAX ->
   (forall len, strnlen str n = Ok len ->
                (Z.to_nat len < fuel)%nat /\ complete_tail L str len) ->
   exists r buf', wordnesc L fuel dest end_ str n flags buf = WOk r buf').
Proof.
  intros Hdest He Hb.
  pose proof (wordnesc_written L fuel buf dest end_ str n flags Hdest He Hb)
    as Hw.
  split; [|split].
  - destruct (wordnesc L fuel dest end_ str n flags buf) as [r buf'| |flt];
      [|done|done].
    destruct Hw as (txt & Hw & Hne & _).
    pose proof (written_cursor_range _ _ _ _ _ _ Hw) as Hr.
    split; [done|]. split; [by eapply written_length|]. split.
    + intros a Ha. by apply (written_frame _ _ _ _ _ _ a Hw).
    + exists (if r <? end_ then r else end_ - 1).
      split; [destruct (r <? end_) eqn:?; lia|].
      by apply (written_terminated _ _ _ _ _ _ Hw).
  - intros b d src k Hlen Hd.
    apply xstpencpy_region_safe; try done; lia.
  - intros HL Hin Hbs Hfuel.
    destruct (strnlen_total str n Hin) as (len & Hlen).
    destruct (Hfuel len Hlen) as [Hf Htail].
    destruct (cstring_split str n len Hlen Hin)
      as (bs & rest & Hstr & Hbl & Htk & Hnn & Hrest).
    destruct (wordnesc_text_spec L HL fuel flags bs rest n Hnn Hrest
                ltac:(by rewrite <- Hstr)
                ltac:(by rewrite <- Hstr, Hbl)
                ltac:(unfold zlen in Hbl; lia)
                ltac:(by rewrite <- Hstr, Hbl))
      as (pl & _ & Htxt).
    rewrite <- Hstr in Htxt.
    destruct (wordnesc L fuel dest end_ str n flags buf) as [r buf'| |flt];
      [by eauto|done|].
    by destruct (Hw _ Htxt).
Qed.

Lemma complete_tail_hello : complete_tail Utf8.loc (lit "hello") 5.
Proof.
  intros i st Hi.
  assert (i = 1 \/ i = 2 \/ i = 3 \/ i = 4) as Hc by lia.
  destruct Hc as [->|[->|[->| ->]]]; vm_compute; discriminate.
Qed.

Lemma wordnesc_truncation_safe_witness :
  match wordnesc Utf8.loc 6 0 3 (lit "hello") SIZE_MAX WESC_SHELL (fresh 3) with
  | WOk r buf' => region_safe 0 3 (fresh 3) r buf'
  | WriteOOB => False
  | WErr _ => True
  end /\
  exists r buf',
    wordnesc Utf8.loc 6 0 3 (lit "hello") SIZE_MAX WESC_SHELL (fresh 3)
    = WOk r buf'.
Proof.
  destruct (wordnesc_truncation_safe Utf8.loc 6 (fresh 3) 0 3 (lit "hello")
              SIZE_MAX WESC_SHELL) as (Hsafe & _ & Hret).
  - lia.
  - by vm_compute.
  - by vm_compute.
  - split; [exact Hsafe|]. apply Hret.
    + apply Utf8Facts.conforming_utf8.
    + apply list_elem_of_In. vm_compute. tauto.
    + by vm_compute.
    + intros len Hlen. injection Hlen as <-. split.
      * vm_compute. lia.
      * apply complete_tail_hello.
Defined.

(** ** The text has no terminator inside *)

Lemma xstpencpy_text_no_nul src n txt :
  xstpencpy_text src n = Ok txt -> Forall (fun c => c <> NUL) txt.
Proof.
  unfold xstpencpy_text. destruct (strnlen src n) as [m|] eqn:E; [|done].
  intros [= <-]. by eapply strnlen_no_nul.
Qed.

Lemma xstpecpy_text_no_nul src txt :
  xstpecpy_text src = Ok txt -> Forall (fun c => c <> NUL) txt.
Proof. apply xstpencpy_text_no_nul. Qed.

Lemma opt_text_no_nul (c : bool) src txt :
  (if c then xstpecpy_text src else Ok []) = Ok txt -> Forall (fun c => c <> NUL) txt.
Proof.
  destruct c; [apply xstpecpy_text_no_nul|]. by intros [= <-].
Qed.

Lemma double_quote_text_no_nul str len txt :
  double_quote_text str len = Ok txt -> Forall (fun c => c <> NUL) txt.
Proof.
  unfold double_quote_text.
  destruct (xstpecpy_text [c_dquote; NUL]) as [a|] eqn:Ea; [|done].
  destruct (xstpencpy_text str len) as [b|] eqn:Eb; [|done].
  cbn [rbind]. intros [= <-]. rewrite !Forall_app.
  split_and!; eauto using xstpecpy_text_no_nul, xstpencpy_text_no_nul.
Qed.

Lemma single_quote_run_text_no_nul fuel :
  forall str len open txt st,
    single_quote_run_text fuel str len open = Ok (txt, st) ->
    Forall (fun c => c <> NUL) txt.
Proof.
  induction fuel as [|fuel IH]; intros str len open txt st;
    cbn [single_quote_run_text].
  - destruct (0 <? len); [|by intros [= <- _]].
    destruct (rload str 0) as [c|]; [|done]. cbn [rbind].
    destruct (Byte.eqb c c_squote); [done|by intros [= <- _]].
  - destruct (0 <? len); [|by intros [= <- _]].
    destruct (rload str 0) as [c|]; [|done]. cbn [rbind].
    destruct (Byte.eqb c c_squote); [|by intros [= <- _]].
    destruct (if open then xstpecpy_text (lit "'") else Ok []) as [a|] eqn:Ea;
      [|done].
    destruct (xstpecpy_text (lit "\'")) as [b|] eqn:Eb; [|done].
    cbn [rbind].
    destruct (single_quote_run_text fuel (zdrop 1 str) (wrap (len - 1)) false)
      as [[t st']|] eqn:Et; [|done].
    cbn [rbind]. intros [= <- _]. rewrite !Forall_app.
    split_and!; eauto using opt_text_no_nul, xstpecpy_text_no_nul.
Qed.

Lemma single_quote_loop_text_no_nul fuel :
  forall str len open txt,
    single_quote_loop_text fuel str len open = Ok txt -> Forall (fun c => c <> NUL) txt.
Proof.
  induction fuel as [|fuel IH]; intros str len open txt;
    cbn [single_quote_loop_text].
  { destruct (0 <? len); [done|].
    destruct open; [apply xstpecpy_text_no_nul|by intros [= <-]]. }
  destruct (0 <? len);
    [|destruct open; [apply xstpecpy_text_no_nul|by intros [= <-]]].
  destruct (strcspn str (lit "'")) as [chunk|]; [|done]. cbn [rbind].
  set (ch := if chunk <? len then chunk else len).
  destruct (0 <? ch).
  - destruct (if negb open then xstpecpy_text (lit "'") else Ok [])
      as [a|] eqn:Ea; [|done].
    cbn [rbind].
    destruct (xstpencpy_text str ch) as [b|] eqn:Eb; [|done]. cbn [rbind].
    destruct (single_quote_run_text fuel (zdrop ch str) (wrap (len - ch)) true)
      as [[t [[str' len'] open']]|] eqn:Et; [|done].
    cbn [rbind].
    destruct (single_quote_loop_text fuel str' len' open') as [c|] eqn:Ec;
      [|done].
    cbn [rbind]. intros [= <-]. rewrite !Forall_app.
    split_and!; eauto using opt_text_no_nul, xstpencpy_text_no_nul,
                  single_quote_run_text_no_nul.
  - cbn [rbind].
    destruct (single_quote_run_text fuel str len open)
      as [[t [[str' len'] open']]|] eqn:Et; [|done].
    cbn [rbind].
    destruct (single_quote_loop_text fuel str' len' open') as [c|] eqn:Ec;
      [|done].
    cbn [rbind]. intros [= <-]. rewrite !Forall_app.
    split_and!; eauto using single_quote_run_text_no_nul.
Qed.

Lemma dollar_bytes_text_no_nul cnt :
  forall str j txt, dollar_bytes_text cnt str j = Ok txt -> Forall (fun c => c <> NUL) txt.
Proof.
  induction cnt as [|cnt IH]; intros str j txt; cbn [dollar_bytes_text].
  { by intros [= <-]. }
  destruct (rload str j) as [byte|]; [|done]. cbn [rbind].
  destruct (match dollar_esc byte with
            | Some esc => xstpecpy_text esc
            | None => _
            end) as [a|] eqn:Ea; [|done].
  cbn [rbind].
  destruct (dollar_bytes_text cnt str (wrap (j + 1))) as [b|] eqn:Eb; [|done].
  cbn [rbind]. intros [= <-]. apply Forall_app. split; [|by eauto].
  destruct (dollar_esc byte) as [esc|].
  { by eapply xstpecpy_text_no_nul. }
  destruct (xstpecpy_text (lit "\x")) as [x|] eqn:Ex; [|done].
  cbn [rbind] in Ea.
  destruct (hex_at (byte_val byte / 16)) as [h1|]; [|done]. cbn [rbind] in Ea.
  destruct (xstpecpy_text h1) as [hi|] eqn:Eh; [|done]. cbn [rbind] in Ea.
  destruct (hex_at (byte_val byte mod 16)) as [h2|]; [|done].
  cbn [rbind] in Ea.
  destruct (xstpecpy_text h2) as [lo|] eqn:El; [|done]. cbn [rbind] in Ea.
  injection Ea as <-. rewrite !Forall_app.
  split_and!; eauto using xstpecpy_text_no_nul.
Qed.

Lemma dollar_loop_text_no_nul L fuel :
  forall str len flags i mb txt,
    dollar_loop_text L fuel str len flags i mb = Ok txt -> Forall (fun c => c <> NUL) txt.
Proof.
  induction fuel as [|fuel IH]; intros str len flags i mb txt;
    cbn [dollar_loop_text].
  { destruct (i <? len); [done|by intros [= <-]]. }
  destruct (i <? len); [|by intros [= <-]].
  destruct (xmbrtowc L i str len mb) as [[[[r wc] i'] mb']|]; [|done].
  cbn [rbind].
  destruct (dollar_scan _ str i _) as [safe|]; [|done]. cbn [rbind].
  destruct (if safe then _ else _) as [a|] eqn:Ea; [|done]. cbn [rbind].
  destruct (dollar_loop_text L fuel str len flags i' mb') as [b|] eqn:Eb;
    [|done].
  cbn [rbind]. intros [= <-]. apply Forall_app. split; [|by eauto].
  destruct safe;
    eauto using xstpencpy_text_no_nul, dollar_bytes_text_no_nul.
Qed.

Lemma wordnesc_text_no_nul L fuel str n flags txt :
  wordnesc_text L fuel str n flags = Ok txt -> Forall (fun c => c <> NUL) txt.
Proof.
  unfold wordnesc_text. destruct (strnlen str n) as [len|]; [|done].
  cbn [rbind].
  destruct (wordnesc_body_text L fuel str len flags) as [a|] eqn:Ea; [|done].
  cbn [rbind]. destruct a as [|c a].
  { apply xstpecpy_text_no_nul. }
  intros [= <-]. unfold wordnesc_body_text in Ea.
  destruct (printable_len L fuel str len flags) as [pl|]; [|done].
  cbn [rbind] in Ea. destruct (pl <? len).
  - unfold dollar_quote_text in Ea.
    destruct (xstpecpy_text (lit "$'")) as [x|] eqn:Ex; [|done].
    cbn [rbind] in Ea.
    destruct (dollar_loop_text L fuel str len flags 0 (mb_zero L))
      as [y|] eqn:Ey; [|done].
    cbn [rbind] in Ea.
    destruct (xstpecpy_text (lit "'")) as [z|] eqn:Ez; [|done].
    cbn [rbind] in Ea. injection Ea as Ea. rewrite <- Ea, !Forall_app.
    split_and!; eauto using xstpecpy_text_no_nul, dollar_loop_text_no_nul.
  - destruct (if negb (shell flags) then Ok true else _) as [bare|];
      [|done].
    cbn [rbind] in Ea. destruct bare.
    { by eapply xstpencpy_text_no_nul. }
    destruct (quotable_len str len) as [ql|]; [|done]. cbn [rbind] in Ea.
    destruct (ql =? len).
    + by eapply double_quote_text_no_nul.
    + by eapply single_quote_loop_text_no_nul.
Qed.

(** ** The C string left at [dest] *)

Lemma until_nul_app t rest :
  Forall (fun c => c <> NUL) t -> until_nul (t ++ NUL :: rest) = t.
Proof.
  induction 1 as [|c t Hc _ IH]; [done|].
  cbn [app until_nul]. rewrite (proj2 (byte_eqb_neq c NUL) Hc). by rewrite IH.
Qed.

Lemma written_text_at b0 s e out d buf :
  written b0 s e out d buf -> out <> [] ->
  Forall (fun c => c <> NUL) out ->
  text_at buf s = ztake (e - s - 1) out.
Proof.
  intros [(Hs & He & Hb) (region & -> & Hlen & Hreg)] Hne Hnn.
  unfold text_at.
  assert (Hd : zdrop s (ztake s b0 ++ region ++ zdrop e b0)
               = region ++ zdrop e b0).
  { unfold zdrop, ztake. rewrite drop_app_length'; [done|].
    rewrite length_take. unfold zlen in He. lia. }
  rewrite Hd. destruct (zlen out <? e - s) eqn:E.
  - destruct Hreg as (_ & Ht & Hnul). specialize (Hnul Hne).
    apply Z.ltb_lt in E.
    assert (Hr : region = out ++ NUL :: drop (S (length out)) region).
    { rewrite <- (take_drop_middle region (length out) NUL Hnul) at 1.
      f_equal. rewrite <- Ht at 2. unfold ztake, zlen.
      by rewrite Nat2Z.id. }
    rewrite Hr, <- app_assoc. cbn [app]. rewrite until_nul_app by done.
    unfold ztake. rewrite take_ge; [done|]. unfold zlen in E. lia.
  - destruct Hreg as (_ & ->). rewrite <- app_assoc. cbn [app].
    rewrite until_nul_app; [done|]. unfold ztake. by apply Forall_take.
Qed.




(** ** The length of the text *)

Lemma single_quote_spec_len bs :
  forall open,
    zlen (single_quote_spec bs open)
    <= 3 * zlen bs + (if open : bool then 1 else 0).
Proof.
  induction bs as [|c t IH]; intros open.
  - destruct open; unfold zlen; simpl; lia.
  - simpl. rewrite zlen_cons.
    destruct (Byte.eqb c c_squote).
    + specialize (IH false). destruct open;
        rewrite ?zlen_app, ?zlen_cons in *; unfold zlen in *; simpl in *; lia.
    + specialize (IH true). destruct open;
        rewrite ?zlen_app, ?zlen_cons in *; unfold zlen in *; simpl in *; lia.
Qed.

Lemma escapes_len unit : zlen (concat (map escape_byte unit)) <= 4 * zlen unit.
Proof.
  induction unit as [|c t IH]; [done|].
  cbn [map concat]. rewrite zlen_app, zlen_cons.
  assert (zlen (escape_byte c) <= 4).
  { unfold escape_byte. by destruct (named_escape c). }
  lia.
Qed.

Lemma dollar_spec_len L (HL : conforming L) flags fuel :
  forall bs,
    Forall (fun c => c <> NUL) bs ->
    zlen (dollar_spec L fuel flags bs) <= 4 * zlen bs.
Proof.
  induction fuel as [|fuel IH]; intros bs Hnn.
  - simpl. pose proof (zlen_nonneg bs). unfold zlen in *. simpl. lia.
  - destruct bs as [|c t]; [done|]. cbn [dollar_spec].
    destruct (decode_one_split L HL c t Hnn)
      as (wc & unit & rest & -> & Hsplit & _).
    assert (Hnn' : Forall (fun c => c <> NUL) rest).
    { rewrite <- Hsplit in Hnn. by apply Forall_app in Hnn as [_ ?]. }
    specialize (IH rest Hnn'). rewrite <- Hsplit.
    rewrite !zlen_app. pose proof (escapes_len unit).
    pose proof (zlen_nonneg unit).
    destruct (match wc with
              | Some wc0 => xiswprint L wc0 flags && forallb plain_byte unit
              | None => false
              end); lia.
Qed.

Lemma span_free_len rej bs : zlen (span_free rej bs) <= zlen bs.
Proof.
  induction bs as [|c t IH]; [done|]. simpl.
  destruct (strchr_in rej c); rewrite ?zlen_cons;
    pose proof (zlen_nonneg t); unfold zlen in *; simpl in *; lia.
Qed.

Lemma wordnesc_spec_len L (HL : conforming L) fuel flags bs pl :
  Forall (fun c => c <> NUL) bs ->
  zlen (wordnesc_spec L fuel flags bs pl) <= 4 * zlen bs + 3.
Proof.
  intros Hnn. unfold wordnesc_spec.
  pose proof (zlen_nonneg bs) as H0.
  pose proof (dollar_spec_len L HL flags fuel bs Hnn) as Hd.
  pose proof (single_quote_spec_len bs false) as Hs.
  set (body := if pl <? zlen bs then _ else _).
  assert (Hbody : zlen body <= 4 * zlen bs + 3).
  { subst body. repeat case_match;
      rewrite ?zlen_app, ?zlen_cons; unfold zlen in *; simpl in *; lia. }
  destruct body; [unfold zlen in *; simpl; lia|done].
Qed.

(** ** The round trip at the level of the text *)

Lemma span_free_full rej bs :
  zlen (span_free rej bs) = zlen bs ->
  Forall (fun c => strchr_in rej c = false) bs.
Proof.
  induction bs as [|c t IH]; [constructor|]. simpl.
  destruct (strchr_in rej c) eqn:E.
  - rewrite zlen_cons. pose proof (zlen_nonneg t).
    change (zlen (@nil byte)) with 0. lia.
  - rewrite !zlen_cons. intros H. constructor; [done|]. apply IH. lia.
Qed.

Lemma Forall_all_but_last (P : byte -> Prop) (bs : list byte) :
  Forall P (ztake (zlen bs - 1) bs) ->
  (forall c, last bs = Some c -> P c) ->
  Forall P bs.
Proof.
  intros Hinit Hlast.
  destruct (decide (bs = [])) as [->|Hne]; [constructor|].
  destruct (exists_last Hne) as (init & c & ->).
  rewrite ztake_all_but_last in Hinit by done.
  change (zlen [c] - 1) with 0 in Hinit. unfold ztake in Hinit.
  simpl in Hinit. rewrite app_nil_r in Hinit.
  apply Forall_app. split; [done|]. constructor; [|constructor].
  apply Hlast. by rewrite last_snoc.
Qed.

Section RoundTrip.

Variable L : locale.
Hypothesis HL : conforming L.
Hypothesis HS : shell_locale L.

Lemma printable_no_blank fuel flags bs rest pl :
  shell flags = true ->
  Forall (fun c => c <> NUL) bs ->
  zlen (bs ++ rest) <= PTRDIFF_MAX ->
  (length bs <= fuel)%nat ->
  printable_len L fuel (bs ++ rest) (zlen bs) flags = Ok pl ->
  ~ pl < zlen bs ->
  Forall (fun c => blank_byte c = false) (ztake (zlen bs - 1) bs).
Proof.
  intros Hsh Hnn Hb Hf Hpl Hge.
  destruct (printable_len_spec L HL flags (fun c => blank_byte c = false))
    with (bs := bs) (rest := rest) (fuel := fuel)
    as (pl' & Hpl' & HP); try done.
  - intros c _. unfold xisprint. rewrite Hsh. cbn [negb andb].
    destruct (blank_byte c) eqn:Eb; [|done].
    rewrite (sl_isprint L HS c Eb). done.
  - apply (sl_multi L HS).
  - intros b rest' wc st Hmb. unfold xiswprint. rewrite Hsh. cbn [negb andb].
    destruct (blank_byte b) eqn:Eb; [|done].
    rewrite (sl_single L HS _ _ _ _ Hmb Eb).
    rewrite (sl_iswprint L HS b Eb). done.
  - apply (sl_incomplete L HS).
  - rewrite Hpl in Hpl'. injection Hpl' as <-. by apply HP.
Qed.

(** A shell reads the rendering of the selected strategy back as the
    input; only Bare, selected when both scans reach the end, depends on the
    first and the last byte. *)
Lemma sh_word_wordnesc_selected fuel flags bs rest pl :
  shell flags = true ->
  Forall (fun c => c <> NUL) bs ->
  zlen (bs ++ rest) <= PTRDIFF_MAX ->
  (length bs <= fuel)%nat ->
  printable_len L fuel (bs ++ rest) (zlen bs) flags = Ok pl ->
  (~ pl < zlen bs -> zlen (span_free bare_reject bs) = zlen bs ->
   head bs <> Some c_tilde /\
   (forall c, last bs = Some c -> blank_byte c = false)) ->
  sh_word (wordnesc_spec L fuel flags bs pl) = Some bs.
Proof.
  intros Hsh Hnn Hb Hf Hpl Hsel.
  unfold wordnesc_spec. rewrite Hsh. cbn [negb orb].
  destruct (pl <? zlen bs) eqn:Epl.
  { (* DollarQuoted *)
    cbn [app sh_word]. change (Byte.eqb c_dollar c_tilde) with false.
    cbv iota. cbn [sh_parse].
    change (Byte.eqb c_dollar c_squote) with false.
    change (Byte.eqb c_dollar c_dquote) with false.
    change (Byte.eqb c_dollar c_dollar) with true.
    change (Byte.eqb c_squote c_squote) with true. cbv iota.
    rewrite (sh_parse_dollar_spec L HL) by done.
    simpl. by rewrite app_nil_r. }
  assert (Hquotes : sh_word [c_dquote; c_dquote] = Some []) by done.
  destruct (zlen (span_free bare_reject bs) =? zlen bs) eqn:Ebare.
  { (* Bare *)
    destruct Hsel as (Htilde & Hlast);
      [apply Z.ltb_ge in Epl; lia|by apply Z.eqb_eq|].
    destruct bs as [|c t]; [done|].
    assert (Hall : Forall (fun c => strchr_in sh_meta c = false) (c :: t)).
    { apply Z.eqb_eq, span_free_full in Ebare.
      assert (Hblank : Forall (fun c => blank_byte c = false) (c :: t)).
      { apply Forall_all_but_last; [|done].
        eapply printable_no_blank; try done. lia. }
      rewrite Forall_forall in *. intros x Hx.
      apply bare_reject_meta; auto. }
    unfold sh_word.
    assert (Byte.eqb c c_tilde = false) as ->.
    { apply byte_eqb_neq. intros ->. by apply Htilde. }
    by apply sh_parse_bare. }
  destruct (zlen (span_free quotable_reject bs) =? zlen bs) eqn:Equot.
  { (* DoubleQuoted *)
    apply Z.eqb_eq, span_free_full in Equot.
    cbn [app sh_word]. change (Byte.eqb c_dquote c_tilde) with false.
    cbv iota. cbn [sh_parse].
    change (Byte.eqb c_dquote c_squote) with false.
    change (Byte.eqb c_dquote c_dquote) with true. cbv iota.
    by apply sh_parse_double. }
  (* SingleQuoted *)
  pose proof (sh_parse_single bs false) as Hsq. cbv iota in Hsq.
  destruct bs as [|c t]; [done|].
  destruct (single_quote_spec (c :: t) false) as [|q out] eqn:Eq.
  { simpl in Eq. by destruct (Byte.eqb c c_squote). }
  unfold sh_word.
  assert (Byte.eqb q c_tilde = false) as ->; [|done].
  simpl in Eq. destruct (Byte.eqb c c_squote); by injection Eq as <- _.
Qed.

End RoundTrip.

Lemma head_ztake_load str len c :
  head (ztake len str) = Some c -> load str 0 = Some c.
Proof.
  unfold ztake, load. simpl. destruct str as [|x t]; [by rewrite take_nil|].
  destruct (Z.to_nat len); [done|]. done.
Qed.

Lemma last_ztake_load str len c :
  0 <= len <= zlen str ->
  last (ztake len str) = Some c -> load str (len - 1) = Some c.
Proof.
  intros Hlen.
  destruct (decide (len = 0)) as [->|Hne].
  { unfold ztake. change (Z.to_nat 0) with 0%nat. by rewrite take_0. }
  unfold ztake, load. rewrite last_lookup.
  rewrite length_take.
  replace (Z.to_nat len `min` length str)%nat with (Z.to_nat len)
    by (unfold zlen in Hlen; lia).
  replace (len - 1 <? 0) with false by lia.
  replace (Init.Nat.pred (Z.to_nat len)) with (Z.to_nat (len - 1)) by lia.
  intros H. rewrite lookup_take_lt in H by lia. done.
Qed.

(** The two scans of the shell flavor on a string. *)
Lemma scan_len_prefix bs rest rej :
  Forall (fun c => c <> NUL) bs -> NUL ∈ rest ->
  (let* r := strcspn (bs ++ rest) rej in
   Ok (if r <? zlen bs then r else zlen bs))
  = Ok (zlen (span_free rej bs)).
Proof.
  intros Hnn Hrest.
  destruct (strcspn_prefix bs rest rej Hnn Hrest) as (r & -> & Hr).
  cbn [rbind]. by rewrite Hr.
Qed.



(** [complete_tail] of a concrete string: one case for every offset. *)
Ltac complete_tail_cases Hc :=
  repeat (destruct Hc as [->|Hc]; [vm_compute; discriminate|]);
  subst; vm_compute; discriminate.

Lemma complete_tail_example :
  complete_tail Utf8.loc [x7e; x20; x61; x09; NUL] 4.
Proof.
  intros i st Hi.
  assert (i = 1 \/ i = 2 \/ i = 3) as Hc by lia.
  complete_tail_cases Hc.
Qed.


(** C7.  DollarQuoted encoding.  The emitter does not follow the
    specification on an input that ends in an incomplete multibyte sequence
    after its start: the offset of [xmbrtowc] has passed the length, and the
    bytes after the input are escaped too.  In the UTF-8 locale, on the two
    bytes 0x01 0xC3, the text is [$'\x01\xC3\x00'] where the specification
    gives [$'\x01\xC3']; on 0x01 a a 0xC3 the emitter reads past the
    terminator of the string. *)
Theorem dollar_quote_incomplete_tail :
  (exists buf',
     dollar_quote Utf8.loc 3 0 32 [x01; xc3; NUL] 2 WESC_SHELL (fresh 32)
     = WOk 15 buf' /\
     bytes_between buf' 0 15
     = String.list_byte_of_string "$'\x01\xC3\x00'") /\
  [c_dollar; c_squote] ++ dollar_spec Utf8.loc 3 WESC_SHELL [x01; xc3]
    ++ [c_squote]
  = String.list_byte_of_string "$'\x01\xC3'" /\
  dollar_quote Utf8.loc 5 0 32 [x01; x61; x61; xc3; NUL] 4 WESC_SHELL
    (fresh 32)
  = WErr ReadOOB.
Proof.
  split; [|split]; [|reflexivity|reflexivity].
  eexists. split; reflexivity.
Qed.

(** On the other inputs the emitter follows the specification: the text
    is the rendering [dollar_spec] between the brackets. *)
Lemma dollar_quote_text_complete L fuel flags bs rest :
  conforming L ->
  Forall (fun c => c <> NUL) bs ->
  zlen (bs ++ rest) <= PTRDIFF_MAX ->
  complete_tail L (bs ++ rest) (zlen bs) ->
  (length bs <= fuel)%nat ->
  dollar_quote_text L fuel (bs ++ rest) (zlen bs) flags
  = Ok ([c_dollar; c_squote] ++ dollar_spec L fuel flags bs ++ [c_squote]).
Proof.
  intros HL Hnn Hb Htail Hf. unfold dollar_quote_text.
  pose proof (dollar_loop_text_spec L HL flags bs rest Hnn Hb Htail
                fuel [] bs eq_refl Hf) as Hd.
  change (zlen (@nil byte)) with 0 in Hd. by rewrite Hd.
Qed.

(** * Paths *)

Lemma strlen_cstr bs rest :
  Forall (fun c => c <> NUL) bs -> strlen (bs ++ NUL :: rest) = Ok (zlen bs).
Proof.
  induction 1 as [|c t Hc _ IH]; [done|].
  apply byte_eqb_neq in Hc. cbn [app strlen]. rewrite Hc, IH.
  cbn [rbind]. rewrite zlen_cons. done.
Qed.

Lemma rload_at (pre : list byte) c post (i : nat) :
  i = length pre -> rload (pre ++ c :: post) (Z.of_nat i) = Ok c.
Proof. intros ->. apply rload_app. Qed.

Lemma length_slashes k : length (slashes k) = k.
Proof. apply length_replicate. Qed.

Lemma slashes_S_end k : slashes (S k) = slashes k ++ [c_slash].
Proof. apply replicate_S_end. Qed.

Lemma skip_trailing_slashes_run A k :
  forall post,
    skip_trailing_slashes (A ++ slashes k ++ post) (length A + k)
    = skip_trailing_slashes (A ++ slashes k ++ post) (length A).
Proof.
  induction k as [|k IH]; intros post.
  - by rewrite Nat.add_0_r.
  - rewrite slashes_S_end, <- (app_assoc (slashes k)).
    change ([c_slash] ++ post) with (c_slash :: post).
    rewrite Nat.add_succ_r. cbn [skip_trailing_slashes].
    rewrite (app_assoc A), rload_at
      by (rewrite length_app, length_slashes; done).
    cbn [rbind]. change (Byte.eqb c_slash c_slash) with true. cbv iota.
    rewrite <- (app_assoc A). apply IH.
Qed.

Lemma skip_trailing_slashes_stop A c post :
  c <> c_slash ->
  skip_trailing_slashes (A ++ c :: post) (S (length A)) = Ok (S (length A)).
Proof.
  intros Hc. cbn [skip_trailing_slashes]. rewrite rload_at by done.
  cbn [rbind]. apply byte_eqb_neq in Hc. by rewrite Hc.
Qed.

Lemma find_name_start_run A name :
  Forall (fun c => c <> c_slash) name ->
  forall post,
    find_name_start (A ++ name ++ post) (length A + length name)
    = find_name_start (A ++ name ++ post) (length A).
Proof.
  induction name as [|c name IH] using rev_ind; intros Hn post.
  - by rewrite Nat.add_0_r.
  - apply Forall_app in Hn as [Hn Hc]. apply Forall_inv in Hc.
    rewrite <- (app_assoc name). change ([c] ++ post) with (c :: post).
    rewrite length_app. cbn [length]. rewrite Nat.add_1_r, Nat.add_succ_r.
    cbn [find_name_start].
    rewrite (app_assoc A), rload_at by (rewrite length_app; done).
    cbn [rbind]. apply byte_eqb_neq in Hc. rewrite Hc. cbn [negb].
    rewrite <- (app_assoc A). by apply IH.
Qed.

Lemma find_name_start_stop A post :
  find_name_start (A ++ c_slash :: post) (S (length A)) = Ok (S (length A)).
Proof.
  cbn [find_name_start]. rewrite rload_at by done. done.
Qed.

Lemma skip_leading_slashes_stop c t i :
  c <> c_slash -> skip_leading_slashes (c :: t) i = Ok i.
Proof.
  intros Hc. cbn [skip_leading_slashes]. apply byte_eqb_neq in Hc.
  by rewrite Hc.
Qed.

Lemma skip_leading_slashes_step c' t i :
  skip_leading_slashes (c_slash :: c' :: t) i
  = if negb (Byte.eqb c' NUL) then skip_leading_slashes (c' :: t) (wrap (i + 1))
    else Ok i.
Proof. done. Qed.

Lemma skip_leading_slashes_run k :
  forall i rest,
    0 <= i -> i + Z.of_nat k < 2 ^ 64 ->
    skip_leading_slashes (slashes (S k) ++ NUL :: rest) i
    = Ok (i + Z.of_nat k).
Proof.
  induction k as [|k IH]; intros i rest Hi Hk.
  - rewrite Z.add_0_r. done.
  - change (slashes (S (S k)) ++ NUL :: rest)
      with (c_slash :: c_slash :: (slashes k ++ NUL :: rest)).
    rewrite skip_leading_slashes_step.
    change (Byte.eqb c_slash NUL) with false. cbn [negb].
    change (c_slash :: slashes k ++ NUL :: rest)
      with (slashes (S k) ++ NUL :: rest).
    rewrite wrap_small by lia. rewrite IH by lia. f_equal. lia.
Qed.

Lemma strchr_in_slash c : strchr_in (lit "/") c = Byte.eqb c c_slash.
Proof.
  change (strchr_in (lit "/") c) with (Byte.eqb c_slash c || false).
  rewrite orb_false_r. destruct (Byte.eqb c c_slash) eqn:E.
  - apply byte_eqb_eq in E as ->. done.
  - apply byte_eqb_neq. apply byte_eqb_neq in E. congruence.
Qed.

Lemma strcspn_stop rej bs c rest :
  Forall (fun c => c <> NUL /\ strchr_in rej c = false) bs ->
  c = NUL \/ strchr_in rej c = true ->
  strcspn (bs ++ c :: rest) rej = Ok (zlen bs).
Proof.
  intros Hbs Hc. induction Hbs as [|b t [Hb1 Hb2] _ IH].
  - cbn [app strcspn]. destruct Hc as [-> | ->].
    + done.
    + by rewrite orb_true_r.
  - cbn [app strcspn]. apply byte_eqb_neq in Hb1. rewrite Hb1, Hb2, IH.
    cbn [orb rbind]. by rewrite zlen_cons.
Qed.

Lemma Forall_slashes (P : byte -> Prop) k : P c_slash -> Forall P (slashes k).
Proof. intros H. apply Forall_replicate. done. Qed.

Lemma zlen_slashes k : zlen (slashes k) = Z.of_nat k.
Proof. unfold zlen. by rewrite length_slashes. Qed.

Lemma to_nat_zlen {A} (l : list A) : Z.to_nat (zlen l) = length l.
Proof. unfold zlen. lia. Qed.

Lemma last_not_nil {A} (l : list A) :
  l <> [] -> exists l' x, l = l' ++ [x].
Proof.
  destruct l as [|y l] using rev_ind; [done|]. intros _. by exists l, y.
Qed.

Lemma head_not_nil {A} (l : list A) :
  l <> [] -> exists x l', l = x :: l'.
Proof. destruct l as [|x l']; [done|]. intros _. by exists x, l'. Qed.

Section PathSplit.

Variables (d name rest : list byte) (j k : nat).
Let path := d ++ slashes j ++ name ++ slashes k ++ NUL :: rest.

Hypothesis Hd : Forall (fun c => c <> NUL) d.
Hypothesis Hlast : last d <> Some c_slash.
Hypothesis Hj : d = [] \/ (0 < j)%nat.
Hypothesis Hname : Forall (fun c => c <> NUL) name.
Hypothesis Hne : name <> [].
Hypothesis Hns : Forall (fun c => c <> c_slash) name.

Lemma path_strlen : strlen path = Ok (zlen (d ++ slashes j ++ name ++ slashes k)).
Proof.
  unfold path. rewrite !(app_assoc _ _ (NUL :: rest)), <- !app_assoc.
  replace (d ++ slashes j ++ name ++ slashes k ++ NUL :: rest)
    with ((d ++ slashes j ++ name ++ slashes k) ++ NUL :: rest)
    by (by rewrite <- !app_assoc).
  apply strlen_cstr. rewrite !Forall_app. split_and!; try done.
  all: by apply Forall_slashes.
Qed.

Lemma path_trailing :
  skip_trailing_slashes path (length (d ++ slashes j ++ name ++ slashes k))
  = Ok (length (d ++ slashes j ++ name)).
Proof.
  destruct (last_not_nil name Hne) as (n' & c & Hn).
  assert (Hc : c <> c_slash).
  { rewrite Hn in Hns. apply Forall_app in Hns as [_ Hc].
    by apply Forall_inv in Hc. }
  replace path with ((d ++ slashes j ++ name) ++ slashes k ++ NUL :: rest)
    by (unfold path; by rewrite <- !app_assoc).
  replace (length (d ++ slashes j ++ name ++ slashes k))
    with (length (d ++ slashes j ++ name) + k)%nat
    by (rewrite !length_app, !length_slashes; lia).
  rewrite skip_trailing_slashes_run.
  rewrite Hn.
  replace ((d ++ slashes j ++ n' ++ [c]) ++ slashes k ++ NUL :: rest)
    with ((d ++ slashes j ++ n') ++ c :: slashes k ++ NUL :: rest)
    by (by rewrite <- !app_assoc).
  replace (length (d ++ slashes j ++ n' ++ [c]))
    with (S (length (d ++ slashes j ++ n')))
    by (rewrite !length_app; cbn [length]; lia).
  by apply skip_trailing_slashes_stop.
Qed.

Lemma path_name_start :
  find_name_start path (length (d ++ slashes j ++ name))
  = Ok (length (d ++ slashes j)).
Proof.
  replace path with ((d ++ slashes j) ++ name ++ slashes k ++ NUL :: rest)
    by (unfold path; by rewrite <- !app_assoc).
  replace (length (d ++ slashes j ++ name))
    with (length (d ++ slashes j) + length name)%nat
    by (rewrite !length_app; lia).
  rewrite find_name_start_run by done.
  destruct j as [|j'].
  - destruct Hj as [-> | ?]; [done|lia].
  - rewrite slashes_S_end.
    replace ((d ++ slashes j' ++ [c_slash]) ++ name ++ slashes k ++ NUL :: rest)
      with ((d ++ slashes j') ++ c_slash :: name ++ slashes k ++ NUL :: rest)
      by (by rewrite <- !app_assoc).
    replace (length (d ++ slashes j' ++ [c_slash]))
      with (S (length (d ++ slashes j')))
      by (rewrite !length_app; cbn [length]; lia).
    apply find_name_start_stop.
Qed.

Lemma path_xbaseoff : xbaseoff path = Ok (zlen (d ++ slashes j)).
Proof.
  unfold xbaseoff. rewrite path_strlen. cbn [rbind].
  rewrite to_nat_zlen, path_trailing. cbn [rbind].
  rewrite path_name_start. cbn [rbind].
  change (Z.of_nat (length (d ++ slashes j))) with (zlen (d ++ slashes j)).
  replace path with ((d ++ slashes j) ++ name ++ slashes k ++ NUL :: rest)
    by (unfold path; by rewrite <- !app_assoc).
  rewrite zdrop_app_zlen.
  destruct (head_not_nil name Hne) as (c & n' & Hn). rewrite Hn in *.
  apply skip_leading_slashes_stop. by apply Forall_inv in Hns.
Qed.

Lemma path_xbasename ok :
  xbasename ok path = Ok (if ok then Some (cstr name) else None).
Proof.
  unfold xbasename. rewrite path_xbaseoff. cbn [rbind].
  replace path with ((d ++ slashes j) ++ name ++ slashes k ++ NUL :: rest)
    by (unfold path; by rewrite <- !app_assoc).
  rewrite zdrop_app_zlen.
  assert (Hsp : strcspn (name ++ slashes k ++ NUL :: rest) (lit "/")
                = Ok (zlen name)).
  { assert (Hf : Forall (fun c => c <> NUL /\
                          strchr_in (lit "/") c = false) name).
    { apply Forall_and. split; [done|].
      eapply Forall_impl; [exact Hns|]. intros c Hc. cbv beta.
      rewrite strchr_in_slash. by apply byte_eqb_neq. }
    destruct k as [|k'].
    - apply strcspn_stop; [done|by left].
    - apply strcspn_stop; [done|right]. by rewrite strchr_in_slash. }
  rewrite Hsp. cbn [rbind].
  assert (0 < zlen name).
  { destruct name; [done|]. rewrite zlen_cons. pose proof (zlen_nonneg l). lia. }
  replace (0 <? zlen name) with true by (symmetry; by apply Z.ltb_lt).
  unfold strndup. rewrite strnlen_exact by done. cbn [rbind].
  by rewrite ztake_app_zlen.
Qed.

Lemma path_xdirname ok :
  xdirname ok path = Ok (if ok then Some (cstr (dir_of d j)) else None).
Proof.
  unfold xdirname. rewrite path_xbaseoff. cbn [rbind].
  rewrite to_nat_zlen, length_app, length_slashes.
  replace path with (d ++ slashes j ++ name ++ slashes k ++ NUL :: rest)
    by done.
  rewrite skip_trailing_slashes_run.
  destruct d as [|c0 d0] eqn:Ed.
  - (* nothing but slashes before the name *)
    cbn [length skip_trailing_slashes rbind app].
    change (Z.of_nat 0) with 0. change (0 <? 0) with false. cbv iota.
    destruct j as [|j'].
    + destruct (head_not_nil name Hne) as (c & n' & Hn). rewrite Hn in *.
      cbn [slashes replicate app].
      change (rload (c :: ?t) 0) with (Ok c). cbn [rbind].
      apply Forall_inv in Hns. apply byte_eqb_neq in Hns. rewrite Hns.
      by destruct ok.
    + cbn [slashes replicate app].
      change (rload (c_slash :: ?t) 0) with (Ok c_slash). cbn [rbind].
      change (Byte.eqb c_slash c_slash) with true. cbv iota.
      by destruct ok.
  - rewrite <- Ed in *.
    destruct (last_not_nil d) as (d' & c & Hd'); [by rewrite Ed|].
    assert (Hc : c <> c_slash).
    { intros ->. apply Hlast. rewrite Hd'. apply last_snoc. }
    assert (Hskip : forall X,
              skip_trailing_slashes (d ++ X) (length d) = Ok (length d)).
    { intros X. rewrite Hd', <- (app_assoc d').
      change ([c] ++ X) with (c :: X).
      replace (length (d' ++ [c])) with (S (length d'))
        by (rewrite length_app; cbn [length]; lia).
      by apply skip_trailing_slashes_stop. }
    rewrite Hskip. cbn [rbind].
    change (Z.of_nat (length d)) with (zlen d).
    assert (0 < zlen d).
    { rewrite Ed, zlen_cons. pose proof (zlen_nonneg d0). lia. }
    replace (0 <? zlen d) with true by (symmetry; by apply Z.ltb_lt).
    unfold strndup. rewrite strnlen_exact by done. cbn [rbind].
    rewrite ztake_app_zlen. unfold dir_of. rewrite Ed. by destruct j.
Qed.

End PathSplit.

Lemma slashes_xbaseoff k rest :
  Z.of_nat k < 2 ^ 64 ->
  xbaseoff (slashes (S k) ++ NUL :: rest) = Ok (Z.of_nat k).
Proof.
  intros Hk. unfold xbaseoff.
  rewrite strlen_cstr by (by apply Forall_slashes). cbn [rbind].
  rewrite to_nat_zlen, length_slashes.
  pose proof (skip_trailing_slashes_run [] (S k) (NUL :: rest)) as Hs.
  cbn [app length Nat.add] in Hs. rewrite Hs.
  cbn [skip_trailing_slashes find_name_start rbind].
  change (Z.of_nat 0) with 0. change (zdrop 0 ?l) with l.
  by rewrite skip_leading_slashes_run by lia.
Qed.

Lemma slashes_at k rest :
  zdrop (Z.of_nat k) (slashes (S k) ++ NUL :: rest) = c_slash :: NUL :: rest
  /\ rload (slashes (S k) ++ NUL :: rest) (Z.of_nat k) = Ok c_slash.
Proof.
  rewrite slashes_S_end, <- app_assoc.
  change ([c_slash] ++ NUL :: rest) with (c_slash :: NUL :: rest).
  split.
  - rewrite <- (zlen_slashes k). apply zdrop_app_zlen.
  - apply rload_at. by rewrite length_slashes.
Qed.

Lemma slashes_xbasename ok k rest :
  Z.of_nat k < 2 ^ 64 ->
  xbasename ok (slashes (S k) ++ NUL :: rest)
  = Ok (if ok then Some (cstr [c_slash]) else None).
Proof.
  intros Hk. unfold xbasename. rewrite slashes_xbaseoff by done.
  cbn [rbind]. destruct (slashes_at k rest) as [-> ->].
  by destruct ok.
Qed.

Lemma slashes_xdirname ok k rest :
  Z.of_nat k < 2 ^ 64 ->
  xdirname ok (slashes (S k) ++ NUL :: rest)
  = Ok (if ok then Some (cstr [c_slash]) else None).
Proof.
  intros Hk. unfold xdirname. rewrite slashes_xbaseoff by done.
  cbn [rbind]. rewrite Nat2Z.id.
  pose proof (skip_trailing_slashes_run [] k (c_slash :: NUL :: rest)) as Hs.
  cbn [app length Nat.add] in Hs.
  replace (slashes (S k) ++ NUL :: rest)
    with (slashes k ++ c_slash :: NUL :: rest)
    by (by rewrite slashes_S_end, <- app_assoc).
  rewrite Hs. cbn [skip_trailing_slashes rbind].
  change (Z.of_nat 0) with 0. change (0 <? 0) with false. cbv iota.
  replace (rload (slashes k ++ c_slash :: NUL :: rest) 0) with (Ok c_slash)
    by (by destruct k).
  by destruct ok.
Qed.

Lemma empty_path ok rest :
  xbaseoff (NUL :: rest) = Ok 0 /\
  xbasename ok (NUL :: rest) = Ok (if ok then Some (cstr [c_dot]) else None) /\
  xdirname ok (NUL :: rest) = Ok (if ok then Some (cstr [c_dot]) else None).
Proof. by destruct ok. Qed.

(** Every string is empty, made of slashes only, or has a last component. *)
Lemma strip_slashes (l : list byte) :
  exists l' k, l = l' ++ slashes k /\ last l' <> Some c_slash.
Proof.
  induction l as [|c l IH] using rev_ind.
  - by exists [], 0%nat.
  - destruct (Byte.eqb c c_slash) eqn:Hc;
      [apply byte_eqb_eq in Hc as ->|apply byte_eqb_neq in Hc].
    + destruct IH as (l' & k & -> & Hl). exists l', (S k).
      by rewrite slashes_S_end, app_assoc.
    + exists (l ++ [c]), 0%nat. split; [by rewrite app_nil_r|].
      rewrite last_snoc. congruence.
Qed.

Lemma strip_name (l : list byte) :
  exists l' name, l = l' ++ name /\ Forall (fun c => c <> c_slash) name /\
    (l' = [] \/ last l' = Some c_slash).
Proof.
  induction l as [|c l IH] using rev_ind.
  - exists [], []. by auto.
  - destruct (Byte.eqb c c_slash) eqn:Hc;
      [apply byte_eqb_eq in Hc as ->|apply byte_eqb_neq in Hc].
    + exists (l ++ [c_slash]), []. rewrite app_nil_r, last_snoc. by auto.
    + destruct IH as (l' & name & -> & Hn & Hl). exists l', (name ++ [c]).
      rewrite app_assoc. split_and!; [done| |done].
      apply Forall_app. by auto.
Qed.

Lemma path_shape_total bs : path_shape bs.
Proof.
  destruct (strip_slashes bs) as (b1 & k & -> & H1).
  destruct (strip_name b1) as (b2 & name & -> & Hn & H2).
  destruct name as [|c name].
  - rewrite app_nil_r in *. destruct H2 as [->|H2]; [|done].
    destruct k; [by apply PathEmpty|by eapply PathSlashes].
  - destruct (strip_slashes b2) as (d & j & -> & Hd).
    apply (PathName _ d j (c :: name) k); try done.
    + by rewrite <- !app_assoc.
    + destruct j; [|right; lia]. rewrite app_nil_r in H2.
      destruct H2 as [H2|H2]; [by left|done].
Qed.

Lemma load_at (pre : list byte) c post i :
  i = zlen pre -> load (pre ++ c :: post) i = Some c.
Proof.
  intros ->. pose proof (rload_app pre c post) as H. unfold rload in H.
  destruct (load (pre ++ c :: post) (zlen pre)); congruence.
Qed.

Lemma last_slashes k : last (slashes (S k)) = Some c_slash.
Proof. rewrite slashes_S_end. apply last_snoc. Qed.

(** The three functions on each shape of path. *)
Lemma path_cases ok bs :
  Forall (fun c => c <> NUL) bs -> zlen bs <= PTRDIFF_MAX ->
  (bs = [] /\ xbaseoff (cstr bs) = Ok 0 /\
   xbasename ok (cstr bs) = Ok (dup_of ok [c_dot]) /\
   xdirname ok (cstr bs) = Ok (dup_of ok [c_dot])) \/
  (exists k, bs = slashes (S k) /\ xbaseoff (cstr bs) = Ok (Z.of_nat k) /\
   xbasename ok (cstr bs) = Ok (dup_of ok [c_slash]) /\
   xdirname ok (cstr bs) = Ok (dup_of ok [c_slash])) \/
  (exists d j name k,
     bs = d ++ slashes j ++ name ++ slashes k /\
     last d <> Some c_slash /\ (d = [] \/ (0 < j)%nat) /\
     name <> [] /\ Forall (fun c => c <> c_slash) name /\
     xbaseoff (cstr bs) = Ok (zlen (d ++ slashes j)) /\
     xbasename ok (cstr bs) = Ok (dup_of ok name) /\
     xdirname ok (cstr bs) = Ok (dup_of ok (dir_of d j))).
Proof.
  intros Hbs Hlen. destruct (path_shape_total bs) as [->|k ->|d j name k ->].
  - left. split; [done|]. apply (empty_path ok []).
  - right; left. exists k. split; [done|].
    assert (Z.of_nat k < 2 ^ 64).
    { rewrite zlen_slashes in Hlen. unfold PTRDIFF_MAX in Hlen. lia. }
    unfold cstr, dup_of.
    by rewrite slashes_xbaseoff, slashes_xbasename, slashes_xdirname.
  - right; right. exists d, j, name, k.
    apply Forall_app in Hbs as [Hd Hbs]. apply Forall_app in Hbs as [_ Hbs].
    apply Forall_app in Hbs as [Hn _].
    split_and!; try done; unfold cstr, dup_of; rewrite <- !app_assoc.
    + by apply path_xbaseoff.
    + by apply path_xbasename.
    + by apply path_xdirname.
Qed.

(** X1.  [xbaseoff] on any C string returns, without reading outside the
    string and its terminator, an offset inside the string at which a
    component starts: it is 0 or follows a slash, it is below the length
    unless the string is empty, and the byte there is a slash only when it
    is the last byte (the path is made of slashes). *)
Theorem xbaseoff_component bs :
  Forall (fun c => c <> NUL) bs -> zlen bs <= PTRDIFF_MAX ->
  exists i, xbaseoff (cstr bs) = Ok i /\ 0 <= i <= zlen bs /\
    (bs <> [] -> i < zlen bs) /\
    (i = 0 \/ load bs (i - 1) = Some c_slash) /\
    (load bs i = Some c_slash -> i + 1 = zlen bs).
Proof.
  intros Hbs Hlen.
  destruct (path_cases true bs Hbs Hlen)
    as [(-> & Ho & _)|[(k & -> & Ho & _)|
        (d & j & name & k & -> & Hd & Hj & Hne & Hns & Ho & _)]];
    rewrite Ho; eexists; (split; [done|]).
  - split_and!; [done|done|done|by left|done].
  - rewrite zlen_slashes. split_and!; try lia.
    + destruct k as [|k']; [by left|right].
      rewrite !slashes_S_end, <- app_assoc.
      apply (load_at (slashes k') c_slash [c_slash]).
      rewrite zlen_slashes. lia.
  - destruct (head_not_nil name Hne) as (c & n' & ->).
    apply Forall_inv in Hns.
    rewrite !zlen_app, !zlen_slashes, zlen_cons.
    pose proof (zlen_nonneg d). pose proof (zlen_nonneg n').
    split_and!; try lia.
    + destruct j as [|j'].
      * destruct Hj as [->|?]; [by left|lia].
      * right. rewrite slashes_S_end, <- !app_assoc, (app_assoc d).
        apply load_at. rewrite zlen_app, zlen_slashes. lia.
    + rewrite (app_assoc d).
      change ((c :: n') ++ slashes k) with (c :: n' ++ slashes k).
      rewrite (load_at (d ++ slashes j) c)
        by (by rewrite zlen_app, zlen_slashes).
      congruence.
Qed.

(** Closed side conditions on the bytes of a literal. *)
Ltac all_bytes := repeat (constructor; [done|]); by constructor.

Lemma xbaseoff_component_witness :
  exists i, xbaseoff (lit "/usr//lib/") = Ok i /\ 0 <= i <= 10 /\
    load (String.list_byte_of_string "/usr//lib/") (i - 1) = Some c_slash.
Proof.
  destruct (xbaseoff_component (String.list_byte_of_string "/usr//lib/"))
    as (i & Hi & Hr & _ & Hb & _).
  - all_bytes.
  - by vm_compute.
  - exists i. split; [exact Hi|]. split; [exact Hr|].
    destruct Hb as [->|Hb]; [|exact Hb]. by vm_compute in Hi.
Defined.

(** X2.  [xbasename] on any C string returns NULL exactly when the
    allocation fails, and otherwise the string [.] for the empty path, the
    string [/] for a path of slashes, and in every other case the last
    component: the non-empty run without a slash that is followed by
    slashes only and preceded by a slash or by nothing. *)
Theorem xbasename_spec ok bs :
  Forall (fun c => c <> NUL) bs -> zlen bs <= PTRDIFF_MAX ->
  exists b, xbasename ok (cstr bs) = Ok (dup_of ok b) /\
    ((bs = [] /\ b = [c_dot]) \/
     (exists k, bs = slashes (S k) /\ b = [c_slash]) \/
     (exists pre k, bs = pre ++ b ++ slashes k /\
        b <> [] /\ Forall (fun c => c <> c_slash) b /\
        (pre = [] \/ last pre = Some c_slash))).
Proof.
  intros Hbs Hlen.
  destruct (path_cases ok bs Hbs Hlen)
    as [(-> & _ & Hb & _)|[(k & -> & _ & Hb & _)|
        (d & j & name & k & -> & Hd & Hj & Hne & Hns & _ & Hb & _)]];
    rewrite Hb; eexists; (split; [done|]).
  - by left.
  - right; left. by exists k.
  - right; right. exists (d ++ slashes j), k.
    split; [by rewrite <- app_assoc|]. split_and!; try done.
    destruct j as [|j'].
    + destruct Hj as [->|?]; [by left|lia].
    + right. rewrite last_app, last_slashes. done.
Qed.

Lemma xbasename_spec_witness :
  exists b, xbasename true (lit "/usr//lib/") = Ok (Some (cstr b)) /\ b <> [].
Proof.
  destruct (xbasename_spec true (String.list_byte_of_string "/usr//lib/"))
    as (b & Hb & Hc).
  - all_bytes.
  - by vm_compute.
  - exists b. split; [exact Hb|].
    destruct Hc as [[Hc _]|[(k & _ & ->)|(_ & _ & _ & Hc & _)]];
      [discriminate Hc|done|done].
Defined.

(** X3.  [xdirname] on any C string returns NULL exactly when the
    allocation fails, and otherwise: [.] for the empty path and for a single
    component; [/] for a path of slashes and for a component that only
    slashes precede; and in every other case the bytes before the slashes
    that precede the last component, which do not end in a slash. *)
Theorem xdirname_spec ok bs :
  Forall (fun c => c <> NUL) bs -> zlen bs <= PTRDIFF_MAX ->
  exists dn, xdirname ok (cstr bs) = Ok (dup_of ok dn) /\
    ((bs = [] /\ dn = [c_dot]) \/
     (exists k, bs = slashes (S k) /\ dn = [c_slash]) \/
     (exists j name k,
        bs = slashes j ++ name ++ slashes k /\
        name <> [] /\ Forall (fun c => c <> c_slash) name /\
        dn = match j with O => [c_dot] | S _ => [c_slash] end) \/
     (exists j name k,
        bs = dn ++ slashes (S j) ++ name ++ slashes k /\
        dn <> [] /\ last dn <> Some c_slash /\
        name <> [] /\ Forall (fun c => c <> c_slash) name)).
Proof.
  intros Hbs Hlen.
  destruct (path_cases ok bs Hbs Hlen)
    as [(-> & _ & _ & Hb)|[(k & -> & _ & _ & Hb)|
        (d & j & name & k & -> & Hd & Hj & Hne & Hns & _ & _ & Hb)]];
    rewrite Hb; eexists; (split; [done|]).
  - by left.
  - right; left. by exists k.
  - destruct d as [|c d'].
    + right; right; left. exists j, name, k.
      split_and!; try done; by destruct j.
    + right; right; right. destruct Hj as [?|Hj]; [done|].
      destruct j as [|j']; [lia|]. by exists j', name, k.
Qed.

Lemma xdirname_spec_witness :
  exists dn, xdirname true (lit "/usr//lib/") = Ok (Some (cstr dn)) /\ dn <> [].
Proof.
  destruct (xdirname_spec true (String.list_byte_of_string "/usr//lib/"))
    as (dn & Hd & Hc).
  - all_bytes.
  - by vm_compute.
  - exists dn. split; [exact Hd|].
    destruct Hc as [[_ ->]|[(k & _ & ->)|[(j & _ & _ & _ & _ & _ & ->)|
                    (_ & _ & _ & _ & Hc & _)]]]; try done.
    by destruct j.
Defined.

(** X4.  Splitting inverts joining: for a directory [d] that is not empty
    and does not end in a slash and a name without a slash, the path made
    of [d], one or more slashes, the name and any number of trailing
    slashes has [d] as its [xdirname] and the name as its [xbasename]. *)
Theorem xdirname_xbasename_join ok d j name k :
  Forall (fun c => c <> NUL) d -> d <> [] -> last d <> Some c_slash ->
  Forall (fun c => c <> NUL) name -> name <> [] ->
  Forall (fun c => c <> c_slash) name ->
  xdirname ok (cstr (d ++ slashes (S j) ++ name ++ slashes k))
  = Ok (dup_of ok d) /\
  xbasename ok (cstr (d ++ slashes (S j) ++ name ++ slashes k))
  = Ok (dup_of ok name).
Proof.
  intros Hd Hdne Hlast Hn Hne Hns. unfold cstr. rewrite <- !app_assoc.
  split.
  - rewrite path_xdirname by (try done; right; lia).
    unfold dup_of, dir_of. by destruct d.
  - by rewrite path_xbasename by (try done; right; lia).
Qed.

Lemma xdirname_xbasename_join_witness :
  xdirname true (lit "/usr//lib/") = Ok (Some (lit "/usr")) /\
  xbasename true (lit "/usr//lib/") = Ok (Some (lit "lib")).
Proof.
  apply (xdirname_xbasename_join true (String.list_byte_of_string "/usr") 1
           (String.list_byte_of_string "lib") 1).
  - all_bytes.
  - done.
  - by vm_compute.
  - all_bytes.
  - done.
  - all_bytes.
Defined.

(** X5.  A trailing slash changes neither result: for a non-empty path,
    appending a slash leaves [xbasename] and [xdirname] as they are. *)
Theorem trailing_slash_ignored ok bs :
  Forall (fun c => c <> NUL) bs -> bs <> [] -> zlen bs < PTRDIFF_MAX ->
  xbasename ok (cstr (bs ++ [c_slash])) = xbasename ok (cstr bs) /\
  xdirname ok (cstr (bs ++ [c_slash])) = xdirname ok (cstr bs).
Proof.
  intros Hbs Hne Hlen.
  destruct (path_shape_total bs) as [->|k ->|d j name k -> Hd Hj Hn Hns];
    [done| |].
  - rewrite <- slashes_S_end. unfold cstr.
    rewrite zlen_slashes in Hlen. unfold PTRDIFF_MAX in Hlen.
    rewrite !slashes_xbasename, !slashes_xdirname by lia. done.
  - apply Forall_app in Hbs as [Hd' Hbs]. apply Forall_app in Hbs as [_ Hbs].
    apply Forall_app in Hbs as [Hn' _].
    rewrite <- !app_assoc, <- slashes_S_end. unfold cstr.
    rewrite <- !app_assoc.
    by rewrite !path_xbasename, !path_xdirname.
Qed.

Lemma trailing_slash_ignored_witness :
  xbasename true (lit "a/b/") = xbasename true (lit "a/b") /\
  xdirname true (lit "a/b/") = xdirname true (lit "a/b").
Proof.
  apply (trailing_slash_ignored true (String.list_byte_of_string "a/b")).
  - all_bytes.
  - done.
  - by vm_compute.
Defined.

(** X6.  [xbasename] is idempotent: applied to its own result it returns
    the same string. *)
Theorem xbasename_idempotent bs r :
  Forall (fun c => c <> NUL) bs -> zlen bs <= PTRDIFF_MAX ->
  xbasename true (cstr bs) = Ok (Some r) ->
  xbasename true r = Ok (Some r).
Proof.
  intros Hbs Hlen Hr.
  destruct (path_cases true bs Hbs Hlen)
    as [(-> & _ & Hb & _)|[(k & -> & _ & Hb & _)|
        (d & j & name & k & -> & Hd & Hj & Hne & Hns & _ & Hb & _)]];
    rewrite Hb in Hr; injection Hr as <-; try done.
  apply Forall_app in Hbs as [_ Hbs]. apply Forall_app in Hbs as [_ Hbs].
  apply Forall_app in Hbs as [Hn _].
  apply (path_xbasename [] name [] 0 0); by auto.
Qed.

Lemma xbasename_idempotent_witness :
  xbasename true (lit "lib") = Ok (Some (lit "lib")).
Proof.
  apply (xbasename_idempotent (String.list_byte_of_string "/usr//lib/")).
  - all_bytes.
  - by vm_compute.
  - reflexivity.
Defined.

(** * File modes *)

Lemma store_region (A R C : list byte) (k : nat) (a : Z) (v : byte) :
  a = zlen A + Z.of_nat k -> (k < length R)%nat ->
  store a v (A ++ R ++ C) = WOk tt (A ++ <[k := v]> R ++ C).
Proof.
  intros -> Hk. unfold store.
  replace ((0 <=? zlen A + Z.of_nat k)
           && (zlen A + Z.of_nat k <? zlen (A ++ R ++ C))) with true.
  - replace (Z.to_nat (zlen A + Z.of_nat k)) with (length A + k)%nat
      by (unfold zlen; lia).
    by rewrite region_insert.
  - symmetry. apply andb_true_iff. rewrite !zlen_app.
    pose proof (zlen_nonneg A). pose proof (zlen_nonneg C).
    unfold zlen in *. split; [apply Z.leb_le|apply Z.ltb_lt]; lia.
Qed.

Lemma cond_store (c : bool) (A R C : list byte) (k : nat) (a : Z)
  (v old : byte) :
  a = zlen A + Z.of_nat k -> R !! k = Some old ->
  (if c then store a v else ret tt) (A ++ R ++ C)
  = WOk tt (A ++ <[k := if c then v else old]> R ++ C).
Proof.
  intros Ha Hk. destruct c.
  - apply store_region; [done|]. by eapply lookup_lt_Some.
  - by rewrite list_insert_id.
Qed.

Lemma cond_store3 (c1 c2 c3 : bool) (A R C : list byte) (k : nat) (a : Z)
  (v1 v2 v3 old : byte) :
  a = zlen A + Z.of_nat k -> R !! k = Some old ->
  (if c1 then store a v1 else if c2 then store a v2
   else if c3 then store a v3 else ret tt) (A ++ R ++ C)
  = WOk tt (A ++ <[k := if c1 then v1 else if c2 then v2
                        else if c3 then v3 else old]> R ++ C).
Proof.
  intros Ha Hk. destruct c1; [|destruct c2; [|destruct c3]];
    try (apply store_region; [done|by eapply lookup_lt_Some]).
  by rewrite list_insert_id.
Qed.

Lemma land_bit m k :
  0 <= k -> Z.land m (2 ^ k) = if Z.testbit m k then 2 ^ k else 0.
Proof.
  intros Hk. apply Z.bits_inj'. intros n Hn.
  rewrite Z.land_spec, Z.pow2_bits_eqb by done.
  destruct (Z.eqb_spec k n) as [->|Hne].
  - rewrite andb_true_r. destruct (Z.testbit m n) eqn:E.
    + by rewrite Z.pow2_bits_true.
    + by rewrite Z.bits_0.
  - rewrite andb_false_r. destruct (Z.testbit m k).
    + by rewrite Z.pow2_bits_false.
    + by rewrite Z.bits_0.
Qed.

Lemma has_bits_bit m k :
  0 <= k -> has_bits m (2 ^ k) = Z.testbit m k.
Proof.
  intros Hk. unfold has_bits. rewrite land_bit by done.
  destruct (Z.testbit m k); [|done].
  assert (0 < 2 ^ k) by (by apply Z.pow_pos_nonneg).
  apply negb_true_iff, Z.eqb_neq. lia.
Qed.

Lemma lor_add a b : Z.land a b = 0 -> Z.lor a b = a + b.
Proof.
  intros H. rewrite Z.add_nocarry_lxor by done. symmetry. by apply Z.lxor_lor.
Qed.

(** The three-way test of the code against the two bits it inspects. *)
Lemma exec_column_code mode s e (lower upper : byte) :
  0 <= e < s ->
  (if Z.land mode (2 ^ s + 2 ^ e) =? 2 ^ s then upper
   else if has_bits mode (2 ^ s) then lower
   else if has_bits mode (2 ^ e) then x78 else x2d)
  = exec_column mode (2 ^ s) (2 ^ e) lower upper.
Proof.
  intros Hse. unfold exec_column.
  assert (Hs : 0 < 2 ^ s) by (apply Z.pow_pos_nonneg; lia).
  assert (He : 0 < 2 ^ e) by (apply Z.pow_pos_nonneg; lia).
  assert (Hlt : 2 ^ e < 2 ^ s) by (apply Z.pow_lt_mono_r; lia).
  assert (Hl : Z.land mode (2 ^ s + 2 ^ e)
               = Z.land mode (2 ^ s) + Z.land mode (2 ^ e)).
  { assert (Hdis : Z.land (2 ^ s) (2 ^ e) = 0).
    { rewrite land_bit by lia. rewrite Z.pow2_bits_false; [done|lia]. }
    rewrite <- (lor_add (2 ^ s) (2 ^ e)) by done.
    rewrite Z.land_lor_distr_r. rewrite lor_add; [done|].
    rewrite !land_bit by lia.
    destruct (Z.testbit mode s), (Z.testbit mode e);
      rewrite ?Z.land_0_l, ?Z.land_0_r; done. }
  rewrite Hl, !has_bits_bit by lia. rewrite !land_bit by lia.
  destruct (Z.testbit mode s), (Z.testbit mode e).
  - replace (2 ^ s + 2 ^ e =? 2 ^ s) with false; [done|].
    symmetry. apply Z.eqb_neq. lia.
  - by rewrite Z.add_0_r, Z.eqb_refl.
  - replace (0 + 2 ^ e =? 2 ^ s) with false; [done|].
    symmetry. apply Z.eqb_neq. lia.
  - replace (0 + 0 =? 2 ^ s) with false; [done|].
    symmetry. apply Z.eqb_neq. lia.
Qed.

Lemma buffer_region (buf : list byte) str n :
  0 <= str -> 0 <= n -> str + n <= zlen buf ->
  buf = ztake str buf ++ ztake n (zdrop str buf) ++ zdrop (str + n) buf
  /\ zlen (ztake str buf) = str
  /\ zlen (ztake n (zdrop str buf)) = n.
Proof.
  intros Hs Hn Hlen. unfold ztake, zdrop, zlen in *. split_and!.
  - rewrite Z2Nat.inj_add by done. rewrite <- drop_drop.
    by rewrite !take_drop.
  - rewrite length_take. lia.
  - rewrite length_take, length_drop. lia.
Qed.

Lemma xstrmode_text T mode str buf :
  0 <= str -> str + 11 <= zlen buf ->
  xstrmode T mode str buf
  = WOk tt (ztake str buf ++ (strmode_text T mode ++ [NUL])
              ++ zdrop (str + 11) buf).
Proof.
  intros Hs Hlen.
  destruct (buffer_region buf str 11 Hs ltac:(lia) Hlen) as (Hbuf & HA & HR).
  set (A := ztake str buf) in *. set (C := zdrop (str + 11) buf) in *.
  assert (Hcpy : strcpy str (lit "----------") buf
                 = WOk tt (A ++ lit "----------" ++ C)).
  { unfold strcpy, bind, lift. change (strlen (lit "----------")) with (Ok 10).
    cbv beta iota. unfold memcpy.
    change (10 + 1 <=? 0) with false.
    change (zlen (lit "----------") <? 10 + 1) with false. cbv iota.
    replace ((0 <=? str) && (str + (10 + 1) <=? zlen buf)) with true; [done|].
    symmetry. apply andb_true_iff. split; [apply Z.leb_le|apply Z.leb_le]; lia. }
  unfold xstrmode, bind. rewrite Hcpy. cbv beta iota.
  change (lit "----------")
    with [x2d; x2d; x2d; x2d; x2d; x2d; x2d; x2d; x2d; x2d; NUL].
  rewrite (store_region A _ C 0) by (rewrite ?HA; cbn [length]; lia).
  cbv beta iota. cbn [insert list_insert].
  rewrite (cond_store _ A _ C 1 _ _ x2d) by (rewrite ?HA; done || lia).
  cbv beta iota. cbn [insert list_insert].
  rewrite (cond_store _ A _ C 2 _ _ x2d) by (rewrite ?HA; done || lia).
  cbv beta iota. cbn [insert list_insert].
  rewrite (cond_store3 _ _ _ A _ C 3 _ _ _ _ x2d) by (rewrite ?HA; done || lia).
  cbv beta iota. cbn [insert list_insert].
  rewrite (cond_store _ A _ C 4 _ _ x2d) by (rewrite ?HA; done || lia).
  cbv beta iota. cbn [insert list_insert].
  rewrite (cond_store _ A _ C 5 _ _ x2d) by (rewrite ?HA; done || lia).
  cbv beta iota. cbn [insert list_insert].
  rewrite (cond_store3 _ _ _ A _ C 6 _ _ _ _ x2d) by (rewrite ?HA; done || lia).
  cbv beta iota. cbn [insert list_insert].
  rewrite (cond_store _ A _ C 7 _ _ x2d) by (rewrite ?HA; done || lia).
  cbv beta iota. cbn [insert list_insert].
  rewrite (cond_store _ A _ C 8 _ _ x2d) by (rewrite ?HA; done || lia).
  cbv beta iota. cbn [insert list_insert].
  rewrite (cond_store3 _ _ _ A _ C 9 _ _ _ _ x2d) by (rewrite ?HA; done || lia).
  cbn [insert list_insert].
  unfold strmode_text, perm_text. cbn [app].
  rewrite <- (exec_column_code mode 11 6) by lia.
  rewrite <- (exec_column_code mode 10 3) by lia.
  rewrite <- (exec_column_code mode 9 0) by lia.
  done.
Qed.

Lemma perm_text_land m : perm_text (Z.land m (oct [7; 7; 7; 7])) = perm_text m.
Proof.
  unfold perm_text, exec_column, has_bits. rewrite <- !Z.land_assoc. done.
Qed.

Lemma perm_bits_small :
  forallb (fun m => perm_bits (perm_text m) =? m)
    (map Z.of_nat (seq 0 4096)) = true.
Proof. by vm_compute. Qed.

Lemma perm_bits_text m : perm_bits (perm_text m) = Z.land m (oct [7; 7; 7; 7]).
Proof.
  rewrite <- perm_text_land.
  assert (Hr : 0 <= Z.land m (oct [7; 7; 7; 7]) < 4096).
  { change (oct [7; 7; 7; 7]) with (Z.ones 12). rewrite Z.land_ones by lia.
    apply Z.mod_pos_bound. lia. }
  set (m' := Z.land m (oct [7; 7; 7; 7])) in *. clearbody m'.
  pose proof perm_bits_small as H.
  rewrite forallb_forall in H. apply Z.eqb_eq, H.
  apply in_map_iff. exists (Z.to_nat m'). split; [lia|].
  apply in_seq. lia.
Qed.

(** X7.  [xstrmode] needs the eleven bytes of its array and no more: with
    them it leaves the ten characters of the mode and a terminator in
    place and changes no other byte; with fewer than eleven bytes left in
    the object it stores outside the object. *)
Theorem xstrmode_array T mode str buf :
  0 <= str ->
  (str + 11 <= zlen buf ->
   xstrmode T mode str buf
   = WOk tt (ztake str buf ++ (strmode_text T mode ++ [NUL])
               ++ zdrop (str + 11) buf)) /\
  (zlen buf < str + 11 -> xstrmode T mode str buf = WriteOOB).
Proof.
  intros Hs. split; [by apply xstrmode_text|].
  intros Hlen. unfold xstrmode, bind, strcpy, bind, lift.
  change (strlen (lit "----------")) with (Ok 10). cbv beta iota.
  unfold memcpy. change (10 + 1 <=? 0) with false.
  change (zlen (lit "----------") <? 10 + 1) with false. cbv iota.
  replace ((0 <=? str) && (str + (10 + 1) <=? zlen buf)) with false; [done|].
  symmetry. apply andb_false_iff. right. apply Z.leb_gt. lia.
Qed.

Lemma xstrmode_array_witness :
  xstrmode linux_types (oct [1; 0; 0; 6; 4; 4]) 1 (fresh 13)
  = WOk tt ([xff] ++ lit "-rw-r--r--" ++ [xff]) /\
  xstrmode linux_types (oct [1; 0; 0; 6; 4; 4]) 1 (fresh 11) = WriteOOB.
Proof.
  destruct (xstrmode_array linux_types (oct [1; 0; 0; 6; 4; 4]) 1 (fresh 13))
    as [H1 _]; [lia|].
  destruct (xstrmode_array linux_types (oct [1; 0; 0; 6; 4; 4]) 1 (fresh 11))
    as [_ H2]; [lia|].
  split; [rewrite H1 by (by vm_compute); reflexivity|].
  apply H2. by vm_compute.
Defined.

(** X8.  The string of [xstrmode] shows the type character and the twelve
    permission bits and nothing else: two modes give the same string
    exactly when they have the same type character and agree on the bits
    of 07777. *)
Theorem xstrmode_injective T m1 m2 str buf b1 b2 :
  0 <= str -> str + 11 <= zlen buf ->
  xstrmode T m1 str buf = WOk tt b1 ->
  xstrmode T m2 str buf = WOk tt b2 ->
  b1 = b2 <->
  type_char T m1 = type_char T m2 /\
  Z.land m1 (oct [7; 7; 7; 7]) = Z.land m2 (oct [7; 7; 7; 7]).
Proof.
  intros Hs Hlen H1 H2.
  rewrite xstrmode_text in H1, H2 by done.
  assert (E1 : b1 = ztake str buf ++ (strmode_text T m1 ++ [NUL])
                      ++ zdrop (str + 11) buf) by congruence.
  assert (E2 : b2 = ztake str buf ++ (strmode_text T m2 ++ [NUL])
                      ++ zdrop (str + 11) buf) by congruence.
  clear H1 H2. subst b1 b2. split.
  - intros H. apply app_inv_head in H.
    injection H as Ht ? ? ? ? ? ? ? ? ?. split; [done|].
    rewrite <- !perm_bits_text. unfold perm_text. congruence.
  - intros [Ht Hp]. unfold strmode_text.
    by rewrite Ht, <- (perm_text_land m1), Hp, perm_text_land.
Qed.

Lemma xstrmode_injective_witness :
  lit "-rw-r--r--" = lit "-rwxr-xr-x" <->
  type_char linux_types (oct [1; 0; 0; 6; 4; 4])
  = type_char linux_types (oct [1; 0; 0; 7; 5; 5]) /\
  Z.land (oct [1; 0; 0; 6; 4; 4]) (oct [7; 7; 7; 7])
  = Z.land (oct [1; 0; 0; 7; 5; 5]) (oct [7; 7; 7; 7]).
Proof.
  apply (xstrmode_injective linux_types _ _ 0 (fresh 11)).
  - lia.
  - by vm_compute.
  - reflexivity.
  - reflexivity.
Defined.

(** * Reading and writing a descriptor *)

Lemma take_length_take {A} (m : nat) (l : list A) :
  take (length (take m l)) l = take m l.
Proof.
  rewrite length_take. destruct (Nat.le_ge_cases m (length l)).
  - by rewrite Nat.min_l.
  - rewrite Nat.min_r by done. by rewrite !take_ge by lia.
Qed.

Lemma splice (b0 u data : list byte) (buf c : nat) :
  (c <= length u)%nat -> (buf + c + length data <= length b0)%nat ->
  take (length data) (drop c u) = data ->
  take (buf + c) (take buf b0 ++ take c u ++ drop (buf + c) b0) ++ data
    ++ drop (buf + c + length data)
         (take buf b0 ++ take c u ++ drop (buf + c) b0)
  = take buf b0 ++ take (c + length data) u
      ++ drop (buf + (c + length data)) b0.
Proof.
  intros Hc Hb Hd.
  assert (H1 : length (take buf b0 ++ take c u) = (buf + c)%nat)
    by (rewrite length_app, !length_take; lia).
  rewrite (app_assoc (take buf b0)).
  rewrite take_app_length' by done.
  replace (buf + c + length data)%nat
    with (length (take buf b0 ++ take c u) + length data)%nat by lia.
  rewrite drop_app_add, drop_drop.
  rewrite <- take_take_drop, Hd, <- !app_assoc.
  do 3 f_equal. f_equal. lia.
Qed.

Lemma zlen_filled b0 u buf c :
  0 <= buf -> 0 <= c <= zlen u -> buf + c <= zlen b0 ->
  zlen (filled b0 u buf c) = zlen b0.
Proof.
  intros Hb Hc Hl. unfold filled, zlen, ztake, zdrop in *.
  rewrite !length_app, !length_take, length_drop. lia.
Qed.

Lemma filled_0 b0 u buf : 0 <= buf -> filled b0 u buf 0 = b0.
Proof.
  intros Hb. unfold filled, ztake, zdrop. rewrite Z.add_0_r.
  change (Z.to_nat 0) with 0%nat. rewrite take_0. apply take_drop.
Qed.

(** One transfer of [read] into the buffer. *)
Lemma read_transfer b0 u buf c m :
  0 <= buf -> 0 <= c <= zlen u -> 0 <= m -> buf + c + m <= zlen b0 ->
  let data := ztake m (zdrop c u) in
  zlen data <= m /\ c + zlen data <= zlen u /\
  zdrop (zlen data) (zdrop c u) = zdrop (c + zlen data) u /\
  memcpy (buf + c) data (zlen data) (filled b0 u buf c)
  = WOk tt (filled b0 u buf (c + zlen data)).
Proof.
  intros Hb Hc Hm Hl data.
  assert (Hd : zlen data = Z.min m (zlen u - c)).
  { unfold data, zlen, ztake, zdrop in *.
    rewrite length_take, length_drop. lia. }
  split; [lia|]. split; [lia|]. split.
  { unfold zdrop. rewrite drop_drop. f_equal. unfold zlen. lia. }
  unfold memcpy. destruct (zlen data <=? 0) eqn:E0.
  - apply Z.leb_le in E0. pose proof (zlen_nonneg data).
    replace (zlen data) with 0 by lia. by rewrite Z.add_0_r.
  - apply Z.leb_gt in E0. rewrite Z.ltb_irrefl.
    rewrite zlen_filled by lia.
    replace ((0 <=? buf + c) && (buf + c + zlen data <=? zlen b0)) with true
      by (symmetry; apply andb_true_iff; split; apply Z.leb_le; lia).
    f_equal. unfold filled.
    replace (ztake (zlen data) data) with data
      by (unfold ztake; rewrite to_nat_zlen; by rewrite firstn_all).
    unfold ztake, zdrop.
    replace (Z.to_nat (buf + c)) with (Z.to_nat buf + Z.to_nat c)%nat by lia.
    replace (Z.to_nat (buf + c + zlen data))
      with (Z.to_nat buf + Z.to_nat c + length data)%nat
      by (unfold zlen; lia).
    replace (Z.to_nat (c + zlen data)) with (Z.to_nat c + length data)%nat
      by (unfold zlen; lia).
    replace (Z.to_nat (buf + (c + zlen data)))
      with (Z.to_nat buf + (Z.to_nat c + length data))%nat
      by (unfold zlen; lia).
    apply splice.
    + unfold zlen in *. lia.
    + unfold zlen in *. lia.
    + unfold data, ztake, zdrop. apply take_length_take.
Qed.

Section XreadLoop.

Variables (b0 u : list byte) (buf nbytes : Z).
Hypothesis Hbuf : 0 <= buf.
Hypothesis Hn : 0 <= nbytes <= PTRDIFF_MAX.
Hypothesis Hfit : buf + nbytes <= zlen b0.

(** The invariant of the loop of [xread]: [count] bytes of [u] have been
    consumed and stored. *)
Lemma xread_loop_inv script :
  forall count errno,
    0 <= count <= nbytes -> count <= zlen u ->
    match xread_loop script (zdrop count u) errno buf nbytes count
            (filled b0 u buf count) with
    | WOk (c', e', u', s') b' =>
        count <= c' <= nbytes /\ c' <= zlen u /\
        u' = zdrop c' u /\ b' = filled b0 u buf c' /\
        (c' < nbytes ->
         (e' = 0 /\ (u' = [] \/ Transfer 0 ∈ script)) \/
         (Failed e' ∈ script /\ e' <> EINTR))
    | WriteOOB => False
    | WErr f => f = NoFuel
    end.
Proof.
  induction script as [|ev script IH]; intros count errno Hc Hu;
    cbn [xread_loop]; destruct (count <? nbytes) eqn:E;
    try (apply Z.ltb_ge in E; unfold ret; split_and!; (lia || done)).
  - done.
  - apply Z.ltb_lt in E. unfold PTRDIFF_MAX in Hn.
    rewrite wrap_small by lia.
    destruct ev as [e|k]; cbn [sys_read].
    + unfold bind, memcpy. change (-1 <=? 0) with true.
      change (-1 <? 0) with true. cbv iota.
      destruct (e =? EINTR) eqn:Ee.
      * specialize (IH count e Hc Hu).
        destruct (xread_loop script (zdrop count u) e buf nbytes count
                    (filled b0 u buf count))
          as [[[[c' e'] u'] s'] b'| |f]; try done.
        destruct IH as (? & ? & ? & ? & He). split_and!; try (lia || done).
        intros Hlt. destruct (He Hlt) as [[? [?|?]]|[? ?]].
        -- left. split; [done|by left].
        -- left. split; [done|right; by apply list_elem_of_further].
        -- right. split; [by apply list_elem_of_further|done].
      * unfold ret. split_and!; try (lia || done). intros _. right.
        split; [apply list_elem_of_here|]. by apply Z.eqb_neq in Ee.
    + set (m := Z.min (Z.of_N k) (nbytes - count)).
      destruct (read_transfer b0 u buf count m) as (Hd1 & Hd2 & Hd3 & Hcpy);
        try lia.
      set (data := ztake m (zdrop count u)) in *.
      pose proof (zlen_nonneg data) as Hd0.
      unfold bind. rewrite Hcpy.
      replace (zlen data <? 0) with false by (symmetry; apply Z.ltb_ge; lia).
      destruct (zlen data =? 0) eqn:Ez.
      * apply Z.eqb_eq in Ez. unfold ret. rewrite Hd3, Ez, Z.add_0_r.
        split_and!; try (lia || done). intros _. left. split; [done|].
        assert (Hdata : data = []) by (by apply zlen_zero_nil).
        destruct (Z.eq_dec (Z.of_N k) 0) as [Hk|Hk].
        { right. replace k with 0%N by lia. apply list_elem_of_here. }
        left. unfold data, ztake in Hdata.
        destruct (zdrop count u) as [|x t]; [done|exfalso].
        destruct (Z.to_nat m) eqn:Em; [lia|done].
      * apply Z.eqb_neq in Ez. rewrite wrap_small by lia. rewrite Hd3.
        specialize (IH (count + zlen data) errno ltac:(lia) ltac:(lia)).
        destruct (xread_loop script (zdrop (count + zlen data) u) errno buf
                    nbytes (count + zlen data)
                    (filled b0 u buf (count + zlen data)))
          as [[[[c' e'] u'] s'] b'| |f]; try done.
        destruct IH as (? & ? & ? & ? & He). split_and!; try (lia || done).
        intros Hlt. destruct (He Hlt) as [[? [?|?]]|[? ?]].
        -- left. split; [done|by left].
        -- left. split; [done|right; by apply list_elem_of_further].
        -- right. split; [by apply list_elem_of_further|done].
Qed.

Lemma xread_loop_progress script :
  forall count errno,
    Forall benign script ->
    0 <= count <= nbytes -> count <= zlen u ->
    (Z.to_nat (Z.min nbytes (zlen u) - count) < transfers script)%nat ->
    exists e' u' s' b',
      xread_loop script (zdrop count u) errno buf nbytes count
        (filled b0 u buf count)
      = WOk (Z.min nbytes (zlen u), e', u', s') b' /\
      (zlen u < nbytes -> e' = 0).
Proof.
  induction script as [|ev script IH]; intros count errno Hb Hc Hu Ht;
    cbn [xread_loop]; destruct (count <? nbytes) eqn:E;
    try (apply Z.ltb_ge in E; unfold ret;
         replace (Z.min nbytes (zlen u)) with count by lia;
         do 4 eexists; split; [reflexivity|lia]).
  - cbn [transfers] in Ht. lia.
  - apply Z.ltb_lt in E. unfold PTRDIFF_MAX in Hn.
    rewrite wrap_small by lia.
    apply Forall_cons in Hb as [Hev Hb].
    destruct ev as [e|k]; cbn [sys_read benign transfers] in *.
    + subst e. unfold bind, memcpy. change (-1 <=? 0) with true.
      change (-1 <? 0) with true. change (EINTR =? EINTR) with true.
      cbv iota. by apply IH.
    + set (m := Z.min (Z.of_N k) (nbytes - count)).
      destruct (read_transfer b0 u buf count m) as (Hd1 & Hd2 & Hd3 & Hcpy);
        try lia.
      set (data := ztake m (zdrop count u)) in *.
      pose proof (zlen_nonneg data) as Hd0.
      assert (Hd : zlen data = Z.min m (zlen u - count)).
      { unfold data, zlen, ztake, zdrop in *.
        rewrite length_take, length_drop. lia. }
      unfold bind. rewrite Hcpy.
      replace (zlen data <? 0) with false by (symmetry; apply Z.ltb_ge; lia).
      destruct (zlen data =? 0) eqn:Ez.
      * apply Z.eqb_eq in Ez. unfold ret.
        replace (Z.min nbytes (zlen u)) with count by lia.
        do 4 eexists. split; [reflexivity|done].
      * apply Z.eqb_neq in Ez. rewrite wrap_small by lia. rewrite Hd3.
        apply IH; try (lia || done).
Qed.

End XreadLoop.

(** X9.  Whatever the script of the kernel, when [xread] returns it has
    stored outside the destination nothing, the count is at most [nbytes],
    the bytes stored are the first [count] bytes that were left in the
    file, in order, and exactly these have been consumed; a short count
    comes with [errno] 0 at the end of the file (or after a transfer of no
    byte), or with the error of a failed call other than [EINTR]. *)
Theorem xread_count script u errno b0 buf nbytes :
  0 <= buf -> 0 <= nbytes <= PTRDIFF_MAX -> buf + nbytes <= zlen b0 ->
  match xread script u errno buf nbytes b0 with
  | WOk (c, e', u', s') b' =>
      0 <= c <= nbytes /\ c <= zlen u /\
      u' = zdrop c u /\ b' = filled b0 u buf c /\
      (c < nbytes ->
       (e' = 0 /\ (u' = [] \/ Transfer 0 ∈ script)) \/
       (Failed e' ∈ script /\ e' <> EINTR))
  | WriteOOB => False
  | WErr f => f = NoFuel
  end.
Proof.
  intros Hb Hn Hfit. unfold xread.
  pose proof (xread_loop_inv b0 u buf nbytes Hb Hn Hfit script 0 errno
                ltac:(lia) (zlen_nonneg u)) as H.
  rewrite filled_0 in H by done. exact H.
Qed.

Lemma xread_count_witness :
  xread [Transfer 2; Failed 5; Transfer 9]
    (String.list_byte_of_string "hello") 0 1 8 (fresh 10)
  = WOk (2, 5, String.list_byte_of_string "llo", [Transfer 9])
      (filled (fresh 10) (String.list_byte_of_string "hello") 1 2).
Proof.
  pose proof (xread_count [Transfer 2; Failed 5; Transfer 9]
                (String.list_byte_of_string "hello") 0 (fresh 10) 1 8
                ltac:(lia) ltac:(by vm_compute) ltac:(by vm_compute)) as H.
  destruct (xread _ _ _ _ _ _) as [[[[c e'] u'] s'] b'| |f] eqn:E;
    [|done|by vm_compute in E].
  destruct H as (_ & _ & _ & -> & _). by vm_compute in E.
Defined.

(** X10.  [xread] hides interruptions and short reads: with a kernel that
    only interrupts and transfers at least one byte per successful call,
    and a script with enough transfers, [xread] returns the smaller of
    [nbytes] and the number of bytes left in the file, with these bytes in
    the buffer, and [errno] is 0 when the file ended first. *)
Theorem xread_complete script u errno b0 buf nbytes :
  0 <= buf -> 0 <= nbytes <= PTRDIFF_MAX -> buf + nbytes <= zlen b0 ->
  Forall benign script ->
  (Z.to_nat (Z.min nbytes (zlen u)) < transfers script)%nat ->
  exists e' s',
    xread script u errno buf nbytes b0
    = WOk (Z.min nbytes (zlen u), e', zdrop (Z.min nbytes (zlen u)) u, s')
        (filled b0 u buf (Z.min nbytes (zlen u))) /\
    (zlen u < nbytes -> e' = 0).
Proof.
  intros Hb Hn Hfit Hs Ht.
  pose proof (xread_loop_inv b0 u buf nbytes Hb Hn Hfit script 0 errno
                ltac:(lia) (zlen_nonneg u)) as Hinv.
  rewrite filled_0 in Hinv by done. change (zdrop 0 u) with u in Hinv.
  destruct (xread_loop_progress b0 u buf nbytes Hb Hn Hfit script 0 errno Hs
              ltac:(lia) (zlen_nonneg u))
    as (e' & u' & s' & b' & Hrun & He).
  { by rewrite Z.sub_0_r. }
  rewrite filled_0 in Hrun by done. change (zdrop 0 u) with u in Hrun.
  unfold xread in *. rewrite Hrun in Hinv. destruct Hinv as (_ & _ & -> & -> & _).
  exists e', s'. by rewrite Hrun.
Qed.

Lemma xread_complete_witness :
  exists e' s',
    xread [Transfer 2; Failed EINTR; Transfer 1; Transfer 7; Transfer 3;
       Transfer 1; Transfer 1]
      (String.list_byte_of_string "hello") 0 1 8 (fresh 10)
    = WOk (5, e', [], s')
        (filled (fresh 10) (String.list_byte_of_string "hello") 1 5) /\
    e' = 0.
Proof.
  destruct (xread_complete
              [Transfer 2; Failed EINTR; Transfer 1; Transfer 7; Transfer 3;
       Transfer 1; Transfer 1]
              (String.list_byte_of_string "hello") 0 (fresh 10) 1 8)
    as (e' & s' & Hrun & He).
  - lia.
  - by vm_compute.
  - by vm_compute.
  - repeat (constructor; [by vm_compute|]). constructor.
  - vm_compute. lia.
  - exists e', s'. split; [exact Hrun|]. apply He. by vm_compute.
Defined.

Lemma write_transfer (out0 buf : list byte) count m :
  0 <= count -> 0 <= m -> count + m <= zlen buf ->
  (zlen (zdrop count buf) <? m) = false /\
  (out0 ++ ztake count buf) ++ ztake m (zdrop count buf)
  = out0 ++ ztake (count + m) buf.
Proof.
  intros Hc Hm Hl. split.
  - apply Z.ltb_ge. unfold zlen, zdrop in *. rewrite length_drop. lia.
  - rewrite <- app_assoc. f_equal. unfold ztake, zdrop.
    rewrite take_take_drop. f_equal. lia.
Qed.

Section XwriteLoop.

Variables (out0 buf : list byte) (nbytes : Z).
Hypothesis Hn : 0 <= nbytes <= PTRDIFF_MAX.
Hypothesis Hfit : nbytes <= zlen buf.

Lemma xwrite_loop_inv script :
  forall count errno,
    0 <= count <= nbytes ->
    match xwrite_loop script (out0 ++ ztake count buf) errno buf nbytes
            count with
    | Ok (c', e', out', s') =>
        count <= c' <= nbytes /\ out' = out0 ++ ztake c' buf /\
        (c' < nbytes ->
         (e' = 0 /\ Transfer 0 ∈ script) \/
         (Failed e' ∈ script /\ e' <> EINTR))
    | Err f => f = NoFuel
    end.
Proof.
  induction script as [|ev script IH]; intros count errno Hc;
    cbn [xwrite_loop]; destruct (count <? nbytes) eqn:E;
    try (apply Z.ltb_ge in E; split_and!; (lia || done)).
  - done.
  - apply Z.ltb_lt in E. unfold PTRDIFF_MAX in Hn.
    rewrite wrap_small by lia.
    destruct ev as [e|k]; cbn [sys_write rbind].
    + change (-1 <? 0) with true. cbv iota.
      destruct (e =? EINTR) eqn:Ee.
      * specialize (IH count e Hc).
        destruct (xwrite_loop script (out0 ++ ztake count buf) e buf nbytes
                    count) as [[[[c' e'] out'] s']|f]; try done.
        destruct IH as (? & ? & He). split_and!; try (lia || done).
        intros Hlt. destruct (He Hlt) as [[? ?]|[? ?]].
        -- left. split; [done|by apply list_elem_of_further].
        -- right. split; [by apply list_elem_of_further|done].
      * split_and!; try (lia || done). intros _. right.
        split; [apply list_elem_of_here|]. by apply Z.eqb_neq in Ee.
    + set (m := Z.min (Z.of_N k) (nbytes - count)).
      destruct (write_transfer out0 buf count m) as [Hlen Hout]; try lia.
      rewrite Hlen, Hout. cbn [rbind].
      replace (m <? 0) with false by (symmetry; apply Z.ltb_ge; lia).
      destruct (m =? 0) eqn:Ez.
      * apply Z.eqb_eq in Ez. rewrite Ez, Z.add_0_r.
        split_and!; try (lia || done). intros _. left. split; [done|].
        replace k with 0%N by lia. apply list_elem_of_here.
      * apply Z.eqb_neq in Ez. rewrite wrap_small by lia.
        specialize (IH (count + m) errno ltac:(lia)).
        destruct (xwrite_loop script (out0 ++ ztake (count + m) buf) errno
                    buf nbytes (count + m)) as [[[[c' e'] out'] s']|f];
          try done.
        destruct IH as (? & ? & He). split_and!; try (lia || done).
        intros Hlt. destruct (He Hlt) as [[? ?]|[? ?]].
        -- left. split; [done|by apply list_elem_of_further].
        -- right. split; [by apply list_elem_of_further|done].
Qed.

Lemma xwrite_loop_progress script :
  forall count errno,
    Forall benign script ->
    0 <= count <= nbytes ->
    (Z.to_nat (nbytes - count) <= transfers script)%nat ->
    exists e' out' s',
      xwrite_loop script (out0 ++ ztake count buf) errno buf nbytes count
      = Ok (nbytes, e', out', s').
Proof.
  induction script as [|ev script IH]; intros count errno Hb Hc Ht;
    cbn [xwrite_loop]; destruct (count <? nbytes) eqn:E;
    try (apply Z.ltb_ge in E; replace nbytes with count by lia;
         by do 3 eexists).
  - apply Z.ltb_lt in E. cbn [transfers] in Ht. lia.
  - apply Z.ltb_lt in E. unfold PTRDIFF_MAX in Hn.
    rewrite wrap_small by lia.
    apply Forall_cons in Hb as [Hev Hb].
    destruct ev as [e|k]; cbn [sys_write benign transfers rbind] in *.
    + subst e. change (-1 <? 0) with true.
      change (EINTR =? EINTR) with true. cbv iota. by apply IH.
    + set (m := Z.min (Z.of_N k) (nbytes - count)).
      destruct (write_transfer out0 buf count m) as [Hlen Hout]; try lia.
      rewrite Hlen, Hout. cbn [rbind].
      replace (m <? 0) with false by (symmetry; apply Z.ltb_ge; lia).
      replace (m =? 0) with false by (symmetry; apply Z.eqb_neq; lia).
      rewrite wrap_small by lia. apply IH; try (lia || done).
Qed.

End XwriteLoop.

Lemma ztake_0 {A} (l : list A) : ztake 0 l = [].
Proof. done. Qed.

(** X11.  Whatever the script of the kernel, when [xwrite] returns the
    file has received exactly the first [count] bytes of the buffer, in
    order, with [count] at most [nbytes]; no byte outside the buffer is
    read; a short count comes with the error of a failed call other than
    [EINTR], or with [errno] 0 after a transfer of no byte. *)
Theorem xwrite_count script out errno buf nbytes :
  0 <= nbytes <= PTRDIFF_MAX -> nbytes <= zlen buf ->
  match xwrite script out errno buf nbytes with
  | Ok (c, e', out', s') =>
      0 <= c <= nbytes /\ out' = out ++ ztake c buf /\
      (c < nbytes ->
       (e' = 0 /\ Transfer 0 ∈ script) \/
       (Failed e' ∈ script /\ e' <> EINTR))
  | Err f => f = NoFuel
  end.
Proof.
  intros Hn Hfit. unfold xwrite.
  pose proof (xwrite_loop_inv out buf nbytes Hn Hfit script 0 errno
                ltac:(lia)) as H.
  by rewrite ztake_0, app_nil_r in H.
Qed.

Lemma xwrite_count_witness :
  xwrite [Transfer 2; Failed 5; Transfer 9] [] 0
    (String.list_byte_of_string "hello") 5
  = Ok (2, 5, String.list_byte_of_string "he", [Transfer 9]).
Proof.
  pose proof (xwrite_count [Transfer 2; Failed 5; Transfer 9] [] 0
                (String.list_byte_of_string "hello") 5
                ltac:(by vm_compute) ltac:(by vm_compute)) as H.
  destruct (xwrite _ _ _ _ _) as [[[[c e'] out'] s']|f] eqn:E;
    [|by vm_compute in E].
  destruct H as (_ & -> & _). by vm_compute in E.
Defined.

(** X12.  [xwrite] hides interruptions and short writes: with a kernel
    that only interrupts and transfers at least one byte per successful
    call, and a script with at least [nbytes] transfers, [xwrite] returns
    [nbytes] and the file has received the [nbytes] bytes of the buffer. *)
Theorem xwrite_complete script out errno buf nbytes :
  0 <= nbytes <= PTRDIFF_MAX -> nbytes <= zlen buf ->
  Forall benign script ->
  (Z.to_nat nbytes <= transfers script)%nat ->
  exists e' s',
    xwrite script out errno buf nbytes
    = Ok (nbytes, e', out ++ ztake nbytes buf, s').
Proof.
  intros Hn Hfit Hs Ht.
  pose proof (xwrite_loop_inv out buf nbytes Hn Hfit script 0 errno
                ltac:(lia)) as Hinv.
  rewrite ztake_0, app_nil_r in Hinv.
  destruct (xwrite_loop_progress out buf nbytes Hn Hfit script 0 errno Hs
              ltac:(lia)) as (e' & out' & s' & Hrun).
  { by rewrite Z.sub_0_r. }
  rewrite ztake_0, app_nil_r in Hrun. unfold xwrite in *.
  rewrite Hrun in Hinv. destruct Hinv as (_ & -> & _).
  by exists e', s'.
Qed.

Lemma xwrite_complete_witness :
  exists e' s',
    xwrite [Transfer 2; Failed EINTR; Transfer 1; Transfer 7; Transfer 3;
            Transfer 1]
      [] 0 (String.list_byte_of_string "hello") 5
    = Ok (5, e', String.list_byte_of_string "hello", s').
Proof.
  apply (xwrite_complete
           [Transfer 2; Failed EINTR; Transfer 1; Transfer 7; Transfer 3;
            Transfer 1]
           [] 0 (String.list_byte_of_string "hello") 5).
  - by vm_compute.
  - by vm_compute.
  - repeat (constructor; [by vm_compute|]). constructor.
  - vm_compute. lia.
Defined.

(** * Reading a chunk *)

Lemma chunk_of_spec delim l :
  forall a b, chunk_of delim l = (a, b) ->
    l = a ++ b /\ (l <> [] -> a <> []) /\
    ((exists a', a = a' ++ [delim] /\ delim ∉ a') \/ (b = [] /\ delim ∉ a)).
Proof.
  induction l as [|c t IH]; intros a b H; cbn [chunk_of] in H.
  - injection H as <- <-. split; [done|]. split; [done|]. right.
    split; [done|]. apply not_elem_of_nil.
  - destruct (Byte.eqb c delim) eqn:E.
    + apply byte_eqb_eq in E as ->. injection H as <- <-.
      split; [done|]. split; [done|]. left. exists []. split; [done|].
      apply not_elem_of_nil.
    + apply byte_eqb_neq in E. destruct (chunk_of delim t) as [a' b'].
      injection H as <- <-. destruct (IH a' b' eq_refl) as (-> & _ & Hd).
      split; [done|]. split; [done|].
      destruct Hd as [(a'' & -> & Hn)|[-> Hn]].
      * left. exists (c :: a''). split; [done|].
        apply not_elem_of_cons. split; [congruence|done].
      * right. split; [done|]. apply not_elem_of_cons.
        split; [congruence|done].
Qed.

(** X13.  [xgetdelim] returns the chunk as [getdelim] read it, with its
    delimiter: the byte compared with the delimiter is the terminator
    after the chunk, so nothing is removed.  The chunk is the pending
    bytes up to and including the first delimiter, or all of them when
    they hold none.  At the end of the stream the result is NULL and
    [errno] is 0, unless reading failed, which leaves the error in
    [errno]. *)
Theorem xgetdelim_chunk delim st errno :
  (pending st <> [] ->
   exists a b,
     pending st = a ++ b /\ a <> [] /\
     xgetdelim delim st errno
     = Ok (Some (cstr a), Stream b (failure st), errno) /\
     ((exists a', a = a' ++ [delim] /\ delim ∉ a') \/
      (b = [] /\ delim ∉ a))) /\
  (pending st = [] ->
   xgetdelim delim st errno
   = Ok (None, st, match failure st with Some e => e | None => 0 end)).
Proof.
  split.
  - intros Hne. unfold xgetdelim, getdelim.
    destruct (pending st) as [|c t] eqn:Ep; [done|].
    destruct (chunk_of delim (c :: t)) as [a b] eqn:Ec.
    destruct (chunk_of_spec delim (c :: t) a b Ec) as (Hab & Ha & Hd).
    exists a, b. split; [done|]. split; [by apply Ha|]. split; [|done].
    replace (0 <=? zlen a) with true
      by (symmetry; apply Z.leb_le, zlen_nonneg).
    pose proof (rload_app a NUL []) as Hl. rewrite Hl. cbn [rbind].
    destruct (Byte.eqb NUL delim); [|done].
    rewrite to_nat_zlen. unfold cstr.
    by rewrite list_insert_id by (by rewrite list_lookup_middle).
  - intros Hp. unfold xgetdelim, getdelim. rewrite Hp.
    by destruct (failure st).
Qed.

Lemma xgetdelim_chunk_witness :
  xgetdelim x0a (Stream [x79; x0a; x6e; x0a] None) 0
  = Ok (Some (cstr [x79; x0a]), Stream [x6e; x0a] None, 0).
Proof.
  destruct (xgetdelim_chunk x0a (Stream [x79; x0a; x6e; x0a] None) 0)
    as [H _].
  destruct H as (a & b & Hab & _ & Hrun & _); [done|].
  rewrite Hrun. by vm_compute in Hrun.
Defined.

(** * The width of a string *)

Lemma wrap_add_l a b : wrap (wrap a + b) = wrap (a + b).
Proof. unfold wrap. by rewrite Zplus_mod_idemp_l. Qed.

Section WidthSpec.

Variable L : locale.
Variable wcwidth : Z -> Z.
Hypothesis HL : conforming L.

Lemma xstrwidth_loop_spec bs rest :
  Forall (fun c => c <> NUL) bs ->
  zlen (bs ++ rest) <= PTRDIFF_MAX ->
  forall fuel pre u ret,
    bs = pre ++ u ->
    (length u <= fuel)%nat ->
    0 <= ret < 2 ^ 64 ->
    xstrwidth_loop L wcwidth fuel (bs ++ rest) (zlen bs) (zlen pre)
      (mb_zero L) ret
    = Ok (wrap (ret + width_sum L wcwidth fuel u)).
Proof.
  intros Hnn Hb.
  assert (Hend : forall fuel i mb ret,
    zlen bs <= i ->
    xstrwidth_loop L wcwidth fuel (bs ++ rest) (zlen bs) i mb ret = Ok ret).
  { intros fuel i mb ret Hi. destruct fuel; cbn [xstrwidth_loop];
      by replace (i <? zlen bs) with false by lia. }
  assert (Hnil : forall fuel, width_sum L wcwidth fuel [] = 0)
    by (by intros []).
  induction fuel as [|fuel IH]; intros pre u ret Hbs Hf Hret.
  - destruct u; [|cbn [length] in Hf; lia]. rewrite app_nil_r in Hbs.
    subst pre. rewrite Hend by lia. cbn [width_sum].
    by rewrite Z.add_0_r, wrap_small.
  - destruct u as [|c t].
    { rewrite app_nil_r in Hbs. subst pre. rewrite Hend by lia.
      cbn [width_sum]. by rewrite Z.add_0_r, wrap_small. }
    cbn [xstrwidth_loop width_sum].
    replace (zlen pre <? zlen bs) with true.
    2:{ rewrite Hbs, zlen_app, zlen_cons. pose proof (zlen_nonneg t). lia. }
    assert (Hstr : bs ++ rest = pre ++ (c :: t) ++ rest)
      by (by rewrite Hbs, <- app_assoc).
    assert (Hnn_u : Forall (fun c => c <> NUL) (c :: t)).
    { rewrite Hbs in Hnn. by apply Forall_app in Hnn as [_ ?]. }
    rewrite Hstr at 1. rewrite Hbs at 1.
    rewrite xmbrtowc_at by (by rewrite <- Hstr).
    unfold decode_one.
    assert (Hpre : 0 <= zlen pre) by apply zlen_nonneg.
    assert (Hlen : zlen bs = zlen pre + zlen (c :: t))
      by (by rewrite Hbs, zlen_app).
    assert (Hct : zlen (c :: t) = 1 + zlen t) by apply zlen_cons.
    pose proof (zlen_nonneg t) as Ht0.
    assert (Hbb : zlen bs <= 2 ^ 63 - 1).
    { unfold PTRDIFF_MAX in Hb. rewrite zlen_app in Hb.
      pose proof (zlen_nonneg rest). lia. }
    assert (Hw : 0 <= wrap (ret + 1) < 2 ^ 64)
      by (apply Z.mod_pos_bound; lia).
    destruct (mbrtowc L (c :: t) (mb_zero L)) as [|st|wc k st] eqn:Hmb.
    + (* invalid sequence: one byte, one column *)
      cbn [rbind]. rewrite wrap_small by lia.
      replace (zlen pre + 1) with (zlen (pre ++ [c]))
        by (by rewrite zlen_app).
      rewrite (IH (pre ++ [c]) t);
        [|by rewrite Hbs, <- app_assoc|cbn [length] in Hf; lia|done].
      change (zdrop 1 (c :: t)) with t.
      by rewrite wrap_add_l, Z.add_assoc.
    + (* incomplete sequence: the loop ends *)
      cbn [rbind]. rewrite <- Hbs. rewrite wrap_small by lia.
      rewrite Hend by lia. rewrite Hnil. by rewrite Z.add_0_r.
    + (* a character of k bytes *)
      destruct (conf_char L HL _ _ _ _ Hmb) as (Hk & Hk0 & ->).
      assert (k <> 0) as Hkn.
      { intros ->. specialize (Hk0 eq_refl).
        rewrite Forall_forall in Hnn_u. by apply (Hnn_u NUL). }
      cbn [rbind]. rewrite wrap_small by lia.
      change (0 =? 0) with true. cbv iota.
      set (unit := ztake k (c :: t)). set (u' := zdrop k (c :: t)).
      assert (Hu : c :: t = unit ++ u') by (symmetry; apply ztake_zdrop).
      assert (Hunit : length unit = Z.to_nat k).
      { subst unit. unfold ztake, zlen in *. rewrite length_take. lia. }
      replace (zlen pre + k) with (zlen (pre ++ unit))
        by (rewrite zlen_app; unfold zlen; lia).
      rewrite (IH (pre ++ unit) u').
      * by rewrite wrap_add_l, Z.add_assoc.
      * by rewrite Hbs, Hu, <- app_assoc.
      * assert (length (c :: t) = length unit + length u')%nat
          by (by rewrite Hu at 1; rewrite length_app).
        lia.
      * apply Z.mod_pos_bound. lia.
Qed.

End WidthSpec.

(** X14.  In a conforming locale [xstrwidth] returns on every C string
    with fuel for one iteration per byte, reads no byte after the
    terminator, and its result is the sum (modulo 2^64) of the [wcwidth]
    of the characters, with one column for every byte that starts no
    character and one for an incomplete character at the end. *)
Theorem xstrwidth_sum L wcwidth fuel bs :
  conforming L ->
  Forall (fun c => c <> NUL) bs ->
  zlen (cstr bs) <= PTRDIFF_MAX ->
  (length bs <= fuel)%nat ->
  xstrwidth L wcwidth fuel (cstr bs)
  = Ok (wrap (width_sum L wcwidth fuel bs)).
Proof.
  intros HL Hbs Hlen Hf. unfold xstrwidth, cstr.
  rewrite strlen_cstr by done. cbn [rbind].
  pose proof (xstrwidth_loop_spec L wcwidth HL bs [NUL] Hbs Hlen fuel [] bs 0
                eq_refl Hf ltac:(lia)) as H.
  exact H.
Qed.

Lemma xstrwidth_sum_witness :
  xstrwidth Utf8.loc (fun _ => 1) 8 (cstr [x68; xc3; xa9; xff; x6c; xc3])
  = Ok 5.
Proof.
  rewrite (xstrwidth_sum Utf8.loc (fun _ => 1) 8 [x68; xc3; xa9; xff; x6c; xc3]).
  - reflexivity.
  - apply Utf8Facts.conforming_utf8.
  - all_bytes.
  - by vm_compute.
  - cbn [length]. lia.
Defined.

(** * More on the quoting functions *)

Lemma strcspn_mono s rej1 rej2 :
  (forall c, strchr_in rej2 c = true -> strchr_in rej1 c = true) ->
  forall r2, strcspn s rej2 = Ok r2 ->
    exists r1, strcspn s rej1 = Ok r1 /\ 0 <= r1 <= r2.
Proof.
  intros Hsub. induction s as [|c t IH]; intros r2 H2; [done|].
  cbn [strcspn] in *. destruct (Byte.eqb c NUL) eqn:E.
  - cbn [orb] in *. injection H2 as <-. by exists 0.
  - cbn [orb] in *. destruct (strchr_in rej2 c) eqn:E2.
    + rewrite (Hsub c E2). injection H2 as <-. by exists 0.
    + destruct (strcspn t rej2) as [r|] eqn:Et; [|done].
      cbn [rbind] in H2. injection H2 as <-.
      destruct (IH r eq_refl) as (r1 & -> & Hr).
      destruct (strchr_in rej1 c).
      * exists 0. split; [done|lia].
      * exists (1 + r1). cbn [rbind]. split; [done|lia].
Qed.

Lemma quotable_reject_bare c :
  strchr_in quotable_reject c = true -> strchr_in bare_reject c = true.
Proof. by destruct c. Qed.

(** X15.  The two scans of the shell flavor are ordered: on a C string
    both return, and the prefix that may be written bare is never longer
    than the prefix that may stand between double quotes; so a word that
    passes the bare test would pass the double-quote test too. *)
Theorem bare_len_le_quotable_len str len :
  NUL ∈ str -> 0 <= len ->
  exists bl ql,
    bare_len str len = Ok bl /\ quotable_len str len = Ok ql /\
    0 <= bl <= ql /\ ql <= len.
Proof.
  intros Hin Hlen. unfold bare_len, quotable_len.
  destruct (strcspn_total str quotable_reject Hin) as (r2 & H2 & Hr2).
  destruct (strcspn_mono str bare_reject quotable_reject
              quotable_reject_bare r2 H2) as (r1 & H1 & Hr1).
  rewrite H1, H2. cbn [rbind]. do 2 eexists. split; [done|]. split; [done|].
  destruct (r1 <? len) eqn:E1, (r2 <? len) eqn:E2; lia.
Qed.

Lemma bare_len_le_quotable_len_witness :
  exists bl ql,
    bare_len (lit "it's $1") 7 = Ok bl /\ quotable_len (lit "it's $1") 7 = Ok ql /\
    0 <= bl <= ql /\ ql <= 7.
Proof.
  apply bare_len_le_quotable_len.
  - apply list_elem_of_In. vm_compute. tauto.
  - lia.
Defined.

Lemma strnlen_cstr bs rest :
  Forall (fun c => c <> NUL) bs ->
  forall n, zlen bs < n -> strnlen (bs ++ NUL :: rest) n = Ok (zlen bs).
Proof.
  induction 1 as [|c t Hc _ IH]; intros n Hn.
  - cbn [app strnlen]. change (zlen (@nil byte)) with 0 in *.
    by replace (n <=? 0) with false by lia.
  - rewrite zlen_cons in *. pose proof (zlen_nonneg t).
    cbn [app strnlen]. replace (n <=? 0) with false by lia.
    apply byte_eqb_neq in Hc. rewrite Hc. rewrite IH by lia. done.
Qed.

Lemma xstpecpy_cstr_written b0 s e out d buf a :
  written b0 s e out d buf ->
  Forall (fun c => c <> NUL) a -> zlen a <= PTRDIFF_MAX ->
  exists d' buf',
    xstpecpy d e (cstr a) buf = WOk d' buf' /\
    written b0 s e (out ++ a) d' buf'.
Proof.
  intros Hw Ha Hlen. unfold xstpecpy.
  assert (Hn : strnlen (cstr a) SIZE_MAX = Ok (zlen a)).
  { apply strnlen_cstr; [done|]. unfold PTRDIFF_MAX, SIZE_MAX in *. lia. }
  destruct (xstpencpy_written _ _ _ _ _ _ _ _ _ Hw Hn) as (d' & buf' & Hr & Hw').
  exists d', buf'. split; [done|]. unfold cstr in Hw'.
  by rewrite ztake_app_zlen in Hw'.
Qed.

(** X16.  Appending composes, also under truncation: writing the string
    [a] and then the string [b] with [xstpecpy] returns the same cursor and
    leaves the same terminated text in the region as writing their
    concatenation at once, namely its first [capacity - 1] bytes. *)
Theorem xstpecpy_append b0 s e a b :
  0 <= s < e -> e <= zlen b0 -> zlen b0 <= PTRDIFF_MAX ->
  Forall (fun c => c <> NUL) a -> Forall (fun c => c <> NUL) b ->
  zlen (a ++ b) <= PTRDIFF_MAX ->
  exists d buf1 buf2,
    (d1 <- xstpecpy s e (cstr a) ;; xstpecpy d1 e (cstr b)) b0 = WOk d buf1 /\
    xstpecpy s e (cstr (a ++ b)) b0 = WOk d buf2 /\
    d = (if zlen (a ++ b) <? e - s then s + zlen (a ++ b) else e) /\
    bytes_between buf1 s (if d <? e then d else e - 1)
    = ztake (e - s - 1) (a ++ b) /\
    bytes_between buf2 s (if d <? e then d else e - 1)
    = ztake (e - s - 1) (a ++ b) /\
    load buf1 (if d <? e then d else e - 1) = Some NUL /\
    load buf2 (if d <? e then d else e - 1) = Some NUL.
Proof.
  intros Hs He Hb Ha Hbb Hlen.
  pose proof (written_init b0 s e Hs He Hb) as Hw0.
  rewrite zlen_app in Hlen.
  pose proof (zlen_nonneg a). pose proof (zlen_nonneg b).
  destruct (xstpecpy_cstr_written _ _ _ _ _ _ a Hw0 Ha ltac:(lia))
    as (d1 & buf1' & Hr1 & Hw1).
  destruct (xstpecpy_cstr_written _ _ _ _ _ _ b Hw1 Hbb ltac:(lia))
    as (d & buf1 & Hr2 & Hw2).
  destruct (xstpecpy_cstr_written _ _ _ _ _ _ (a ++ b) Hw0
              ltac:(by apply Forall_app) ltac:(rewrite zlen_app; lia))
    as (d' & buf2 & Hr3 & Hw3).
  cbn [app] in Hw1, Hw2, Hw3.
  pose proof (written_cursor _ _ _ _ _ _ Hw2) as Hd.
  pose proof (written_cursor _ _ _ _ _ _ Hw3) as Hd'.
  assert (d' = d) as -> by congruence.
  pose proof (written_cursor_range _ _ _ _ _ _ Hw1) as Hrange.
  exists d, buf1, buf2. split_and!.
  - unfold bind. by rewrite Hr1.
  - done.
  - done.
  - by apply (written_bytes b0).
  - by apply (written_bytes b0).
  - apply (xstpencpy_terminator d1 e (cstr b) SIZE_MAX buf1'); [|done].
    unfold PTRDIFF_MAX in Hb. unfold zlen in *. lia.
  - apply (xstpencpy_terminator s e (cstr (a ++ b)) SIZE_MAX b0); [|done].
    unfold PTRDIFF_MAX in Hb. unfold zlen in *. lia.
Qed.

Lemma xstpecpy_append_witness :
  exists d buf1 buf2,
    (d1 <- xstpecpy 0 6 (lit "foo") ;; xstpecpy d1 6 (lit "bar")) (fresh 6)
    = WOk d buf1 /\
    xstpecpy 0 6 (lit "foobar") (fresh 6) = WOk d buf2 /\
    d = 6 /\
    bytes_between buf1 0 5 = String.list_byte_of_string "fooba" /\
    bytes_between buf2 0 5 = String.list_byte_of_string "fooba".
Proof.
  destruct (xstpecpy_append (fresh 6) 0 6 (String.list_byte_of_string "foo")
              (String.list_byte_of_string "bar"))
    as (d & buf1 & buf2 & H1 & H2 & Hd & Hb1 & Hb2 & _).
  - lia.
  - by vm_compute.
  - by vm_compute.
  - all_bytes.
  - all_bytes.
  - by vm_compute.
  - exists d, buf1, buf2. vm_compute in Hd. subst d.
    split; [exact H1|]. split; [exact H2|]. split; [done|].
    split; [exact Hb1|exact Hb2].
Defined.

(** X17.  A truncated result is a prefix of the full one: if a call of
    [wordnesc] returns before the end of its buffer, leaving the text [t]
    between [dest] and the cursor, then the call on the same input with any
    other region returns and leaves there the first [capacity - 1] bytes of
    [t] followed by a terminator. *)
Theorem wordnesc_truncation_prefix L fuel str n flags
  b1 s1 e1 b2 s2 e2 r1 buf1 :
  0 <= s1 < e1 -> e1 <= zlen b1 -> zlen b1 <= PTRDIFF_MAX ->
  0 <= s2 < e2 -> e2 <= zlen b2 -> zlen b2 <= PTRDIFF_MAX ->
  wordnesc L fuel s1 e1 str n flags b1 = WOk r1 buf1 ->
  r1 < e1 ->
  exists r2 buf2,
    wordnesc L fuel s2 e2 str n flags b2 = WOk r2 buf2 /\
    bytes_between buf2 s2 (if r2 <? e2 then r2 else e2 - 1)
    = ztake (e2 - s2 - 1) (bytes_between buf1 s1 r1) /\
    load buf2 (if r2 <? e2 then r2 else e2 - 1) = Some NUL.
Proof.
  intros Hs1 He1 Hb1 Hs2 He2 Hb2 Hrun Hlt.
  pose proof (wordnesc_written L fuel b1 s1 e1 str n flags Hs1 He1 Hb1) as H1.
  rewrite Hrun in H1. destruct H1 as (txt & Hw1 & _ & _ & Htxt).
  specialize (Htxt Hlt).
  rewrite (written_bytes_fit _ _ _ _ _ _ Hw1 Hlt).
  pose proof (wordnesc_written L fuel b2 s2 e2 str n flags Hs2 He2 Hb2) as H2.
  destruct (wordnesc L fuel s2 e2 str n flags b2) as [r2 buf2| |flt];
    [|done|by destruct (H2 txt)].
  destruct H2 as (txt2 & Hw2 & Hne & Ht2 & _).
  specialize (Ht2 _ Htxt). subst txt2.
  exists r2, buf2. split; [done|]. split.
  - by apply (written_bytes b2).
  - by apply (written_terminated b2 s2 e2 txt).
Qed.

Lemma wordnesc_truncation_prefix_witness :
  exists r2 buf2,
    wordnesc Utf8.loc 6 0 4 (lit "a b") SIZE_MAX WESC_SHELL (fresh 4)
    = WOk r2 buf2 /\
    bytes_between buf2 0 (if r2 <? 4 then r2 else 4 - 1)
    = [c_dquote; x61; x20].
Proof.
  destruct (wordnesc Utf8.loc 6 0 8 (lit "a b") SIZE_MAX WESC_SHELL (fresh 8))
    as [r1 buf1| |] eqn:E1; try (by vm_compute in E1).
  destruct (wordnesc_truncation_prefix Utf8.loc 6 (lit "a b") SIZE_MAX
              WESC_SHELL (fresh 8) 0 8 (fresh 4) 0 4 r1 buf1)
    as (r2 & buf2 & Hrun & Hb & _).
  - lia.
  - by vm_compute.
  - by vm_compute.
  - lia.
  - by vm_compute.
  - by vm_compute.
  - exact E1.
  - vm_compute in E1. injection E1 as <- _. lia.
  - exists r2, buf2. split; [exact Hrun|]. rewrite Hb.
    vm_compute in E1. injection E1 as <- <-. reflexivity.
Defined.

(** X18.  [wordnesc] always advances: whatever the input, the flavor and
    the capacity, the cursor it returns is after [dest], so the text it
    leaves is never empty when the buffer has room for a byte of it. *)
Theorem wordnesc_advances L fuel str n flags b0 s e r buf :
  0 <= s < e -> e <= zlen b0 -> zlen b0 <= PTRDIFF_MAX ->
  wordnesc L fuel s e str n flags b0 = WOk r buf ->
  s < r <= e.
Proof.
  intros Hs He Hb Hrun.
  pose proof (wordnesc_written L fuel b0 s e str n flags Hs He Hb) as H.
  rewrite Hrun in H. destruct H as (txt & Hw & Hne & _).
  pose proof (written_cursor _ _ _ _ _ _ Hw) as Hc.
  assert (0 < zlen txt).
  { destruct txt; [done|]. rewrite zlen_cons. pose proof (zlen_nonneg txt). lia. }
  destruct (zlen txt <? e - s) eqn:E; lia.
Qed.

Lemma wordnesc_advances_witness :
  exists r buf,
    wordnesc Utf8.loc 1 0 1 (lit "") SIZE_MAX 0 (fresh 1) = WOk r buf /\
    0 < r <= 1.
Proof.
  destruct (wordnesc Utf8.loc 1 0 1 (lit "") SIZE_MAX 0 (fresh 1))
    as [r buf| |] eqn:E; try (by vm_compute in E).
  exists r, buf. split; [reflexivity|].
  apply (wordnesc_advances Utf8.loc 1 (lit "") SIZE_MAX 0 (fresh 1) 0 1 r buf).
  - lia.
  - by vm_compute.
  - by vm_compute.
  - exact E.
Defined.

(** * Device numbers *)

(** X19.  Where the fallback definitions are compiled, a device number
    made of a major number and of a minor number below 256 gives both
    back; a larger minor number is not kept: [xminor] returns its low
    eight bits and the others are or-ed into the major number. *)
Theorem xmakedev_round_trip ma mi :
  0 <= ma -> ma * 2 ^ 8 <= INT_MAX -> 0 <= mi ->
  exists dev,
    xmakedev ma mi = Some dev /\
    xminor dev = mi mod 256 /\
    xmajor dev = Z.lor ma (mi / 256) /\
    (mi < 256 -> xmajor dev = ma /\ xminor dev = mi).
Proof.
  intros Hma Hmax Hmi. unfold xmakedev.
  replace ((0 <=? ma) && (ma * 2 ^ 8 <=? INT_MAX)) with true
    by (symmetry; apply andb_true_iff; split; apply Z.leb_le; lia).
  eexists. split; [done|].
  assert (Hmin : xminor (Z.lor (Z.shiftl ma 8) mi) = mi mod 256).
  { unfold xminor. change 255 with (Z.ones 8).
    rewrite Z.land_ones by lia. rewrite <- Z.land_ones by lia.
    rewrite Z.land_lor_distr_l. rewrite !Z.land_ones by lia.
    rewrite Z.shiftl_mul_pow2 by lia. rewrite Z.mod_mul by lia.
    by rewrite Z.lor_0_l. }
  assert (Hmaj : xmajor (Z.lor (Z.shiftl ma 8) mi) = Z.lor ma (mi / 256)).
  { unfold xmajor. rewrite Z.shiftr_lor.
    rewrite Z.shiftr_shiftl_l by lia. rewrite Z.sub_diag, Z.shiftl_0_r.
    by rewrite Z.shiftr_div_pow2 by lia. }
  split; [done|]. split; [done|]. intros Hlt. rewrite Hmin, Hmaj.
  rewrite Z.div_small, Z.mod_small by lia. by rewrite Z.lor_0_r.
Qed.

Lemma xmakedev_round_trip_witness :
  exists dev,
    xmakedev 8 17 = Some dev /\ xmajor dev = 8 /\ xminor dev = 17.
Proof.
  destruct (xmakedev_round_trip 8 17) as (dev & Hd & _ & _ & Hr).
  - lia.
  - by vm_compute.
  - lia.
  - exists dev. split; [exact Hd|]. apply Hr. lia.
Defined.

(** * The limits of the integer types *)

Lemma shiftl_1_pow k : 0 <= k -> Z.shiftl 1 k = 2 ^ k.
Proof. intros Hk. rewrite Z.shiftl_mul_pow2 by done. lia. Qed.

(** X20.  The limit macros of the test of the bit functions are exact for
    every width up to 64: [UWIDTH_MAX(n)] is [2^n - 1] without a shift by
    the full width and without a wrapped intermediate result,
    [IWIDTH_MAX(n)] is [2^(n-1) - 1] and [IWIDTH_MIN(n)] is [-2^(n-1)]; at
    width 64 they are [SIZE_MAX] and [PTRDIFF_MAX]. *)
Theorem width_limits n :
  1 <= n <= 64 ->
  UWIDTH_MAX n = Some (2 ^ n - 1) /\
  (2 <= n -> IWIDTH_MAX n = Some (2 ^ (n - 1) - 1) /\
             IWIDTH_MIN n = Some (- 2 ^ (n - 1))) /\
  UWIDTH_MAX 64 = Some SIZE_MAX /\ IWIDTH_MAX 64 = Some PTRDIFF_MAX.
Proof.
  intros Hn.
  assert (HU : forall m, 1 <= m <= 64 -> UWIDTH_MAX m = Some (2 ^ m - 1)).
  { intros m Hm. unfold UWIDTH_MAX.
    replace ((0 <=? m - 1) && (m - 1 <? 64)) with true
      by (symmetry; apply andb_true_iff; split;
          [apply Z.leb_le|apply Z.ltb_lt]; lia).
    rewrite shiftl_1_pow by lia.
    assert (Hp : 1 <= 2 ^ (m - 1) <= 2 ^ 63).
    { split; [|apply Z.pow_le_mono_r; lia].
      assert (0 < 2 ^ (m - 1)) by (apply Z.pow_pos_nonneg; lia). lia. }
    assert (Hd : 2 ^ m = 2 * 2 ^ (m - 1)).
    { rewrite <- Z.pow_succ_r by lia. f_equal. lia. }
    rewrite (wrap_small (2 ^ (m - 1))) by lia.
    rewrite (wrap_small (2 ^ (m - 1) - 1)) by lia.
    rewrite (wrap_small (2 * _)) by lia.
    rewrite wrap_small by lia. f_equal. lia. }
  split; [by apply HU|]. split; [|by split].
  intros H2. unfold IWIDTH_MIN, IWIDTH_MAX. rewrite HU by lia.
  split; [done|].
  assert (2 ^ (n - 1) <= 2 ^ 63) by (apply Z.pow_le_mono_r; lia).
  replace (2 ^ (n - 1) - 1 <? 2 ^ 63) with true
    by (symmetry; apply Z.ltb_lt; lia).
  f_equal. lia.
Qed.

Lemma width_limits_witness :
  UWIDTH_MAX 8 = Some 255 /\ IWIDTH_MAX 8 = Some 127 /\
  IWIDTH_MIN 8 = Some (-128).
Proof.
  destruct (width_limits 8) as (HU & HI & _); [lia|].
  destruct HI as [HI1 HI2]; [lia|].
  split; [exact HU|]. split; [exact HI1|exact HI2].
Defined.

(** * Reading a link *)

Lemma memcpy_front (t name : list byte) k :
  0 <= k <= zlen t -> k <= zlen name ->
  memcpy 0 t k name = WOk tt (ztake k t ++ zdrop k name).
Proof.
  intros Hk Hn. unfold memcpy. destruct (k <=? 0) eqn:E.
  - apply Z.leb_le in E. by replace k with 0 by lia.
  - replace (zlen t <? k) with false by (symmetry; apply Z.ltb_ge; lia).
    replace ((0 <=? 0) && (0 + k <=? zlen name)) with true
      by (symmetry; apply andb_true_iff; split; apply Z.leb_le; lia).
    by rewrite Z.add_0_l.
Qed.

Lemma zlen_realloc (name : list byte) size junk :
  0 <= size ->
  zlen (ztake size (name ++ replicate (Z.to_nat size) junk)) = size.
Proof.
  intros Hs. unfold zlen, ztake.
  rewrite length_take, length_app, length_replicate. lia.
Qed.

Lemma ztake_app_zlen_self {A} (l : list A) : ztake (zlen l) l = l.
Proof. unfold ztake. rewrite to_nat_zlen. apply firstn_all. Qed.

Lemma insert_middle {A} (l : list A) (x y : A) (rest : list A) :
  <[length l := y]> (l ++ x :: rest) = l ++ y :: rest.
Proof.
  rewrite <- (Nat.add_0_r (length l)) at 1. by rewrite insert_app_r.
Qed.

Lemma readlink_finish (t name1 : list byte) size :
  zlen name1 = size -> zlen t < size ->
  exists name,
    (store (zlen t) NUL ;;; ret true) (t ++ zdrop (zlen t) name1)
    = WOk true name /\
    ztake (zlen t + 1) name = cstr t /\ zlen name = size.
Proof.
  intros Hn1 Hlt. pose proof (zlen_nonneg t) as Ht0.
  destruct (zdrop (zlen t) name1) as [|x rest] eqn:Ed.
  { exfalso. assert (zlen (zdrop (zlen t) name1) = size - zlen t).
    { unfold zlen, zdrop in *. rewrite length_drop. lia. }
    rewrite Ed in H. change (zlen (@nil byte)) with 0 in H. lia. }
  assert (Hlen : zlen (t ++ x :: rest) = size).
  { rewrite <- Ed, zlen_app. unfold zlen, zdrop in *.
    rewrite length_drop. lia. }
  unfold bind, store.
  replace ((0 <=? zlen t) && (zlen t <? zlen (t ++ x :: rest))) with true
    by (symmetry; apply andb_true_iff; split;
        [apply Z.leb_le|apply Z.ltb_lt]; lia).
  unfold ret. eexists. split; [done|].
  rewrite to_nat_zlen, insert_middle. split.
  - replace (zlen t + 1) with (zlen (t ++ [NUL])) by (by rewrite zlen_app).
    change (t ++ NUL :: rest) with (t ++ [NUL] ++ rest).
    rewrite app_assoc. apply ztake_app_zlen.
  - rewrite <- Hlen. by rewrite !zlen_app, !zlen_cons.
Qed.

Section ReadlinkLoop.

Variables (t : list byte) (can_alloc : Z -> bool) (junk : byte).
Variable size0 : Z.
Hypothesis Hsize0 : 1 <= size0.
Hypothesis Ht : 2 * zlen t < 2 ^ 63.
Hypothesis Halloc :
  forall z, size0 <= z <= Z.max size0 (2 * zlen t) -> can_alloc z = true.

Lemma xreadlinkat_loop_target k :
  forall size name0,
    size0 <= size <= Z.max size0 (2 * zlen t) ->
    zlen t < size * 2 ^ Z.of_nat k ->
    exists name,
      xreadlinkat_loop (Some t) can_alloc junk (S k) size name0
      = WOk true name /\
      ztake (zlen t + 1) name = cstr t /\
      (zlen t < size -> zlen name = size).
Proof.
  induction k as [|k IH]; intros size name0 Hs Hk.
  all: cbn [xreadlinkat_loop]; unfold bind at 1, realloc at 1;
    rewrite Halloc by done; cbn [negb];
    set (name1 := ztake size (name0 ++ replicate (Z.to_nat size) junk));
    assert (Hn1 : zlen name1 = size) by (apply zlen_realloc; lia);
    pose proof (zlen_nonneg t) as Ht0;
    unfold bind at 1, readlinkat at 1, bind at 1;
    rewrite memcpy_front by lia; unfold ret at 1;
    replace (Z.min (zlen t) size <? 0) with false
      by (symmetry; apply Z.ltb_ge; lia).
  - (* the last attempt *)
    change (2 ^ Z.of_nat 0) with 1 in Hk.
    replace (size <=? Z.min (zlen t) size) with false
      by (symmetry; apply Z.leb_gt; lia).
    replace (Z.min (zlen t) size) with (zlen t) by lia.
    rewrite ztake_app_zlen_self.
    destruct (readlink_finish t name1 size Hn1 ltac:(lia))
      as (name & Hrun & Htxt & Hlen).
    by exists name.
  - destruct (size <=? Z.min (zlen t) size) eqn:E.
    + (* too small: the size doubles *)
      apply Z.leb_le in E. rewrite wrap_small by lia.
      destruct (IH (size * 2) (ztake (Z.min (zlen t) size) t
                                ++ zdrop (Z.min (zlen t) size) name1))
        as (name & Hrun & Htxt & Hfit).
      * lia.
      * rewrite Nat2Z.inj_succ, Z.pow_succ_r in Hk by lia. lia.
      * exists name. split; [done|]. split; [done|]. lia.
    + (* it fits *)
      apply Z.leb_gt in E.
      replace (Z.min (zlen t) size) with (zlen t) by lia.
      rewrite ztake_app_zlen_self.
      destruct (readlink_finish t name1 size Hn1 ltac:(lia))
        as (name & Hrun & Htxt & Hlen).
      by exists name.
Qed.

End ReadlinkLoop.

Lemma xreadlinkat_loop_safe link can_alloc junk fuel :
  forall size name0,
    0 <= size ->
    match xreadlinkat_loop link can_alloc junk fuel size name0 with
    | WOk true name =>
        exists t, link = Some t /\ ztake (zlen t + 1) name = cstr t
    | WOk false name => name = []
    | WriteOOB => False
    | WErr f => f = NoFuel
    end.
Proof.
  induction fuel as [|fuel IH]; intros size name0 Hs; [done|].
  cbn [xreadlinkat_loop]. unfold bind at 1, realloc at 1.
  destruct (can_alloc size); [|done]. cbn [negb].
  set (name1 := ztake size (name0 ++ replicate (Z.to_nat size) junk)).
  assert (Hn1 : zlen name1 = size) by (by apply zlen_realloc).
  unfold bind at 1, readlinkat at 1. destruct link as [t|]; [|done].
  pose proof (zlen_nonneg t) as Ht0.
  unfold bind at 1. rewrite memcpy_front by lia. unfold ret at 1.
  replace (Z.min (zlen t) size <? 0) with false
    by (symmetry; apply Z.ltb_ge; lia).
  destruct (size <=? Z.min (zlen t) size) eqn:E.
  - apply IH. unfold wrap. apply Z.mod_pos_bound. lia.
  - apply Z.leb_gt in E.
    replace (Z.min (zlen t) size) with (zlen t) by lia.
    rewrite ztake_app_zlen_self.
    destruct (readlink_finish t name1 size Hn1 ltac:(lia))
      as (name & -> & Htxt & _).
    by exists t.
Qed.

(** X21.  Whatever the link, the allocator and the estimate, [xreadlinkat]
    stores nothing outside the object it allocated; when it returns a
    string, the string is the whole target of the link followed by a
    terminator; and when it returns NULL, no object is left allocated. *)
Theorem xreadlinkat_safe link can_alloc junk fuel hint :
  0 <= hint ->
  match xreadlinkat link can_alloc junk fuel hint with
  | WOk true name =>
      exists t, link = Some t /\ ztake (zlen t + 1) name = cstr t
  | WOk false name => name = []
  | WriteOOB => False
  | WErr f => f = NoFuel
  end.
Proof.
  intros Hh. unfold xreadlinkat. apply xreadlinkat_loop_safe.
  destruct (hint =? 0); [lia|]. unfold wrap. apply Z.mod_pos_bound. lia.
Qed.

Lemma xreadlinkat_safe_witness :
  exists name,
    xreadlinkat (Some (String.list_byte_of_string "/usr/lib"))
      (fun z => z <? 100) xff 5 2 = WOk true name /\
    ztake 9 name = lit "/usr/lib".
Proof.
  pose proof (xreadlinkat_safe (Some (String.list_byte_of_string "/usr/lib"))
                (fun z => z <? 100) xff 5 2 ltac:(lia)) as H.
  destruct (xreadlinkat _ _ _ _ _) as [[] name| |] eqn:E;
    try (by vm_compute in E).
  destruct H as (t & [= <-] & Ht). by exists name.
Defined.

(** X22.  The estimate only saves attempts: for any estimate, when the
    allocations succeed and the fuel covers the doublings from the first
    size to one above the length of the target, [xreadlinkat] returns the
    target; and with the exact length as the estimate the object has no
    byte to spare. *)
Theorem xreadlinkat_target t can_alloc junk k hint :
  0 <= hint < PTRDIFF_MAX -> 2 * zlen t < 2 ^ 63 ->
  zlen t < (if hint =? 0 then 64 else hint + 1) * 2 ^ Z.of_nat k ->
  (forall z,
     (if hint =? 0 then 64 else hint + 1) <= z
       <= Z.max (if hint =? 0 then 64 else hint + 1) (2 * zlen t) ->
     can_alloc z = true) ->
  exists name,
    xreadlinkat (Some t) can_alloc junk (S k) hint = WOk true name /\
    ztake (zlen t + 1) name = cstr t /\
    (hint = zlen t -> 0 < hint -> name = cstr t).
Proof.
  intros Hh Ht Hk Halloc. unfold xreadlinkat. unfold PTRDIFF_MAX in Hh.
  rewrite (wrap_small (hint + 1)) by lia.
  set (size0 := if hint =? 0 then 64 else hint + 1) in *.
  assert (Hs0 : 1 <= size0) by (unfold size0; destruct (hint =? 0); lia).
  destruct (xreadlinkat_loop_target t can_alloc junk size0 Hs0 Ht Halloc k
              size0 []) as (name & Hrun & Htxt & Hfit); [lia|done|].
  exists name. split; [done|]. split; [done|]. intros He Hpos.
  assert (Hsz : size0 = zlen t + 1).
  { unfold size0. replace (hint =? 0) with false; [lia|].
    symmetry. apply Z.eqb_neq. lia. }
  rewrite <- Htxt. symmetry. rewrite <- Hsz, <- Hfit by lia.
  apply ztake_app_zlen_self.
Qed.

Lemma xreadlinkat_target_witness :
  exists name,
    xreadlinkat (Some (String.list_byte_of_string "/usr/lib"))
      (fun z => z <? 100) xff 3 2 = WOk true name /\
    ztake 9 name = lit "/usr/lib".
Proof.
  destruct (xreadlinkat_target (String.list_byte_of_string "/usr/lib")
              (fun z => z <? 100) xff 2 2)
    as (name & Hrun & Htxt & _).
  - by vm_compute.
  - by vm_compute.
  - by vm_compute.
  - intros z Hz. apply Z.ltb_lt. vm_compute in Hz. destruct Hz as [_ Hz].
    change (z <= 16) in Hz. lia.
  - by exists name.
Defined.

(** * Words that need no quoting *)

Lemma strnlen_le bs rest :
  Forall (fun c => c <> NUL) bs ->
  forall n, zlen bs <= n -> strnlen (bs ++ NUL :: rest) n = Ok (zlen bs).
Proof.
  induction 1 as [|c t Hc _ IH]; intros n Hn.
  - cbn [app strnlen]. by destruct (n <=? 0).
  - rewrite zlen_cons in *. pose proof (zlen_nonneg t).
    cbn [app strnlen]. replace (n <=? 0) with false by lia.
    apply byte_eqb_neq in Hc. rewrite Hc. rewrite IH by lia. done.
Qed.

Section PlainWord.

Variable L : locale.
Variables (flags : Z) (bs rest : list byte).
Hypothesis Hplain : Forall (fun c => isascii c = true /\ isprint L c = true) bs.
Hypothesis Hb : zlen (bs ++ rest) <= PTRDIFF_MAX.

Lemma printable_fast_plain fuel :
  forall pre u,
    bs = pre ++ u -> (length u <= fuel)%nat ->
    printable_fast L fuel (bs ++ rest) (zlen bs) flags (zlen pre)
    = Ok (inr (zlen bs)).
Proof.
  induction fuel as [|fuel IH]; intros pre u Hbs Hf.
  - destruct u; [|cbn [length] in Hf; lia]. rewrite app_nil_r in Hbs.
    subst pre. cbn [printable_fast]. by rewrite Z.ltb_irrefl.
  - destruct u as [|c t].
    { rewrite app_nil_r in Hbs. subst pre. cbn [printable_fast].
      by rewrite Z.ltb_irrefl. }
    cbn [printable_fast].
    replace (zlen pre <? zlen bs) with true.
    2:{ rewrite Hbs, zlen_app, zlen_cons. pose proof (zlen_nonneg t). lia. }
    assert (Hc : isascii c = true /\ isprint L c = true).
    { rewrite Hbs in Hplain. apply Forall_app in Hplain as [_ Hu].
      by apply Forall_inv in Hu. }
    destruct Hc as [Hc1 Hc2].
    rewrite Hbs at 1. rewrite <- app_assoc.
    change ((c :: t) ++ rest) with (c :: t ++ rest).
    rewrite rload_app. cbn [rbind]. rewrite Hc1. cbn [negb].
    unfold xisprint. rewrite Hc2. cbn [negb].
    rewrite (wrap_succ_zlen pre c (t ++ rest)).
    2:{ change (c :: t ++ rest) with ((c :: t) ++ rest).
        by rewrite app_assoc, <- Hbs. }
    apply (IH (pre ++ [c]) t);
      [by rewrite Hbs, <- app_assoc|cbn [length] in Hf; lia].
Qed.

Lemma printable_len_plain fuel :
  (length bs <= fuel)%nat ->
  printable_len L fuel (bs ++ rest) (zlen bs) flags = Ok (zlen bs).
Proof.
  intros Hf. unfold printable_len.
  pose proof (printable_fast_plain fuel [] bs eq_refl Hf) as H.
  change (zlen (@nil byte)) with 0 in H. rewrite H. cbn [rbind].
  destruct fuel; cbn [printable_slow]; by rewrite Z.ltb_irrefl.
Qed.

End PlainWord.

(** X23.  A word that needs no quoting is copied as it is, in both
    flavors: when the input is not empty and made of printable ASCII bytes
    none of which is in the reject set of [bare_len], [wordnesc] with room
    for it returns [dest] plus its length and leaves the input bytes and a
    terminator there. *)
Theorem wordnesc_plain_word L fuel b0 s e bs n flags :
  0 <= s < e -> e <= zlen b0 -> zlen b0 <= PTRDIFF_MAX ->
  bs <> [] ->
  Forall (fun c => c <> NUL /\ strchr_in bare_reject c = false) bs ->
  Forall (fun c => isascii c = true /\ isprint L c = true) bs ->
  zlen (cstr bs) <= PTRDIFF_MAX ->
  zlen bs <= n -> zlen bs < e - s -> (length bs <= fuel)%nat ->
  exists buf,
    wordnesc L fuel s e (cstr bs) n flags b0 = WOk (s + zlen bs) buf /\
    bytes_between buf s (s + zlen bs) = bs /\
    load buf (s + zlen bs) = Some NUL.
Proof.
  intros Hs He Hb0 Hne Hbare Hplain Hlen Hn Hfit Hf.
  assert (Hnn : Forall (fun c => c <> NUL) bs).
  { eapply Forall_impl; [exact Hbare|]. by intros c [? _]. }
  assert (Htxt : wordnesc_text L fuel (cstr bs) n flags = Ok bs).
  { unfold wordnesc_text, cstr. rewrite strnlen_le by done. cbn [rbind].
    unfold wordnesc_body_text.
    rewrite (printable_len_plain L flags bs [NUL]) by done. cbn [rbind].
    rewrite Z.ltb_irrefl.
    assert (Hbl : bare_len (bs ++ [NUL]) (zlen bs) = Ok (zlen bs)).
    { unfold bare_len. rewrite strcspn_stop; [|done|by left].
      cbn [rbind]. by rewrite Z.ltb_irrefl. }
    rewrite Hbl. cbn [rbind]. rewrite Z.eqb_refl.
    replace (if negb (shell flags) then Ok true else Ok true)
      with (@Ok bool true) by (by destruct (negb (shell flags))).
    cbn [rbind]. rewrite xstpencpy_text_exact by done. cbn [rbind].
    by destruct bs. }
  pose proof (wordnesc_written L fuel b0 s e (cstr bs) n flags Hs He Hb0) as H.
  destruct (wordnesc L fuel s e (cstr bs) n flags b0) as [r buf| |f];
    [|done|by destruct (H bs)].
  destruct H as (txt & Hw & _ & Heq & _).
  specialize (Heq _ Htxt). subst txt.
  pose proof (written_cursor _ _ _ _ _ _ Hw) as Hc.
  replace (zlen bs <? e - s) with true in Hc by (symmetry; apply Z.ltb_lt; lia).
  subst r. exists buf. split; [done|]. split.
  - apply (written_bytes_fit b0 s e); [done|lia].
  - pose proof (written_terminated _ _ _ _ _ _ Hw Hne) as Ht.
    by replace (s + zlen bs <? e) with true in Ht
      by (symmetry; apply Z.ltb_lt; lia).
Qed.

Lemma wordnesc_plain_word_witness :
  exists buf,
    wordnesc Utf8.loc 8 0 16 (lit "foo.txt") SIZE_MAX WESC_SHELL (fresh 16)
    = WOk 7 buf /\
    bytes_between buf 0 7 = String.list_byte_of_string "foo.txt".
Proof.
  destruct (wordnesc_plain_word Utf8.loc 8 (fresh 16) 0 16
              (String.list_byte_of_string "foo.txt") SIZE_MAX WESC_SHELL)
    as (buf & Hrun & Hb & _).
  - lia.
  - by vm_compute.
  - by vm_compute.
  - done.
  - all_bytes.
  - all_bytes.
  - by vm_compute.
  - by vm_compute.
  - by vm_compute.
  - vm_compute. lia.
  - by exists buf.
Defined.

(** * Reads of the source *)

Lemma strnlen_short src :
  forall k, k <= zlen src -> exists m, strnlen src k = Ok m.
Proof.
  induction src as [|c t IH]; intros k Hk; cbn [strnlen].
  - change (zlen (@nil byte)) with 0 in Hk.
    replace (k <=? 0) with true by (symmetry; apply Z.leb_le; lia).
    by eexists.
  - destruct (k <=? 0); [by eexists|].
    destruct (Byte.eqb c NUL); [by eexists|].
    rewrite zlen_cons in Hk. destruct (IH (k - 1)) as [m ->]; [lia|].
    by eexists.
Qed.

Lemma strcspn_unterminated rej bs :
  Forall (fun c => c <> NUL /\ strchr_in rej c = false) bs ->
  strcspn bs rej = Err ReadOOB.
Proof.
  induction 1 as [|c t [Hc1 Hc2] _ IH]; [done|].
  cbn [strcspn]. apply byte_eqb_neq in Hc1. by rewrite Hc1, Hc2, IH.
Qed.

(** X24.  [xstpencpy] reads at most the smaller of [n] and the capacity
    from the source: an object of that many bytes needs no terminator for
    the call to return, with a cursor between [dest] and [end]. *)
Theorem xstpencpy_reads_bounded d e src n buf :
  0 <= d < e -> e <= zlen buf -> zlen buf <= PTRDIFF_MAX ->
  Z.min n (e - d) <= zlen src ->
  exists d' buf', xstpencpy d e src n buf = WOk d' buf' /\ d <= d' <= e.
Proof.
  intros Hd He Hb Hsrc.
  pose proof (written_init buf d e Hd He Hb) as Hw.
  destruct (strnlen_short src (if e - d <? n then e - d else n)) as [m Hm].
  { destruct (e - d <? n) eqn:E; lia. }
  destruct (xstpencpy_written _ _ _ _ _ _ _ _ _ Hw Hm)
    as (d' & buf' & Hrun & Hw').
  rewrite xstpencpy_cap in Hrun by (unfold PTRDIFF_MAX in Hb; lia).
  exists d', buf'. split; [done|].
  by apply (written_cursor_range _ _ _ _ _ _ Hw').
Qed.

Lemma xstpencpy_reads_bounded_witness :
  exists d' buf',
    xstpencpy 0 8 (String.list_byte_of_string "hello") 3 (fresh 8)
    = WOk d' buf' /\ 0 <= d' <= 8.
Proof.
  apply xstpencpy_reads_bounded.
  - lia.
  - by vm_compute.
  - by vm_compute.
  - by vm_compute.
Defined.

(** X25.  The bound [n] of [wordnesc] does not bound its reads in the
    shell flavor: on an object of [n] printable ASCII bytes without a
    terminator and without a byte of the reject set, the scan of [bare_len]
    runs past the end of the object; the other flavor, which skips that
    scan, returns. *)
Theorem wordnesc_needs_terminator L fuel b0 s e bs flags :
  0 <= s < e -> e <= zlen b0 -> zlen b0 <= PTRDIFF_MAX ->
  bs <> [] ->
  Forall (fun c => c <> NUL /\ strchr_in bare_reject c = false) bs ->
  Forall (fun c => isascii c = true /\ isprint L c = true) bs ->
  zlen bs <= PTRDIFF_MAX -> (length bs <= fuel)%nat ->
  (shell flags = true ->
   wordnesc L fuel s e bs (zlen bs) flags b0 = WErr ReadOOB) /\
  (shell flags = false ->
   exists r buf, wordnesc L fuel s e bs (zlen bs) flags b0 = WOk r buf).
Proof.
  intros Hs He Hb0 Hne Hbare Hplain Hlen Hf.
  assert (Hnn : Forall (fun c => c <> NUL) bs).
  { eapply Forall_impl; [exact Hbare|]. by intros c [? _]. }
  assert (Hn : strnlen bs (zlen bs) = Ok (zlen bs)).
  { pose proof (strnlen_exact bs [] Hnn) as H. by rewrite app_nil_r in H. }
  assert (Hpl : printable_len L fuel bs (zlen bs) flags = Ok (zlen bs)).
  { pose proof (printable_len_plain L flags bs []) as H.
    rewrite app_nil_r in H. by apply H. }
  split; intros Hsh.
  - unfold wordnesc. unfold bind at 1, lift at 1. rewrite Hn.
    unfold bind at 1, lift at 1. rewrite Hpl. rewrite Z.ltb_irrefl.
    rewrite Hsh. cbn [negb].
    unfold bare_len. rewrite strcspn_unterminated by done. done.
  - assert (Htxt : wordnesc_text L fuel bs (zlen bs) flags = Ok bs).
    { unfold wordnesc_text, wordnesc_body_text. rewrite Hn. cbn [rbind].
      rewrite Hpl. cbn [rbind]. rewrite Z.ltb_irrefl, Hsh. cbn [negb rbind].
      pose proof (xstpencpy_text_exact bs [] Hnn) as H.
      rewrite app_nil_r in H. rewrite H. cbn [rbind]. by destruct bs. }
    pose proof (wordnesc_written L fuel b0 s e bs (zlen bs) flags Hs He Hb0)
      as H.
    destruct (wordnesc L fuel s e bs (zlen bs) flags b0) as [r buf| |f];
      [by do 2 eexists|done|by destruct (H bs)].
Qed.

Lemma wordnesc_needs_terminator_witness :
  wordnesc Utf8.loc 3 0 8 (String.list_byte_of_string "abc") 3 WESC_SHELL
    (fresh 8) = WErr ReadOOB.
Proof.
  destruct (wordnesc_needs_terminator Utf8.loc 3 (fresh 8) 0 8
              (String.list_byte_of_string "abc") WESC_SHELL) as [H _].
  - lia.
  - by vm_compute.
  - by vm_compute.
  - done.
  - all_bytes.
  - all_bytes.
  - by vm_compute.
  - vm_compute. lia.
  - by apply H.
Defined.

(** X26.  Four times the length plus four bytes are always enough: in a
    conforming locale, for an input of [len] bytes without an incomplete
    sequence after its start, [wordnesc] with that capacity returns before
    the end of the buffer, whatever the flavor, and its text has at most
    [4 * len + 3] bytes. *)
Theorem wordnesc_capacity L fuel b0 s e str n flags len :
  conforming L ->
  0 <= s < e -> e <= zlen b0 -> zlen b0 <= PTRDIFF_MAX ->
  strnlen str n = Ok len -> NUL ∈ str -> zlen str <= PTRDIFF_MAX ->
  (Z.to_nat len < fuel)%nat ->
  complete_tail L str len ->
  4 * len + 4 <= e - s ->
  exists r buf,
    wordnesc L fuel s e str n flags b0 = WOk r buf /\
    s < r <= s + 4 * len + 3 /\ r < e.
Proof.
  intros HL Hs He Hb Hlen Hin Hbs Hf Htail Hcap.
  destruct (cstring_split str n len Hlen Hin)
    as (bs & rest & Hstr & Hbl & Htk & Hnn & Hrest).
  destruct (wordnesc_text_spec L HL fuel flags bs rest n Hnn Hrest
              ltac:(by rewrite <- Hstr)
              ltac:(by rewrite <- Hstr, Hbl)
              ltac:(unfold zlen in Hbl; lia)
              ltac:(by rewrite <- Hstr, Hbl))
    as (pl & Hpl & Htxt).
  rewrite <- Hstr in Htxt.
  pose proof (wordnesc_spec_len L HL fuel flags bs pl Hnn) as Hsize.
  pose proof (wordnesc_written L fuel b0 s e str n flags Hs He Hb) as Hw.
  destruct (wordnesc L fuel s e str n flags b0) as [r buf| |flt];
    [|done|by destruct (Hw _ Htxt)].
  destruct Hw as (txt & Hw & Hne & Ht & _).
  specialize (Ht _ Htxt). subst txt.
  pose proof (written_cursor _ _ _ _ _ _ Hw) as Hc.
  replace (zlen (wordnesc_spec L fuel flags bs pl) <? e - s) with true in Hc
    by (symmetry; apply Z.ltb_lt; lia).
  assert (0 < zlen (wordnesc_spec L fuel flags bs pl)).
  { destruct (wordnesc_spec L fuel flags bs pl); [done|].
    rewrite zlen_cons. pose proof (zlen_nonneg l). lia. }
  exists r, buf. split; [done|]. lia.
Qed.

Lemma wordnesc_capacity_witness :
  exists r buf,
    wordnesc Utf8.loc 6 0 24 (lit "hello") SIZE_MAX 0 (fresh 24) = WOk r buf /\
    0 < r <= 0 + 4 * 5 + 3 /\ r < 24.
Proof.
  apply (wordnesc_capacity Utf8.loc 6 (fresh 24) 0 24 (lit "hello") SIZE_MAX
           0 5).
  - apply Utf8Facts.conforming_utf8.
  - lia.
  - by vm_compute.
  - by vm_compute.
  - by vm_compute.
  - apply list_elem_of_In. vm_compute. tauto.
  - by vm_compute.
  - vm_compute. lia.
  - apply complete_tail_hello.
  - lia.
Defined.
